(** * WaveForge: the wavetable engine, embedded in Rocq

    A shallow embedding of the signal-processing core of the WaveForge
    wavetable editor: the generators, the normaliser and the WAV encoder of
    [utils/audioUtils.ts], the brush editor of [components/WaveformCanvas.tsx],
    the click handler of [components/Wavetable3D.tsx] and the frame store of
    [App.tsx].

    JavaScript numbers are IEEE-754 binary64 values and the elements of a
    [Float32Array] are binary32 values; both are modelled with the executable
    specification of floating-point arithmetic of the standard library
    ([SpecFloat]), so every definition below can be evaluated. *)

From Stdlib Require Import ZArith QArith Bool Lia String.
From Stdlib Require Import SpecFloat.
From stdpp Require Import base list.

Local Open Scope Z_scope.

(** ** JavaScript numbers (binary64) *)

Module Num.

Abbreviation num := spec_float.

Definition prec : Z := 53.
Definition emax : Z := 1024.

Definition add : num -> num -> num := SFadd prec emax.
Definition sub : num -> num -> num := SFsub prec emax.
Definition mul : num -> num -> num := SFmul prec emax.
Definition div : num -> num -> num := SFdiv prec emax.
Definition neg : num -> num := SFopp.
Definition abs : num -> num := SFabs.

(** [x < y], [x > y] and [x === y] on numbers. *)
Definition ltb : num -> num -> bool := SFltb.
Definition gtb (x y : num) : bool := SFltb y x.
Definition eqb : num -> num -> bool := SFeqb.

Definition isNaN (x : num) : bool :=
  match x with S754_nan => true | _ => false end.

(** Neither NaN nor an infinity ([Number.isFinite]). *)
Definition isFinite (x : num) : bool :=
  match x with S754_nan | S754_infinity _ => false | _ => true end.

Definition is_zero (x : num) : bool :=
  match x with S754_zero _ => true | _ => false end.

Definition NaN : num := S754_nan.
Definition Infinity : num := S754_infinity false.
Definition zero : num := S754_zero false.

(** An integer literal, or an integer-valued variable, as a number. *)
Definition of_Z (z : Z) : num := binary_normalize prec emax z 0 false.

Definition one : num := of_Z 1.
Definition two : num := of_Z 2.

(** [Math.PI] = 0x1.921fb54442d18p+1 and the literal [0.0001] =
    0x1.a36e2eb1c432dp-14. *)
Definition PI : num := S754_finite false 7074237752028440 (-51).
Definition lit_0_0001 : num := S754_finite false 7378697629483821 (-66).

(** [Math.floor] of a number that has an integer part. *)
Definition floor (x : num) : option Z :=
  match x with
  | S754_zero _ => Some 0
  | S754_finite s m e =>
      let v := cond_Zopp s (Zpos m) in
      Some (if 0 <=? e then v * 2 ^ e else v / 2 ^ (- e))
  | _ => None
  end.

(** Two numbers that are the same value once the sign of a zero is
    forgotten (JavaScript's SameValueZero): NaN is the same as NaN, and
    [+0] is the same as [-0]. *)
Definition same_value (x y : num) : Prop :=
  x = y \/ (is_zero x = true /\ is_zero y = true).

End Num.

Export Num.

#[global] Arguments Num.add : simpl never.
#[global] Arguments Num.sub : simpl never.
#[global] Arguments Num.mul : simpl never.
#[global] Arguments Num.div : simpl never.
#[global] Arguments Num.of_Z : simpl never.
#[global] Arguments Num.one : simpl never.
#[global] Arguments Num.two : simpl never.

Declare Scope num_scope.
Delimit Scope num_scope with num.
Bind Scope num_scope with spec_float.
Infix "+" := Num.add : num_scope.
Infix "-" := Num.sub : num_scope.
Infix "*" := Num.mul : num_scope.
Infix "/" := Num.div : num_scope.

(** ** Float32Array *)

Module F32.

(** A binary32 value. *)
Abbreviation f32 := spec_float.

Definition prec : Z := 24.
Definition emax : Z := 128.

Definition valid (x : f32) : bool := valid_binary prec emax x.

(** Storing a number into a [Float32Array] rounds it to the nearest
    binary32 value, ties to even. *)
Definition of_num (x : num) : f32 :=
  match x with
  | S754_finite s m e => binary_round prec emax s m e
  | _ => x
  end.

(** Reading an element gives the number with the same value. *)
Definition to_num (x : f32) : num :=
  match x with
  | S754_finite s m e => binary_round Num.prec Num.emax s m e
  | _ => x
  end.

(** The 32 bits of a binary32 value: the sign, 8 bits of biased exponent
    and 23 bits of fraction. The encoding of a NaN is left to the host,
    which may tell apart NaNs that a program cannot (on x86-64 the NaN of
    [Infinity * 0] has the sign bit set, 0xffc00000, and the literal [NaN]
    has not, 0x7fc00000): [nan] is the encoding the host has for the NaN at
    hand. *)
Definition sign_bit (s : bool) : Z := if s then 2 ^ 31 else 0.

Definition bits (nan : Z) (x : f32) : Z :=
  match x with
  | S754_zero s => sign_bit s
  | S754_infinity s => sign_bit s + 255 * 2 ^ 23
  | S754_nan => nan
  | S754_finite s m e =>
      if Zpos (digits2_pos m) =? prec
      then sign_bit s + (e + 150) * 2 ^ 23 + (Zpos m - 2 ^ 23)
      else sign_bit s + Zpos m
  end.

(** The encodings of a NaN: 32 bits with the exponent bits all set and a
    fraction that is not 0. *)
Definition is_nan_bits (b : Z) : Prop :=
  0 <= b < 2 ^ 32 /\ (b / 2 ^ 23) mod 256 = 255 /\ b mod 2 ^ 23 <> 0.

End F32.

#[global] Arguments F32.of_num : simpl never.
#[global] Arguments F32.to_num : simpl never.

Abbreviation Float32Array := (list spec_float).

(** [new Float32Array(n)] is zero-filled. *)
Definition new_Float32Array (n : Z) : Float32Array :=
  replicate (Z.to_nat n) (S754_zero false).

(** [buffer[i]] in an arithmetic context: an index outside the array reads
    [undefined], which every arithmetic operator turns into NaN. *)
Definition f32_get (buffer : Float32Array) (i : Z) : num :=
  if i <? 0 then NaN
  else match buffer !! Z.to_nat i with
       | Some x => F32.to_num x
       | None => NaN
       end.

(** [buffer[i] = v]: a write outside a typed array is ignored. *)
Definition f32_set (buffer : Float32Array) (i : Z) (v : num) : Float32Array :=
  if i <? 0 then buffer else <[Z.to_nat i := F32.of_num v]> buffer.

(** Every element is a binary32 value. *)
Definition f32_array_valid (buffer : Float32Array) : Prop :=
  Forall (fun x => F32.valid x = true) buffer.

(** No element is NaN or infinite. *)
Definition f32_array_finite (buffer : Float32Array) : Prop :=
  Forall (fun x => isFinite x = true) buffer.

(** A value of the binary64 format, as every JavaScript number is. *)
Definition num_valid (x : num) : Prop := valid_binary Num.prec Num.emax x = true.

(** The rational number a finite value stands for. *)
Definition to_Q (x : spec_float) : option Q :=
  match x with
  | S754_zero _ => Some 0%Q
  | S754_finite s m e => Some (inject_Z (cond_Zopp s (Zpos m)) * Qpower 2 e)%Q
  | _ => None
  end.

(** The value of a number in units of 2^-1074, an integer for every binary64
    value; the infinities are beyond every finite value. *)
Definition scaled (x : num) : Z :=
  match x with
  | S754_zero _ => 0
  | S754_infinity s => cond_Zopp s (2 ^ 2200)
  | S754_nan => 0
  | S754_finite s m e => cond_Zopp s (Zpos m * 2 ^ (e + 1074))
  end.

(** ** Control flow *)

(** [for (let i = start; i < start + n; i++) body]. *)
Fixpoint for_range {S : Type} (n : nat) (i : Z) (body : Z -> S -> S) (s : S) : S :=
  match n with
  | O => s
  | S n' => for_range n' (i + 1) body (body i s)
  end.

(** A completion is normal, or abrupt when an exception was thrown. *)
Inductive completion (A : Type) : Type :=
| Normal (a : A)
| Throw.
Arguments Normal {A} a.
Arguments Throw {A}.

#[global] Instance completion_ret : MRet completion := fun A a => Normal a.
#[global] Instance completion_bind : MBind completion := fun A B k c =>
  match c with
  | Normal a => k a
  | Throw => Throw
  end.

(** The same loop with a body that may throw: the first throw leaves it. *)
Fixpoint for_range_try {S : Type} (n : nat) (i : Z) (body : Z -> S -> completion S) (s : S)
  : completion S :=
  match n with
  | O => Normal s
  | S n' => s' ← body i s; for_range_try n' (i + 1) body s'
  end.

(** ** types.ts *)

Definition FRAME_SIZE : Z := 2048.
Definition MAX_FRAMES : Z := 256.

(** A frame: [FRAME_SIZE] binary32 samples. *)
Definition is_frame (buffer : Float32Array) : Prop :=
  length buffer = Z.to_nat FRAME_SIZE /\ f32_array_valid buffer.

(** ** utils/audioUtils.ts *)

(** What a call of the function built from a formula does: it returns a
    value, taken here after its conversion to a number, or it throws. *)
Definition jsfun := num -> num -> num -> num -> completion num.

Section AudioUtils.

(** The host's [Math.sin], and the [Function] constructor applied to the
    parameter names and [return <formula>]: [None] when it throws a
    SyntaxError. *)
Variable Math_sin : num -> num.
Variable new_Function : string -> option jsfun.

Definition generateSine : Float32Array :=
  for_range (Z.to_nat FRAME_SIZE) 0
    (fun i buffer =>
       f32_set buffer i (Math_sin ((of_Z i / of_Z FRAME_SIZE) * PI * two)%num))
    (new_Float32Array FRAME_SIZE).

Definition generateSaw : Float32Array :=
  for_range (Z.to_nat FRAME_SIZE) 0
    (fun i buffer =>
       f32_set buffer i (one - (two * of_Z i) / of_Z FRAME_SIZE)%num)
    (new_Float32Array FRAME_SIZE).

(** The three statements under "Hard clip to prevent massive numbers". *)
Definition hard_clip (val : num) : num :=
  let val := if isNaN val then zero else val in
  let val := if gtb val one then one else val in
  let val := if ltb val (neg one) then neg one else val in
  val.

(** The call [func(x, t, i, FRAME_SIZE)] of iteration [i]. *)
Definition formula_call (func : jsfun) (i : Z) : completion num :=
  let t := (of_Z i / of_Z FRAME_SIZE)%num in
  let x := (t * PI * two)%num in
  func x t (of_Z i) (of_Z FRAME_SIZE).

(** One iteration of the loop of [generateFromFormula]. *)
Definition formula_sample (func : jsfun) (i : Z) (buffer : Float32Array)
  : completion Float32Array :=
  val ← formula_call func i;
  Normal (f32_set buffer i (hard_clip val)).

(** The body of the [try] block. *)
Definition formula_try (formula : string) (buffer : Float32Array)
  : completion Float32Array :=
  func ← match new_Function formula with
         | Some f => Normal f
         | None => Throw
         end;
  for_range_try (Z.to_nat FRAME_SIZE) 0 (formula_sample func) buffer.

(** The result is the returned buffer together with the messages written
    with [console.error]. *)
Definition generateFromFormula (formula : string) : Float32Array * list string :=
  let buffer := new_Float32Array FRAME_SIZE in
  match formula_try formula buffer with
  | Normal buffer => (buffer, [])
  | Throw => (generateSine, ["Formula error"%string])
  end.

Definition normalizeBuffer (buffer : Float32Array) : Float32Array :=
  let maxAmp :=
    for_range (length buffer) 0
      (fun i maxAmp =>
         let abs := Num.abs (f32_get buffer i) in
         if gtb abs maxAmp then abs else maxAmp)
      zero in
  if gtb maxAmp lit_0_0001 then
    let scaler := (one / maxAmp)%num in
    for_range (length buffer) 0
      (fun i buffer => f32_set buffer i (f32_get buffer i * scaler)%num)
      buffer
  else buffer.

(** The inner loop of [generateFromHarmonics]: one partial added to the
    whole buffer. *)
Definition add_harmonic (amp harmonicNum : num) (buffer : Float32Array) : Float32Array :=
  for_range (Z.to_nat FRAME_SIZE) 0
    (fun i buffer =>
       f32_set buffer i
         (f32_get buffer i
          + amp * Math_sin ((of_Z i / of_Z FRAME_SIZE) * PI * two * harmonicNum))%num)
    buffer.

(** The outer loop, over the indices [h] of the amplitudes still to do. *)
Fixpoint harmonics_loop (harmonics : list num) (h : Z) (buffer : Float32Array)
  : Float32Array :=
  match harmonics with
  | [] => buffer
  | amp :: rest =>
      if eqb amp zero then harmonics_loop rest (h + 1) buffer
      else
        let harmonicNum := of_Z (h + 1) in
        harmonics_loop rest (h + 1) (add_harmonic amp harmonicNum buffer)
  end.

Definition generateFromHarmonics (harmonics : list num) : Float32Array :=
  let buffer := new_Float32Array FRAME_SIZE in
  normalizeBuffer (harmonics_loop harmonics 0 buffer).

(** The reference the harmonic generator is compared with: the same sum,
    partial by partial, with no amplitude skipped, then normalised. *)
Fixpoint harmonics_loop_reference (buffer : Float32Array) (harmonics : list num) (h : Z)
  {struct harmonics} : Float32Array :=
  match harmonics with
  | [] => buffer
  | amp :: rest =>
      harmonics_loop_reference (add_harmonic amp (of_Z (h + 1)) buffer) rest (h + 1)
  end.

Definition generateFromHarmonics_reference (harmonics : list num) : Float32Array :=
  normalizeBuffer (harmonics_loop_reference (new_Float32Array FRAME_SIZE) harmonics 0).

Definition interpolateFrames (frameA frameB : Float32Array) (mix : num) : Float32Array :=
  for_range (Z.to_nat FRAME_SIZE) 0
    (fun i result =>
       f32_set result i (f32_get frameA i * (one - mix) + f32_get frameB i * mix)%num)
    (new_Float32Array FRAME_SIZE).

End AudioUtils.

(** The peak the first loop of [normalizeBuffer] finds. *)
Definition peak (buffer : Float32Array) : num :=
  for_range (length buffer) 0
    (fun i maxAmp =>
       let abs := Num.abs (f32_get buffer i) in
       if gtb abs maxAmp then abs else maxAmp)
    zero.

(** *** WAV export *)

(** A byte is an integer in [0, 256); an [ArrayBuffer] is zero-filled. *)
Abbreviation ArrayBuffer := (list Z).

Definition new_ArrayBuffer (n : Z) : ArrayBuffer := replicate (Z.to_nat n) 0.

(** The [n] low bytes of [v], least significant first. *)
Fixpoint le_bytes (n : nat) (v : Z) : list Z :=
  match n with
  | O => []
  | S n' => v mod 256 :: le_bytes n' (v / 256)
  end.

Fixpoint write_bytes (view : ArrayBuffer) (offset : nat) (bs : list Z) : ArrayBuffer :=
  match bs with
  | [] => view
  | b :: bs' => write_bytes (<[offset := b]> view) (S offset) bs'
  end.

(** The setters of a [DataView] over the whole buffer: a write that does not
    fit throws a RangeError. *)
Definition view_set (view : ArrayBuffer) (offset : Z) (bs : list Z) : completion ArrayBuffer :=
  if (0 <=? offset) && (offset + Z.of_nat (length bs) <=? Z.of_nat (length view))
  then Normal (write_bytes view (Z.to_nat offset) bs)
  else Throw.

Definition setUint8 (view : ArrayBuffer) (offset value : Z) : completion ArrayBuffer :=
  view_set view offset (le_bytes 1 value).

(** With [littleEndian = true], as at every call site. *)
Definition setUint16 (view : ArrayBuffer) (offset value : Z) : completion ArrayBuffer :=
  view_set view offset (le_bytes 2 value).

Definition setUint32 (view : ArrayBuffer) (offset value : Z) : completion ArrayBuffer :=
  view_set view offset (le_bytes 4 value).

Section WavExport.

(** The host's encoding of the NaNs the encoder writes: [NaN_bits offset] is
    what it stores for the NaN written at [offset] of the file. *)
Variable NaN_bits : Z -> Z.

Definition setFloat32 (view : ArrayBuffer) (offset : Z) (value : num) : completion ArrayBuffer :=
  view_set view offset (le_bytes 4 (F32.bits (NaN_bits offset) (F32.of_num value))).

Definition charCode (c : Ascii.ascii) : Z := Z.of_N (Ascii.N_of_ascii c).

(** [writeString]: the loop over the characters, [i] the current index. *)
Fixpoint writeString_from (view : ArrayBuffer) (offset : Z) (str : string) (i : Z)
  : completion ArrayBuffer :=
  match str with
  | EmptyString => Normal view
  | String c rest =>
      view ← setUint8 view (offset + i) (charCode c);
      writeString_from view offset rest (i + 1)
  end.

Definition writeString (view : ArrayBuffer) (offset : Z) (str : string)
  : completion ArrayBuffer :=
  writeString_from view offset str 0.

(** [frames.forEach(body)] with the state the body updates. *)
Fixpoint forEach_try {A S : Type} (l : list A) (body : A -> S -> completion S) (s : S)
  : completion S :=
  match l with
  | [] => Normal s
  | a :: l' => s' ← body a s; forEach_try l' body s'
  end.

(** The contents of the returned [Blob]. The sizes are integers far below
    2^53, so the arithmetic on them is exact and is done in [Z]. *)
Definition exportWavetableToWav (frames : list Float32Array) : completion ArrayBuffer :=
  let numFrames := Z.of_nat (length frames) in
  let numChannels := 1 in
  let sampleRate := 44100 in
  let bitsPerSample := 32 in
  let byteRate := (sampleRate * numChannels * bitsPerSample) / 8 in
  let blockAlign := (numChannels * bitsPerSample) / 8 in
  let dataSize := numFrames * FRAME_SIZE * numChannels * 4 in
  let view := new_ArrayBuffer (44 + dataSize) in
  view ← writeString view 0 "RIFF";
  view ← setUint32 view 4 (36 + dataSize);
  view ← writeString view 8 "WAVE";
  view ← writeString view 12 "fmt ";
  view ← setUint32 view 16 16;
  view ← setUint16 view 20 3;
  view ← setUint16 view 22 numChannels;
  view ← setUint32 view 24 sampleRate;
  view ← setUint32 view 28 byteRate;
  view ← setUint16 view 32 blockAlign;
  view ← setUint16 view 34 bitsPerSample;
  view ← writeString view 36 "data";
  view ← setUint32 view 40 dataSize;
  let offset := 44 in
  r ← forEach_try frames
        (fun frame => for_range_try (Z.to_nat FRAME_SIZE) 0
           (fun i '(view, offset) =>
              view ← setFloat32 view offset (f32_get frame i);
              Normal (view, offset + 4)))
        (view, offset);
  Normal r.1.

End WavExport.

(** ** components/WaveformCanvas.tsx *)

(** The buffer a brush stroke works on, with the element accesses made so
    far, the most recent first. *)
Inductive access : Type :=
| Read (idx : Z)
| Write (idx : Z).

Record traced : Type := Traced {
  contents : Float32Array;
  accesses : list access
}.

Definition traced_get (buffer : traced) (idx : Z) : num * traced :=
  (f32_get (contents buffer) idx,
   Traced (contents buffer) (Read idx :: accesses buffer)).

Definition traced_set (buffer : traced) (idx : Z) (v : num) : traced :=
  Traced (f32_set (contents buffer) idx v) (Write idx :: accesses buffer).

(** A pointer sample, as [getCursorPosition] returns it. *)
Record Pos : Type := { index : Z; amp : num }.

(** The index [getCursorPosition] computes from the clamped abscissa [x] and
    the width of the canvas. *)
Definition cursor_index (x width : num) : option Z :=
  Num.floor ((x / width) * of_Z FRAME_SIZE)%num.

Definition applyBrush (buffer : traced) (centerIndex : Z) (amp : num) : traced :=
  let brushSize := 15 in
  for_range (Z.to_nat (2 * brushSize + 1)) (- brushSize)
    (fun i buffer =>
       let idx := centerIndex + i in
       if (0 <=? idx) && (idx <? FRAME_SIZE) then
         let falloff := (one - (of_Z (Z.abs i) / of_Z brushSize))%num in
         let '(old, buffer) := traced_get buffer idx in
         traced_set buffer idx (old * (one - falloff) + amp * falloff)%num
       else buffer)
    buffer.

(** The brush work of [handleMove] on [newData]. *)
Definition move_brush (prev : option Pos) (curr : Pos) (newData : traced) : traced :=
  let currIndex := index curr in
  let currAmp := amp curr in
  match prev with
  | Some prev =>
      let startIdx := index prev in
      let endIdx := currIndex in
      let steps := Z.abs (endIdx - startIdx) in
      let stepDir := if endIdx >? startIdx then 1 else -1 in
      if steps =? 0 then applyBrush newData currIndex currAmp
      else
        for_range (Z.to_nat (steps + 1)) 0
          (fun i newData =>
             let idx := startIdx + i * stepDir in
             let t := (of_Z i / of_Z steps)%num in
             let interpolatedAmp := (amp prev + (currAmp - amp prev) * t)%num in
             applyBrush newData idx interpolatedAmp)
          newData
  | None => applyBrush newData currIndex currAmp
  end.

(** The state of the component: [isDrawing], [prevPosRef.current] and
    [localDataRef.current]. *)
Record CanvasState : Type := {
  isDrawing : bool;
  prevPosRef : option Pos;
  localDataRef : Float32Array
}.

(** Each handler returns the next state and the buffer passed to
    [onChange], if it is called. *)
Definition handleStart (isActive : bool) (e : Pos) (st : CanvasState)
  : CanvasState * option Float32Array :=
  if negb isActive then (st, None)
  else
    let newData := Traced (localDataRef st) [] in
    let newData := contents (applyBrush newData (index e) (amp e)) in
    ({| isDrawing := true; prevPosRef := Some e; localDataRef := newData |},
     Some newData).

Definition handleMove (isActive : bool) (e : Pos) (st : CanvasState)
  : CanvasState * option Float32Array :=
  if negb (isDrawing st) || negb isActive then (st, None)
  else
    let newData := Traced (localDataRef st) [] in
    let newData := contents (move_brush (prevPosRef st) e newData) in
    ({| isDrawing := isDrawing st; prevPosRef := Some e; localDataRef := newData |},
     Some newData).

Definition handleEnd (st : CanvasState) : CanvasState :=
  {| isDrawing := false; prevPosRef := None; localDataRef := localDataRef st |}.

(** ** components/HarmonicEditor.tsx *)

(** [new Array(16).fill(0).map((_, i) => i === 0 ? 1 : 0)]: the amplitudes
    the editor starts with, and the ones [reset] sets. *)
Definition initial_harmonics : list num :=
  (fun i => if i =? 0 then one else zero) <$> seqZ 0 16.

(** ** components/Wavetable3D.tsx: selecting a frame by a click *)

(** [Math.floor]: an infinity, a zero and NaN are kept, and so is a number
    whose exponent is not negative, which is an integer. *)
Definition Math_floor (x : num) : num :=
  match x with
  | S754_finite s m e =>
      if 0 <=? e then x else of_Z (cond_Zopp s (Zpos m) / 2 ^ (- e))
  | _ => x
  end.

(** [Math.min] and [Math.max] of two numbers: NaN if one of them is, and
    [-0] counts as less than [+0]. *)
Definition Math_min (x y : num) : num :=
  if isNaN x || isNaN y then NaN
  else if ltb x y then x
  else if ltb y x then y
  else match x with S754_zero false => y | _ => x end.

Definition Math_max (x y : num) : num :=
  if isNaN x || isNaN y then NaN
  else if ltb x y then y
  else if ltb y x then x
  else match x with S754_zero true => y | _ => x end.

(** The literals of the two copies of the handler: [0.1] and [0.8] in
    [components/Wavetable3D.tsx], [0.15] and [0.7] in the other. *)
Definition lit_0_1 : num := S754_finite false 7205759403792794 (-56).
Definition lit_0_8 : num := S754_finite false 7205759403792794 (-53).
Definition lit_0_15 : num := S754_finite false 5404319552844595 (-55).
Definition lit_0_7 : num := S754_finite false 6305039478318694 (-53).

(** [percent] of [handleClick]: where in the stack of frames the click is,
    from the ordinate [clientY] of the click and the [top] and the [height]
    of the canvas. [offset] and [span] are the two literals. *)
Definition click_percent (offset span clientY top height : num) : num :=
  let y := (clientY - top)%num in
  ((y - height * offset) / (height * span))%num.

(** [handleClick] on the mounted canvas: the index it passes to
    [onSelectFrame]. The length of the table is an integer far below 2^53,
    so [frames.length - 1] is exact. *)
Definition handleClick (offset span clientY top height : num) (frames_length : Z) : num :=
  let percent := click_percent offset span clientY top height in
  let index := Math_floor (percent * of_Z frames_length)%num in
  let clampedIndex := Math_max zero (Math_min (of_Z (frames_length - 1)) index) in
  clampedIndex.

(** ** App.tsx: the frame store *)

(** The frames are [Float32Array] objects, and the [frames] array holds
    references to them. [heap] lists the objects allocated so far, a
    reference is a position in it, and [new Float32Array(..)] allocates the
    next one. No operation of the store writes into an allocated object. *)
Abbreviation ref := nat.

Record AppState : Type := {
  heap : list Float32Array;
  frames : list ref;
  currentIndex : Z
}.

(** [frames[i]], [undefined] outside the array. *)
Definition frame_at (frames : list ref) (i : Z) : option ref :=
  if i <? 0 then None else frames !! Z.to_nat i.

(** The contents of the object behind a reference. *)
Definition deref (heap : list Float32Array) (r : ref) : Float32Array :=
  default [] (heap !! r).

(** The contents of frame [i] of a state. *)
Definition frame_contents (s : AppState) (i : Z) : option Float32Array :=
  r ← frame_at (frames s) i; heap s !! r.

(** [new Float32Array(src)]: a new object with the elements of [src];
    [new Float32Array(undefined)] is empty. *)
Definition copy_of (heap : list Float32Array) (src : option ref) : Float32Array :=
  match src with
  | Some r => deref heap r
  | None => []
  end.

Definition addFrame (s : AppState) : AppState :=
  if Z.of_nat (length (frames s)) >=? MAX_FRAMES then s
  else
    let copy := length (heap s) in
    {| heap := heap s ++ [copy_of (heap s) (frame_at (frames s) (currentIndex s))];
       frames := frames s ++ [copy];
       currentIndex := Z.of_nat (length (frames s)) |}.

(** The [onClick] handler of the Duplicate button. *)
Definition duplicateFrame (s : AppState) : AppState :=
  let copy := length (heap s) in
  {| heap := heap s ++ [copy_of (heap s) (frame_at (frames s) (currentIndex s))];
     frames := frames s ++ [copy];
     currentIndex := currentIndex s |}.

(** [l.filter((x, i) => p x i)], [i] the index of the head of [l]. *)
Fixpoint filter_indexed {A : Type} (p : A -> Z -> bool) (i : Z) (l : list A) : list A :=
  match l with
  | [] => []
  | x :: l' =>
      if p x i then x :: filter_indexed p (i + 1) l' else filter_indexed p (i + 1) l'
  end.

Definition deleteFrame (s : AppState) : AppState :=
  if Z.of_nat (length (frames s)) <=? 1 then s
  else
    let newFrames := filter_indexed (fun _ i => negb (i =? currentIndex s)) 0 (frames s) in
    {| heap := heap s;
       frames := newFrames;
       currentIndex := Z.min (currentIndex s) (Z.of_nat (length newFrames) - 1) |}.

Definition setCurrentIndex (i : Z) (s : AppState) : AppState :=
  {| heap := heap s; frames := frames s; currentIndex := i |}.

(** The callback of the timer that [handleScanPlayback] starts,
    [setCurrentIndex(prev => (prev + 1) % frames.length)]: [frames] is the
    table of the render in which Scan was pressed, so [frames_length] is the
    length the table had then, whatever it is when the timer fires. The
    table is never empty, so [frames_length] is positive. *)
Definition scan_tick (frames_length : Z) (s : AppState) : AppState :=
  setCurrentIndex (Z.rem (currentIndex s + 1) frames_length) s.

(** [frames.map((_, i) => ...)] of [morphBetween], [i] the index of the head
    of [l]: the first and last references are returned as they are, every
    other frame is a new object. *)
Fixpoint morph_map (first last : ref) (count : Z) (l : list ref) (i : Z)
    (heap0 heap : list Float32Array) : list Float32Array * list ref :=
  match l with
  | [] => (heap, [])
  | _ :: l' =>
      if i =? 0 then
        let '(heap', out) := morph_map first last count l' (i + 1) heap0 heap in
        (heap', first :: out)
      else if i =? count - 1 then
        let '(heap', out) := morph_map first last count l' (i + 1) heap0 heap in
        (heap', last :: out)
      else
        let r := length heap in
        let frame :=
          interpolateFrames (deref heap0 first) (deref heap0 last)
            (of_Z i / of_Z (count - 1))%num in
        let '(heap', out) := morph_map first last count l' (i + 1) heap0 (heap ++ [frame]) in
        (heap', r :: out)
  end.

Definition morphBetween (s : AppState) : AppState :=
  if Z.of_nat (length (frames s)) <? 3 then s
  else
    match frame_at (frames s) 0,
          frame_at (frames s) (Z.of_nat (length (frames s)) - 1) with
    | Some first, Some last =>
        let count := Z.of_nat (length (frames s)) in
        let '(heap', newFrames) :=
          morph_map first last count (frames s) 0 (heap s) (heap s) in
        {| heap := heap'; frames := newFrames; currentIndex := currentIndex s |}
    | _, _ => s
    end.

(** [useState([generateSine()])] and [useState(0)]. *)
Definition initialState (Math_sin : num -> num) : AppState :=
  {| heap := [generateSine Math_sin]; frames := [0%nat]; currentIndex := 0 |}.

(** ** The layout of the exported file *)

(** The 44 bytes of the header, as the layout table gives them. *)
Definition wav_header_spec (dataSize : Z) : list Z :=
  [82; 73; 70; 70] ++ le_bytes 4 (36 + dataSize)
  ++ [87; 65; 86; 69] ++ [102; 109; 116; 32]
  ++ [16; 0; 0; 0] ++ [3; 0] ++ [1; 0]
  ++ [68; 172; 0; 0] ++ [16; 177; 2; 0]
  ++ [4; 0] ++ [32; 0]
  ++ [100; 97; 116; 97] ++ le_bytes 4 dataSize.

(** The samples written from [offset] of the file on, each as the 4 bytes of
    its binary32 value, least significant first; a NaN as the host encodes
    it there. *)
Fixpoint wav_samples_from (NaN_bits : Z -> Z) (offset : Z) (samples : Float32Array)
  : list Z :=
  match samples with
  | [] => []
  | x :: rest =>
      le_bytes 4 (F32.bits (NaN_bits offset) x)
      ++ wav_samples_from NaN_bits (offset + 4) rest
  end.

(** The samples of the frames, in frame order, after the 44 bytes of the
    header. *)
Definition wav_samples_spec (NaN_bits : Z -> Z) (frames : list Float32Array) : list Z :=
  wav_samples_from NaN_bits 44 (concat frames).

(** What the encoder reads from a frame: [frame[i]] for each of the
    [FRAME_SIZE] indices, as the binary32 values [setFloat32] stores,
    whatever the length of the frame is. *)
Definition frame_reads (frame : Float32Array) : Float32Array :=
  (fun i => F32.of_num (f32_get frame i)) <$> seqZ 0 FRAME_SIZE.

(** *** Reading the samples back *)

(** The value of a little-endian sequence of bytes. *)
Fixpoint of_le_bytes (bs : list Z) : Z :=
  match bs with
  | [] => 0
  | b :: bs' => b + 256 * of_le_bytes bs'
  end.

(** The binary32 value that 32 bits encode: bit 31 is the sign, bits 30 to
    23 the biased exponent and bits 22 to 0 the fraction. *)
Definition f32_of_bits (b : Z) : F32.f32 :=
  let s := 2 ^ 31 <=? b in
  let exponent := (b / 2 ^ 23) mod 256 in
  let fraction := b mod 2 ^ 23 in
  if exponent =? 0 then
    if fraction =? 0 then S754_zero s else S754_finite s (Z.to_pos fraction) (-149)
  else if exponent =? 255 then
    if fraction =? 0 then S754_infinity s else S754_nan
  else S754_finite s (Z.to_pos (fraction + 2 ^ 23)) (exponent - 150).

(** [n] samples decoded from the bytes of a file. *)
Fixpoint read_samples (n : nat) (bytes : list Z) : Float32Array :=
  match n with
  | O => []
  | S n' => f32_of_bits (of_le_bytes (take 4 bytes)) :: read_samples n' (drop 4 bytes)
  end.

Fixpoint read_frames (n : nat) (bytes : list Z) : list Float32Array :=
  match n with
  | O => []
  | S n' =>
      read_samples (Z.to_nat FRAME_SIZE) (take (Z.to_nat (4 * FRAME_SIZE)) bytes)
      :: read_frames n' (drop (Z.to_nat (4 * FRAME_SIZE)) bytes)
  end.

(** A reader of the exported file: the size of the [data] chunk is taken
    from bytes 40 to 43, and the samples that follow the 44 bytes of the
    header are cut into frames of [FRAME_SIZE] samples. *)
Definition wav_read (file : list Z) : list Float32Array :=
  let dataSize := of_le_bytes (take 4 (drop 40 file)) in
  read_frames (Z.to_nat (dataSize / (4 * FRAME_SIZE))) (drop 44 file).

(** ** The drag contract *)

Definition access_index (a : access) : Z :=
  match a with Read idx | Write idx => idx end.

(** An access of one application of the brush: inside the frame and at
    most 15 indices from the centre. *)
Definition in_window (buffer : traced) (centerIndex : Z) (a : access) : Prop :=
  0 <= access_index a < Z.of_nat (length (contents buffer)) /\
  0 <= access_index a < FRAME_SIZE /\
  Z.abs (access_index a - centerIndex) <= 15.

(** The brush applied along a list of (centre, amplitude) pairs, in order. *)
Definition brush_all (path : list (Z * num)) (newData : traced) : traced :=
  foldl (fun buffer p => applyBrush buffer p.1 p.2) newData path.

(** The brush applications the drag contract asks for between two pointer
    samples: with [steps = |currIndex - prevIndex| > 0], one application for
    each [i] in [0 .. steps], centred [i] indices from [prevIndex] towards
    [currIndex], with the amplitude interpolated linearly; with [steps = 0],
    one application at the current sample. *)
Definition drag_path_spec (prev curr : Pos) : list (Z * num) :=
  let steps := Z.abs (index curr - index prev) in
  let towards := Z.sgn (index curr - index prev) in
  if steps =? 0 then [(index curr, amp curr)]
  else
    (fun i => (index prev + i * towards,
               (amp prev + (amp curr - amp prev) * (of_Z i / of_Z steps))%num))
      <$> seqZ 0 (steps + 1).

(** What one application of the brush makes of the sample [old] that is [d]
    indices away from its centre: the right-hand side of the assignment in
    [applyBrush]. *)
Definition brush_mix (d : Z) (amp old : num) : num :=
  let falloff := (one - of_Z (Z.abs d) / of_Z 15)%num in
  (old * (one - falloff) + amp * falloff)%num.

(** The moves of a drag through the pointer samples [es]: [handleMove] for
    each, in the order the events arrive. *)
Definition handleMoves (isActive : bool) (es : list Pos) (st : CanvasState) : CanvasState :=
  foldl (fun st e => (handleMove isActive e st).1) st es.

(** The centres and amplitudes of the brush along the pointer samples of a
    drag that starts at [prev]. *)
Fixpoint polyline (prev : Pos) (es : list Pos) : list (Z * num) :=
  match es with
  | [] => []
  | e :: es' => drag_path_spec prev e ++ polyline e es'
  end.

(** ** A host for the closed examples *)

(** The sine the closed examples below are evaluated with, a coarse one
    that is cheap to evaluate: the argument is reduced to [r] in [-π, π] and
    the parabola [r * (4/π - (4/π²) * |r|)] is taken. It is within 0.06 of
    the sine, has its sign and its zeros, and returns [+0] at [+0], as
    [Math.sin] must. *)
Definition inv_two_pi : num := Eval vm_compute in (one / (PI * two))%num.
Definition two_pi : num := Eval vm_compute in (PI * two)%num.
Definition four_over_pi : num := Eval vm_compute in (of_Z 4 / PI)%num.
Definition four_over_pi2 : num := Eval vm_compute in (of_Z 4 / (PI * PI))%num.
Definition one_half : num := Eval vm_compute in (one / two)%num.

Definition host_sin (x : num) : num :=
  match Num.floor (x * inv_two_pi + one_half)%num with
  | None => NaN
  | Some k =>
      let r := (x - of_Z k * two_pi)%num in
      (r * (four_over_pi - four_over_pi2 * Num.abs r))%num
  end.

(** Two formulas for the closed examples: [1/0], which evaluates to
    [Infinity] at every index, and one that throws at index 1 and evaluates
    to 0.5 at every other index. *)
Definition formula_infinity : jsfun := fun _ _ _ _ => Normal Infinity.

Definition formula_throws_at_1 : jsfun :=
  fun _ _ i _ => if eqb i one then Throw else Normal one_half.

(** A tiny amplitude, 2^-200, for the closed examples: every partial of
    this amplitude underflows to a zero when it is stored. *)
Definition tiny_amplitude : num := S754_finite false 4503599627370496 (-252).

(** Two frames for the closed examples: every sample 0.5, and every sample
    [Infinity]. *)
Definition frame_of_halves : Float32Array :=
  replicate (Z.to_nat FRAME_SIZE) (S754_finite false 8388608 (-24)).

Definition frame_of_infinities : Float32Array :=
  replicate (Z.to_nat FRAME_SIZE) (S754_infinity false).

(** A frame whose first sample is NaN, the others 0. *)
Definition frame_with_nan : Float32Array :=
  S754_nan :: replicate (Z.to_nat (FRAME_SIZE - 1)) (S754_zero false).

(** A table of five frames: a frame of 0.5, three frames of zeros, and a
    frame of infinities. *)
Definition five_frames : AppState :=
  {| heap := [frame_of_halves; new_Float32Array FRAME_SIZE; new_Float32Array FRAME_SIZE;
              new_Float32Array FRAME_SIZE; frame_of_infinities];
     frames := [0; 1; 2; 3; 4]%nat;
     currentIndex := 0 |}.

(** The cursor points into the array, which is not empty. *)
Definition cursor_valid (s : AppState) : Prop :=
  0 <= currentIndex s < Z.of_nat (length (frames s)).

(** Every frame of the table is an allocated object. *)
Definition frames_allocated (s : AppState) : Prop :=
  Forall (fun r : ref => (r < length (heap s))%nat) (frames s).

(** * Properties *)

(** ** Loops *)

Lemma for_range_snoc {S : Type} (n : nat) (i : Z) (body : Z -> S -> S) (s : S) :
  for_range (Datatypes.S n) i body s = body (i + Z.of_nat n) (for_range n i body s).
Proof.
  revert i s. induction n as [|n IH]; intros i s.
  - simpl. by rewrite Z.add_0_r.
  - change (for_range (Datatypes.S (Datatypes.S n)) i body s)
      with (for_range (Datatypes.S n) (i + 1) body (body i s)).
    rewrite IH. simpl. f_equal. lia.
Qed.

(** An invariant of the loop counter and the state holds at the exit. *)
Lemma for_range_inv {S : Type} (P : Z -> S -> Prop) (n : nat) (i : Z)
    (body : Z -> S -> S) (s : S) :
  P i s ->
  (forall j t, i <= j < i + Z.of_nat n -> P j t -> P (j + 1) (body j t)) ->
  P (i + Z.of_nat n) (for_range n i body s).
Proof.
  revert i s. induction n as [|n IH]; intros i s H0 Hstep.
  - simpl. by rewrite Z.add_0_r.
  - simpl for_range. replace (i + Z.of_nat (Datatypes.S n)) with (i + 1 + Z.of_nat n) by lia.
    apply IH.
    + apply Hstep; [lia | done].
    + intros j t Hj. apply Hstep. lia.
Qed.

Lemma for_range_foldl {S : Type} (n : nat) (i : Z) (body : Z -> S -> S) (s : S) :
  for_range n i body s = foldl (fun t j => body j t) s (seqZ i (Z.of_nat n)).
Proof.
  revert i s. induction n as [|n IH]; intros i s; [done|].
  rewrite seqZ_cons by lia. simpl foldl. simpl for_range. rewrite IH.
  do 2 f_equal; lia.
Qed.

Lemma bind_Normal {A B : Type} (k : A -> completion B) (a : A) : Normal a ≫= k = k a.
Proof. reflexivity. Qed.

Lemma bind_Throw {A B : Type} (k : A -> completion B) : Throw ≫= k = Throw.
Proof. reflexivity. Qed.

Lemma for_range_try_normal {S : Type} (n : nat) (i : Z) (body : Z -> S -> completion S)
    (pure : Z -> S -> S) (s : S) :
  (forall j t, i <= j < i + Z.of_nat n -> body j t = Normal (pure j t)) ->
  for_range_try n i body s = Normal (for_range n i pure s).
Proof.
  revert i s. induction n as [|n IH]; intros i s Hbody; [done|].
  cbn [for_range_try for_range]. rewrite Hbody by lia. rewrite bind_Normal.
  apply IH. intros j t Hj. apply Hbody. lia.
Qed.

Lemma for_range_try_throw {S : Type} (n : nat) (i k : Z) (body : Z -> S -> completion S)
    (s : S) :
  i <= k < i + Z.of_nat n -> (forall t, body k t = Throw) ->
  for_range_try n i body s = Throw.
Proof.
  revert i s. induction n as [|n IH]; intros i s Hk Hthrow; [lia|].
  cbn [for_range_try]. destruct (Z.eq_dec i k) as [->|Hne].
  - rewrite Hthrow. reflexivity.
  - destruct (body i s) as [s'|]; [|reflexivity]. rewrite bind_Normal.
    apply IH; [lia | assumption].
Qed.

(** ** Facts about the floating-point specification *)

Lemma digits2_pos_size (m : positive) : digits2_pos m = Pos.size m.
Proof. induction m as [m IH|m IH|]; simpl; congruence. Qed.

Lemma digits2_pos_bounds (m : positive) :
  2 ^ (Zpos (digits2_pos m) - 1) <= Zpos m < 2 ^ Zpos (digits2_pos m).
Proof.
  rewrite digits2_pos_size. split.
  - pose proof (Pos.size_le m) as Hle.
    assert (H2 : 2 ^ Zpos (Pos.size m) <= 2 * Zpos m).
    { change (2 * Zpos m) with (Zpos m~0). rewrite <- Pos2Z.inj_pow. by apply Pos2Z.pos_le_pos. }
    replace (Zpos (Pos.size m)) with (Z.succ (Zpos (Pos.size m) - 1)) in H2 by lia.
    rewrite Z.pow_succ_r in H2 by lia. lia.
  - pose proof (Pos.size_gt m) as Hgt.
    rewrite <- Pos2Z.inj_pow. by apply Pos2Z.pos_lt_pos.
Qed.

Lemma digits2_pos_unique (m : positive) (d : Z) :
  2 ^ (d - 1) <= Zpos m < 2 ^ d -> Zpos (digits2_pos m) = d.
Proof.
  intros [Hlo Hhi]. pose proof (digits2_pos_bounds m) as [Hlo' Hhi'].
  assert (0 < d).
  { destruct (Z.ltb_spec 0 d); [done|].
    assert (2 ^ d <= 2 ^ 0) by (destruct (Z.eq_dec d 0) as [->|]; [done|];
                                rewrite Z.pow_neg_r by lia; simpl; lia).
    simpl in *. lia. }
  destruct (Z.lt_trichotomy (Zpos (digits2_pos m)) d) as [Hlt|[Heq|Hgt]]; [|done|].
  - assert (2 ^ Zpos (digits2_pos m) <= 2 ^ (d - 1)) by (apply Z.pow_le_mono_r; lia). lia.
  - assert (2 ^ d <= 2 ^ (Zpos (digits2_pos m) - 1)) by (apply Z.pow_le_mono_r; lia). lia.
Qed.

Lemma Zpos_iter_xO (k : nat) (m : positive) :
  Zpos (Nat.iter k xO m) = Zpos m * 2 ^ Z.of_nat k.
Proof.
  induction k as [|k IH].
  - simpl. lia.
  - rewrite Nat2Z.inj_succ, Z.pow_succ_r by lia.
    cbn [Nat.iter nat_rect]. rewrite Pos2Z.inj_xO. fold (Nat.iter k xO m). rewrite IH. lia.
Qed.

Lemma digits2_pos_iter_xO (k : nat) (m : positive) :
  Zpos (digits2_pos (Nat.iter k xO m)) = Zpos (digits2_pos m) + Z.of_nat k.
Proof.
  induction k as [|k IH].
  - simpl. lia.
  - cbn [Nat.iter nat_rect]. fold (Nat.iter k xO m). cbn [digits2_pos].
    rewrite Pos2Z.inj_succ, IH. lia.
Qed.

Lemma iter_pos_nat {A : Type} (f : A -> A) (p : positive) (x : A) :
  SpecFloat.iter_pos f p x = Nat.iter (Pos.to_nat p) f x.
Proof.
  revert x. induction p as [p IH|p IH|]; intros x; cbn [SpecFloat.iter_pos].
  - rewrite !IH, Pos2Nat.inj_xI, !Nat.iter_swap, <- Nat.iter_add.
    change (Nat.iter (S (2 * Pos.to_nat p)) f x) with (f (Nat.iter (2 * Pos.to_nat p) f x)).
    do 2 f_equal. lia.
  - rewrite !IH, Pos2Nat.inj_xO, <- Nat.iter_add. f_equal. lia.
  - reflexivity.
Qed.

Lemma iter_S_inner {A : Type} (f : A -> A) (k : nat) (x : A) :
  Nat.iter (S k) f x = Nat.iter k f (f x).
Proof. rewrite Nat.iter_swap. reflexivity. Qed.

(** Shifting out the zeros that were shifted in is exact. *)
Lemma iter_shr_1_exact (k : nat) (m : positive) :
  Nat.iter k shr_1 {| shr_m := Zpos (Nat.iter k xO m); shr_r := false; shr_s := false |}
  = {| shr_m := Zpos m; shr_r := false; shr_s := false |}.
Proof.
  induction k as [|k IH]; [reflexivity|].
  rewrite iter_S_inner.
  change (Nat.iter (S k) xO m) with ((Nat.iter k xO m)~0)%positive.
  cbn [shr_1 orb]. apply IH.
Qed.

Section Rounding.

Variables prec emax : Z.

(** Rounding a number that a floating-point value of the format represents
    gives that value. *)
Lemma binary_round_aux_exact (s : bool) (m : positive) (e : Z) (k : nat) :
  bounded prec emax m e = true ->
  binary_round_aux prec emax s (Zpos (Nat.iter k xO m)) (e - Z.of_nat k) loc_Exact
  = S754_finite s m e.
Proof.
  intros Hb. unfold bounded in Hb. apply andb_prop in Hb as [Hcan Hle].
  unfold canonical_mantissa in Hcan. apply Z.eqb_eq in Hcan.
  unfold binary_round_aux, shr_fexp. cbn [Zdigits2].
  rewrite digits2_pos_iter_xO.
  replace (Zpos (digits2_pos m) + Z.of_nat k + (e - Z.of_nat k))
    with (Zpos (digits2_pos m) + e) by lia.
  rewrite Hcan. replace (e - (e - Z.of_nat k)) with (Z.of_nat k) by lia.
  cbn [shr_record_of_loc].
  assert (Hshr : shr {| shr_m := Zpos (Nat.iter k xO m); shr_r := false; shr_s := false |}
                     (e - Z.of_nat k) (Z.of_nat k)
                 = ({| shr_m := Zpos m; shr_r := false; shr_s := false |}, e)).
  { destruct k as [|k].
    - simpl. f_equal. lia.
    - change (Z.of_nat (S k)) with (Zpos (Pos.of_succ_nat k)). unfold shr.
      rewrite iter_pos_nat, SuccNat2Pos.id_succ, iter_shr_1_exact. f_equal. lia. }
  rewrite Hshr. cbn [shr_m loc_of_shr_record round_nearest_even Zdigits2].
  rewrite Hcan, Z.sub_diag. cbn [shr shr_record_of_loc shr_m]. by rewrite Hle.
Qed.

End Rounding.

(** What validity says about the mantissa and the exponent of a binary32
    value. *)
Lemma f32_valid_bounds (s : bool) (m : positive) (e : Z) :
  F32.valid (S754_finite s m e) = true ->
  Z.max (Zpos (digits2_pos m) + e - 24) (-149) = e /\ e <= 104.
Proof.
  unfold F32.valid, valid_binary, bounded, canonical_mantissa, fexp, emin, F32.prec, F32.emax.
  intros H. apply andb_prop in H as [H1 H2].
  apply Z.eqb_eq in H1. apply Z.leb_le in H2. lia.
Qed.

Lemma bounded_widened (m : positive) (e : Z) :
  Z.max (Zpos (digits2_pos m) + e - 24) (-149) = e -> e <= 104 ->
  bounded Num.prec Num.emax
    (Nat.iter (Z.to_nat (53 - Zpos (digits2_pos m))) xO m)
    (e - Z.of_nat (Z.to_nat (53 - Zpos (digits2_pos m)))) = true.
Proof.
  intros Hcan Hle.
  unfold bounded, canonical_mantissa, fexp, emin, Num.prec, Num.emax.
  rewrite digits2_pos_iter_xO.
  apply andb_true_intro. split; [apply Z.eqb_eq | apply Z.leb_le]; lia.
Qed.

(** Reading a binary32 value shifts its mantissa to 53 bits. *)
Lemma to_num_finite (s : bool) (m : positive) (e : Z) :
  F32.valid (S754_finite s m e) = true ->
  F32.to_num (S754_finite s m e)
  = S754_finite s (Nat.iter (Z.to_nat (53 - Zpos (digits2_pos m))) xO m)
      (e - Z.of_nat (Z.to_nat (53 - Zpos (digits2_pos m)))).
Proof.
  intros Hvalid. destruct (f32_valid_bounds _ _ _ Hvalid) as [Hcan Hle].
  pose proof (bounded_widened m e Hcan Hle) as Hb.
  set (k := Z.to_nat (53 - Zpos (digits2_pos m))) in *.
  unfold F32.to_num, binary_round, shl_align.
  assert (Hfexp : fexp Num.prec Num.emax (Zpos (digits2_pos m) + e)
                  = Zpos (digits2_pos m) + e - 53).
  { unfold fexp, emin, Num.prec, Num.emax. lia. }
  rewrite Hfexp.
  destruct (Zpos (digits2_pos m) + e - 53 - e) as [|p|p] eqn:Hd; [lia|lia|].
  rewrite Pos2Nat.inj_iter.
  replace (Pos.to_nat p) with k by lia.
  replace (Zpos (digits2_pos m) + e - 53) with (e - Z.of_nat k) by lia.
  pose proof (binary_round_aux_exact Num.prec Num.emax s (Nat.iter k xO m)
                (e - Z.of_nat k) 0 Hb) as Hexact.
  cbn [Nat.iter nat_rect Z.of_nat] in Hexact. rewrite Z.sub_0_r in Hexact. exact Hexact.
Qed.

(** A binary32 value read from an array and stored back is unchanged. *)
Lemma of_num_to_num (x : F32.f32) : F32.valid x = true -> F32.of_num (F32.to_num x) = x.
Proof.
  destruct x as [s|s| |s m e]; intros Hvalid; try reflexivity.
  rewrite to_num_finite by done.
  destruct (f32_valid_bounds _ _ _ Hvalid) as [Hcan Hle].
  set (k := Z.to_nat (53 - Zpos (digits2_pos m))).
  unfold F32.of_num, binary_round, shl_align. rewrite digits2_pos_iter_xO.
  assert (Hfexp : fexp F32.prec F32.emax (Zpos (digits2_pos m) + Z.of_nat k + (e - Z.of_nat k))
                  = e).
  { unfold fexp, emin, F32.prec, F32.emax. lia. }
  rewrite Hfexp.
  destruct (e - (e - Z.of_nat k)) as [|p|p] eqn:Hd; [| |lia];
    apply binary_round_aux_exact; exact Hvalid.
Qed.

(** Multiplying by 1 changes nothing. *)
Lemma mul_one_r (x : num) : valid_binary Num.prec Num.emax x = true -> (x * one)%num = x.
Proof.
  destruct x as [s|s| |s m e]; intros Hvalid;
    [by destruct s | by destruct s | reflexivity |].
  change one with (S754_finite false 4503599627370496 (-52)).
  unfold Num.mul, SFmul.
  replace (m * 4503599627370496)%positive with (Nat.iter 52 xO m).
  - rewrite xorb_false_r. apply (binary_round_aux_exact Num.prec Num.emax s m e 52 Hvalid).
  - apply Pos2Z.inj. rewrite Zpos_iter_xO, Pos2Z.inj_mul. reflexivity.
Qed.

Lemma to_num_valid (x : F32.f32) :
  F32.valid x = true -> valid_binary Num.prec Num.emax (F32.to_num x) = true.
Proof.
  destruct x as [s|s| |s m e]; intros Hvalid; try reflexivity.
  rewrite to_num_finite by done.
  destruct (f32_valid_bounds _ _ _ Hvalid) as [Hcan Hle].
  by apply bounded_widened.
Qed.

(** ** Rounding gives a value of the format *)

Lemma shr_m_shr_1 (r : shr_record) : 0 <= shr_m r -> shr_m (shr_1 r) = shr_m r / 2.
Proof.
  destruct r as [m rb sb]. cbn [shr_m]. intros Hm.
  rewrite <- Z.div2_div.
  destruct m as [|[p|p|]|p]; cbn [shr_1 shr_m]; try reflexivity; lia.
Qed.

Lemma shr_m_iter_shr_1 (k : nat) (r : shr_record) :
  0 <= shr_m r -> shr_m (Nat.iter k shr_1 r) = shr_m r / 2 ^ Z.of_nat k.
Proof.
  intros Hm. induction k as [|k IH].
  - cbn. by rewrite Z.div_1_r.
  - change (Nat.iter (S k) shr_1 r) with (shr_1 (Nat.iter k shr_1 r)).
    rewrite shr_m_shr_1 by (rewrite IH; apply Z.div_pos; lia).
    rewrite IH, Z.div_div by lia.
    rewrite Nat2Z.inj_succ, Z.pow_succ_r by lia. f_equal. lia.
Qed.

Section Validity.

Variables prec emax : Z.
Hypothesis prec_pos : 0 < prec.

#[local] Abbreviation fexp := (SpecFloat.fexp prec emax).
#[local] Abbreviation emin := (SpecFloat.emin prec emax).

(** The first shift of the rounding: the exponent becomes the one the format
    asks for, the mantissa loses its low bits. *)
Lemma shr_fexp_shifts (m : positive) (e : Z) :
  e <= fexp (Zpos (digits2_pos m) + e) ->
  exists mrs,
    shr_fexp prec emax (Zpos m) e loc_Exact = (mrs, fexp (Zpos (digits2_pos m) + e)) /\
    shr_m mrs = Zpos m / 2 ^ (fexp (Zpos (digits2_pos m) + e) - e).
Proof.
  intros Hle. unfold shr_fexp, shr. cbn [Zdigits2 shr_record_of_loc].
  destruct (fexp (Zpos (digits2_pos m) + e) - e) as [|p|p] eqn:Hn; [| |lia].
  - eexists. split; [f_equal; lia|]. cbn. by rewrite Z.div_1_r.
  - eexists. split; [f_equal; lia|].
    rewrite iter_pos_nat, shr_m_iter_shr_1 by (cbn; lia).
    cbn [shr_m]. by rewrite positive_nat_Z.
Qed.

(** When the exponent is already at least the one asked for, nothing is
    shifted. *)
Lemma shr_fexp_keeps (m e : Z) :
  fexp (Zdigits2 m + e) <= e ->
  shr_fexp prec emax m e loc_Exact = ({| shr_m := m; shr_r := false; shr_s := false |}, e).
Proof.
  intros Hle. unfold shr_fexp, shr. cbn [shr_record_of_loc].
  destruct (fexp (Zdigits2 m + e) - e) as [|p|p] eqn:Hn; [done|lia|done].
Qed.

Lemma round_nearest_even_step (m : Z) (l : location) :
  round_nearest_even m l = m \/ round_nearest_even m l = m + 1.
Proof.
  destruct l as [|[| |]]; cbn [round_nearest_even]; auto.
  destruct (Z.even m); auto.
Qed.

(** A mantissa with the digits of the format at an exponent of the format. *)
Lemma bounded_intro (m : positive) (e : Z) :
  Zpos m < 2 ^ prec -> emin <= e -> (e = emin \/ 2 ^ (prec - 1) <= Zpos m) ->
  e <= emax - prec ->
  bounded prec emax m e = true.
Proof.
  intros Hhi Hemin Hlo Hemax. unfold bounded, canonical_mantissa.
  apply andb_true_intro. split; [apply Z.eqb_eq | by apply Z.leb_le].
  pose proof (digits2_pos_bounds m) as [Hd1 Hd2].
  assert (Hd : Zpos (digits2_pos m) <= prec).
  { destruct (Z.le_gt_cases (Zpos (digits2_pos m)) prec) as [|Hgt]; [done|].
    assert (2 ^ prec <= 2 ^ (Zpos (digits2_pos m) - 1)) by (apply Z.pow_le_mono_r; lia).
    lia. }
  unfold SpecFloat.fexp. fold emin. destruct Hlo as [->|Hlo]; [lia|].
  rewrite (digits2_pos_unique m prec) by lia. lia.
Qed.

(** The second shift and the final case analysis of the rounding, on a
    rounded mantissa of at most one digit too many. *)
Lemma round_finish_valid (s : bool) (m2 F : Z) :
  0 <= m2 <= 2 ^ prec -> emin <= F -> (F = emin \/ 2 ^ (prec - 1) <= m2) ->
  valid_binary prec emax
    (let '(mrs, e) := shr_fexp prec emax m2 F loc_Exact in
     match shr_m mrs with
     | Z0 => S754_zero s
     | Zpos m => if e <=? emax - prec then S754_finite s m e else S754_infinity s
     | Zneg _ => S754_nan
     end) = true.
Proof.
  intros Hm2 Hemin Hcan.
  assert (Hpow : 2 ^ (prec - 1) < 2 ^ prec) by (apply Z.pow_lt_mono_r; lia).
  destruct m2 as [|q|q]; [| |lia].
  - rewrite shr_fexp_keeps by (cbn [Zdigits2]; unfold SpecFloat.fexp; lia). reflexivity.
  - destruct (Z.eq_dec (Zpos q) (2 ^ prec)) as [Htop|Htop].
    + (* the rounding carried into one more digit: one more shift *)
      assert (Hd : Zpos (digits2_pos q) = prec + 1).
      { apply digits2_pos_unique. replace (prec + 1 - 1) with prec by lia.
        rewrite Z.pow_add_r by lia. lia. }
      unfold shr_fexp, shr. cbn [Zdigits2 shr_record_of_loc]. rewrite Hd.
      replace (fexp (prec + 1 + F) - F) with 1 by (unfold SpecFloat.fexp; lia).
      cbn [SpecFloat.iter_pos].
      pose proof (shr_m_shr_1 {| shr_m := Zpos q; shr_r := false; shr_s := false |}
                    ltac:(cbn; lia)) as Hhalf.
      cbn [shr_m] in Hhalf.
      assert (Hq : Zpos q / 2 = 2 ^ (prec - 1)).
      { rewrite Htop. replace prec with (Z.succ (prec - 1)) at 1 by lia.
        rewrite Z.pow_succ_r by lia. rewrite Z.mul_comm. apply Z.div_mul. lia. }
      rewrite Hq in Hhalf.
      destruct (shr_m (shr_1 {| shr_m := Zpos q; shr_r := false; shr_s := false |}))
        as [|q'|q']; [lia| |lia].
      destruct (Z.leb_spec (F + 1) (emax - prec)); [|reflexivity].
      cbn [valid_binary]. apply bounded_intro; lia.
    + rewrite shr_fexp_keeps.
      * cbn [shr_m]. destruct (Z.leb_spec F (emax - prec)); [|reflexivity].
        cbn [valid_binary]. apply bounded_intro; lia.
      * cbn [Zdigits2]. pose proof (digits2_pos_bounds q) as [Hd1 Hd2].
        assert (Hd : Zpos (digits2_pos q) <= prec).
        { destruct (Z.le_gt_cases (Zpos (digits2_pos q)) prec) as [|Hgt]; [done|].
          assert (2 ^ prec <= 2 ^ (Zpos (digits2_pos q) - 1))
            by (apply Z.pow_le_mono_r; lia).
          lia. }
        unfold SpecFloat.fexp. lia.
Qed.

Lemma binary_round_aux_valid (s : bool) (m : positive) (e : Z) :
  e <= fexp (Zpos (digits2_pos m) + e) ->
  valid_binary prec emax (binary_round_aux prec emax s (Zpos m) e loc_Exact) = true.
Proof.
  intros Hle. unfold binary_round_aux.
  destruct (shr_fexp_shifts m e Hle) as (mrs & -> & Hm1).
  set (F := fexp (Zpos (digits2_pos m) + e)) in *.
  set (D := Zpos (digits2_pos m)) in *.
  pose proof (digits2_pos_bounds m) as [HD1 HD2]. fold D in HD1, HD2.
  assert (Hemin : emin <= F) by (unfold F, SpecFloat.fexp; lia).
  assert (Hn : D - prec <= F - e) by (unfold F, SpecFloat.fexp; lia).
  assert (Hpow : 0 < 2 ^ (F - e)) by (apply Z.pow_pos_nonneg; lia).
  assert (H1lo : 0 <= shr_m mrs) by (rewrite Hm1; apply Z.div_pos; lia).
  assert (H1hi : shr_m mrs < 2 ^ prec).
  { rewrite Hm1. apply Z.div_lt_upper_bound; [done|].
    rewrite <- Z.pow_add_r by lia.
    assert (2 ^ D <= 2 ^ (F - e + prec)) by (apply Z.pow_le_mono_r; lia). lia. }
  assert (H1can : F = emin \/ 2 ^ (prec - 1) <= shr_m mrs).
  { destruct (Z.eq_dec F emin) as [|Hne]; [by left|right].
    assert (HF : F - e = D - prec) by (unfold F, SpecFloat.fexp in *; lia).
    rewrite Hm1. apply Z.div_le_lower_bound; [done|].
    rewrite <- Z.pow_add_r by lia. replace (F - e + (prec - 1)) with (D - 1) by lia. done. }
  pose proof (round_nearest_even_step (shr_m mrs) (loc_of_shr_record mrs)) as H2.
  apply round_finish_valid; lia.
Qed.

(** Whatever is rounded, the result is a value of the format. *)
Lemma binary_round_valid (s : bool) (m : positive) (e : Z) :
  valid_binary prec emax (binary_round prec emax s m e) = true.
Proof.
  unfold binary_round, shl_align.
  destruct (fexp (Zpos (digits2_pos m) + e) - e) as [|p|p] eqn:Hn.
  - apply binary_round_aux_valid. lia.
  - apply binary_round_aux_valid. lia.
  - apply binary_round_aux_valid.
    rewrite Pos2Nat.inj_iter.
    change (nat_rect (fun _ => positive) m (fun _ => xO) (Pos.to_nat p))
      with (Nat.iter (Pos.to_nat p) xO m).
    rewrite digits2_pos_iter_xO, positive_nat_Z.
    replace (Zpos (digits2_pos m) + Zpos p + fexp (Zpos (digits2_pos m) + e))
      with (Zpos (digits2_pos m) + e) by lia.
    lia.
Qed.

End Validity.

Lemma of_num_valid (x : num) : F32.valid (F32.of_num x) = true.
Proof.
  destruct x as [s|s| |s m e]; try reflexivity.
  apply binary_round_valid. reflexivity.
Qed.

(** ** Filling and updating a buffer element by element *)

Lemma length_f32_set (buffer : Float32Array) (i : Z) (v : num) :
  length (f32_set buffer i v) = length buffer.
Proof. unfold f32_set. destruct (i <? 0); [done|]. apply length_insert. Qed.

Lemma lookup_f32_set_ne (buffer : Float32Array) (i : Z) (v : num) (j : nat) :
  Z.of_nat j <> i -> f32_set buffer i v !! j = buffer !! j.
Proof.
  intros Hne. unfold f32_set. destruct (i <? 0) eqn:Hi; [done|].
  apply list_lookup_insert_ne. apply Z.ltb_ge in Hi. lia.
Qed.

Lemma lookup_f32_set_eq (buffer : Float32Array) (i : Z) (v : num) :
  0 <= i < Z.of_nat (length buffer) ->
  f32_set buffer i v !! Z.to_nat i = Some (F32.of_num v).
Proof.
  intros Hi. unfold f32_set. destruct (Z.ltb_spec i 0); [lia|].
  apply list_lookup_insert_eq. lia.
Qed.

Lemma f32_get_lookup (buffer : Float32Array) (k : nat) (x : F32.f32) :
  buffer !! k = Some x -> f32_get buffer (Z.of_nat k) = F32.to_num x.
Proof.
  intros Hk. unfold f32_get. destruct (Z.ltb_spec (Z.of_nat k) 0); [lia|].
  rewrite Nat2Z.id, Hk. reflexivity.
Qed.

(** A loop that rewrites element [j] from its own old value: element [k] of
    the result, for [k] inside and outside the range of the loop. *)
Lemma for_range_elementwise (F : Z -> num -> num) (n : nat) (i : Z)
    (buffer : Float32Array) (k : nat) :
  0 <= i ->
  for_range n i (fun j b => f32_set b j (F j (f32_get b j))) buffer !! k
  = if decide (i <= Z.of_nat k < i + Z.of_nat n)
    then (fun x => F32.of_num (F (Z.of_nat k) (F32.to_num x))) <$> buffer !! k
    else buffer !! k.
Proof.
  revert i buffer. induction n as [|n IH]; intros i buffer Hi.
  - simpl. case_decide; [lia | reflexivity].
  - simpl for_range. rewrite IH by lia.
    destruct (Z.eq_dec (Z.of_nat k) i) as [Hk|Hk].
    + repeat case_decide; try lia.
      destruct (buffer !! k) as [x|] eqn:Hx.
      * subst i. rewrite (f32_get_lookup _ _ _ Hx).
        replace k with (Z.to_nat (Z.of_nat k)) at 1 by lia.
        rewrite lookup_f32_set_eq; [reflexivity|].
        apply lookup_lt_Some in Hx. lia.
      * simpl. apply lookup_ge_None. rewrite length_f32_set.
        by apply lookup_ge_None.
    + rewrite lookup_f32_set_ne by done.
      repeat case_decide; try lia; reflexivity.
Qed.

Lemma for_range_fill (g : Z -> num) (n : nat) (i : Z) (buffer : Float32Array) (k : nat) :
  0 <= i -> i <= Z.of_nat k < i + Z.of_nat n -> (k < length buffer)%nat ->
  for_range n i (fun j b => f32_set b j (g j)) buffer !! k = Some (F32.of_num (g (Z.of_nat k))).
Proof.
  intros Hi Hk Hlen.
  rewrite (for_range_elementwise (fun j _ => g j)) by done.
  case_decide; [|lia].
  destruct (lookup_lt_is_Some_2 buffer k Hlen) as [x ->]. reflexivity.
Qed.

Lemma length_for_range_set (F : Z -> Float32Array -> num) (n : nat) (i : Z)
    (buffer : Float32Array) :
  length (for_range n i (fun j b => f32_set b j (F j b)) buffer) = length buffer.
Proof.
  revert i buffer. induction n as [|n IH]; intros i buffer; [done|].
  simpl. by rewrite IH, length_f32_set.
Qed.

Lemma length_new_Float32Array (n : Z) : length (new_Float32Array n) = Z.to_nat n.
Proof. apply length_replicate. Qed.

(** ** The formula generator *)

Section Formula.

Variable Math_sin : num -> num.
Variable new_Function : string -> option jsfun.

(** When every call returns, the loop stores the clipped values. *)
Lemma generateFromFormula_normal (formula : string) (func : jsfun) (val : Z -> num) :
  new_Function formula = Some func ->
  (forall i, 0 <= i < FRAME_SIZE -> formula_call func i = Normal (val i)) ->
  generateFromFormula Math_sin new_Function formula
  = (for_range (Z.to_nat FRAME_SIZE) 0 (fun i b => f32_set b i (hard_clip (val i)))
       (new_Float32Array FRAME_SIZE), []).
Proof.
  intros Hfunc Hval. unfold generateFromFormula, formula_try.
  rewrite Hfunc, bind_Normal.
  rewrite (for_range_try_normal _ _ _ (fun i b => f32_set b i (hard_clip (val i)))).
  - reflexivity.
  - intros j t Hj. unfold formula_sample. rewrite Hval; [reflexivity|].
    unfold FRAME_SIZE in *. lia.
Qed.

(** When a call throws, the [catch] clause logs and returns the sine. *)
Lemma generateFromFormula_throw (formula : string) (func : jsfun) (i : Z) :
  new_Function formula = Some func ->
  0 <= i < FRAME_SIZE ->
  formula_call func i = Throw ->
  generateFromFormula Math_sin new_Function formula
  = (generateSine Math_sin, ["Formula error"%string]).
Proof.
  intros Hfunc Hi Hthrow. unfold generateFromFormula, formula_try.
  rewrite Hfunc, bind_Normal.
  rewrite (for_range_try_throw _ _ i); [reflexivity| |].
  - unfold FRAME_SIZE in *. lia.
  - intros t. unfold formula_sample. rewrite Hthrow. reflexivity.
Qed.

(** So does a formula the [Function] constructor rejects. *)
Lemma generateFromFormula_syntax_error (formula : string) :
  new_Function formula = None ->
  generateFromFormula Math_sin new_Function formula
  = (generateSine Math_sin, ["Formula error"%string]).
Proof.
  intros Hnone. unfold generateFromFormula, formula_try. rewrite Hnone. reflexivity.
Qed.

End Formula.

Lemma hard_clip_cases (v : num) :
  (isNaN v = true -> hard_clip v = zero) /\
  (isNaN v = false -> gtb v one = true -> hard_clip v = one) /\
  (isNaN v = false -> gtb v one = false -> ltb v (neg one) = true -> hard_clip v = neg one) /\
  (isNaN v = false -> gtb v one = false -> ltb v (neg one) = false -> hard_clip v = v).
Proof.
  unfold hard_clip. repeat split.
  - intros ->. reflexivity.
  - intros -> ->. reflexivity.
  - intros -> -> ->. reflexivity.
  - intros -> -> ->. reflexivity.
Qed.

(** C1, as the code has it. When the evaluation function is built and
    returns at every index, sample [i] is 0 if the value is NaN and the value
    clamped to [-1, 1] otherwise; an infinite value is not NaN, so it is
    clamped: [Infinity] gives 1 and [-Infinity] gives -1. *)
Theorem formula_samples_clipped (Math_sin : num -> num)
    (new_Function : string -> option jsfun) (formula : string) (func : jsfun)
    (val : Z -> num) :
  new_Function formula = Some func ->
  (forall i, 0 <= i < FRAME_SIZE -> formula_call func i = Normal (val i)) ->
  forall i, 0 <= i < FRAME_SIZE ->
    let sample := (generateFromFormula Math_sin new_Function formula).1 !! Z.to_nat i in
    sample = Some (F32.of_num (hard_clip (val i))) /\
    (isNaN (val i) = true -> sample = Some (S754_zero false)) /\
    (val i = Infinity -> sample = Some (F32.of_num one)) /\
    (val i = neg Infinity -> sample = Some (F32.of_num (neg one))) /\
    (isNaN (val i) = false -> gtb (val i) one = true -> sample = Some (F32.of_num one)) /\
    (isNaN (val i) = false -> gtb (val i) one = false -> ltb (val i) (neg one) = true ->
     sample = Some (F32.of_num (neg one))) /\
    (isNaN (val i) = false -> gtb (val i) one = false -> ltb (val i) (neg one) = false ->
     sample = Some (F32.of_num (val i))).
Proof.
  intros Hfunc Hval i Hi sample.
  assert (Hsample : sample = Some (F32.of_num (hard_clip (val i)))).
  { subst sample. rewrite (generateFromFormula_normal _ _ _ _ _ Hfunc Hval).
    cbn [fst]. rewrite for_range_fill.
    - rewrite Z2Nat.id by lia. reflexivity.
    - lia.
    - unfold FRAME_SIZE in *. lia.
    - rewrite length_new_Float32Array. unfold FRAME_SIZE in *. lia. }
  destruct (hard_clip_cases (val i)) as (Hnan & Hhi & Hlo & Hmid).
  split; [exact Hsample|]. rewrite Hsample.
  split; [|split; [|split; [|split; [|split]]]].
  - intros H. rewrite Hnan by assumption. reflexivity.
  - intros ->. reflexivity.
  - intros ->. reflexivity.
  - intros H1 H2. rewrite Hhi by assumption. reflexivity.
  - intros H1 H2 H3. rewrite Hlo by assumption. reflexivity.
  - intros H1 H2 H3. rewrite Hmid by assumption. reflexivity.
Qed.

Lemma formula_samples_clipped_witness :
  (forall i, 0 <= i < FRAME_SIZE -> formula_call formula_infinity i = Normal Infinity) /\
  (generateFromFormula host_sin (fun _ => Some formula_infinity) "1/0").1 !! Z.to_nat 7
  = Some (F32.of_num one).
Proof.
  assert (Hval : forall i, 0 <= i < FRAME_SIZE ->
                           formula_call formula_infinity i = Normal Infinity)
    by reflexivity.
  split; [exact Hval|].
  destruct (formula_samples_clipped host_sin (fun _ => Some formula_infinity) "1/0"
              formula_infinity (fun _ => Infinity) eq_refl Hval 7)
    as (_ & _ & Hinf & _).
  - unfold FRAME_SIZE. lia.
  - apply Hinf. reflexivity.
Defined.

(** C1 fails as stated: the formula [1/0] evaluates to [Infinity] at every
    index, and sample 0 is 1, not 0. *)
Lemma formula_infinity_counterexample :
  (generateFromFormula host_sin (fun _ => Some formula_infinity) "1/0").1 !! 0%nat
  = Some (S754_finite false 8388608 (-23)) /\
  S754_finite false 8388608 (-23) <> S754_zero false.
Proof.
  split; [|discriminate].
  rewrite (generateFromFormula_normal host_sin _ _ formula_infinity (fun _ => Infinity));
    [|reflexivity|reflexivity].
  cbn [fst]. rewrite for_range_fill.
  - reflexivity.
  - lia.
  - unfold FRAME_SIZE. lia.
  - rewrite length_new_Float32Array. unfold FRAME_SIZE. lia.
Qed.

(** C2, as the code has it. When the evaluation function is built but
    throws at some index, the whole buffer is abandoned: the [catch] clause
    logs the error and the Sine generator's buffer is returned, as it is
    when the function cannot be built. *)
Theorem formula_throw_falls_back_to_sine (Math_sin : num -> num)
    (new_Function : string -> option jsfun) (formula : string) (func : jsfun) (i : Z) :
  new_Function formula = Some func ->
  0 <= i < FRAME_SIZE ->
  formula_call func i = Throw ->
  generateFromFormula Math_sin new_Function formula
  = (generateSine Math_sin, ["Formula error"%string]).
Proof. apply generateFromFormula_throw. Qed.

Lemma formula_throw_falls_back_to_sine_witness :
  0 <= 1 < FRAME_SIZE /\
  formula_call formula_throws_at_1 1 = Throw /\
  generateFromFormula host_sin (fun _ => Some formula_throws_at_1) "i == 1 ? null.x : 0.5"
  = (generateSine host_sin, ["Formula error"%string]).
Proof.
  assert (H1 : 0 <= 1 < FRAME_SIZE) by (unfold FRAME_SIZE; lia).
  assert (H2 : formula_call formula_throws_at_1 1 = Throw) by (vm_compute; reflexivity).
  split; [exact H1|]. split; [exact H2|].
  exact (formula_throw_falls_back_to_sine host_sin (fun _ => Some formula_throws_at_1)
           "i == 1 ? null.x : 0.5" formula_throws_at_1 1 eq_refl H1 H2).
Defined.

(** C2 fails as stated: a formula that throws at index 1 only and evaluates
    to 0.5 elsewhere does not give a buffer of 0.5 with one 0: the error is
    logged and sample 0 is the sine's [+0]. *)
Lemma formula_throw_counterexample :
  formula_call formula_throws_at_1 0 = Normal one_half /\
  (generateFromFormula host_sin (fun _ => Some formula_throws_at_1)
     "i == 1 ? null.x : 0.5").2 = ["Formula error"%string] /\
  (generateFromFormula host_sin (fun _ => Some formula_throws_at_1)
     "i == 1 ? null.x : 0.5").1 !! 0%nat = Some (S754_zero false) /\
  F32.of_num (hard_clip one_half) <> S754_zero false.
Proof.
  split; [vm_compute; reflexivity|].
  rewrite (generateFromFormula_throw host_sin _ _ formula_throws_at_1 1 eq_refl);
    [|unfold FRAME_SIZE; lia | vm_compute; reflexivity].
  cbn [fst snd]. split; [reflexivity|]. split.
  - unfold generateSine. rewrite for_range_fill.
    + vm_compute. reflexivity.
    + lia.
    + unfold FRAME_SIZE. lia.
    + rewrite length_new_Float32Array. unfold FRAME_SIZE. lia.
  - vm_compute. discriminate.
Qed.

(** ** The frame store *)

Lemma length_filter_indexed_le {A : Type} (p : A -> Z -> bool) (i : Z) (l : list A) :
  (length (filter_indexed p i l) <= length l)%nat.
Proof.
  revert i. induction l as [|x l IH]; intros i; simpl; [lia|].
  destruct (p x i); simpl; specialize (IH (i + 1)); lia.
Qed.

(** Removing the frame under a cursor that points into the array removes
    exactly one frame. *)
Lemma length_filter_indexed_cursor (c i : Z) (l : list ref) :
  i <= c < i + Z.of_nat (length l) ->
  length (filter_indexed (fun _ j => negb (j =? c)) i l) = Nat.pred (length l).
Proof.
  revert i. induction l as [|x l IH]; intros i Hc; simpl in *; [lia|].
  destruct (Z.eqb_spec i c) as [->|Hne]; simpl.
  - clear IH Hc. assert (Hlt : c < c + 1) by lia. revert Hlt. generalize (c + 1).
    induction l as [|y l IH]; intros k Hk; simpl; [done|].
    destruct (Z.eqb_spec k c); [lia|]. simpl. f_equal. apply IH. lia.
  - rewrite IH by lia. destruct l; simpl in *; lia.
Qed.

(** With a cursor outside the array nothing is removed. *)
Lemma filter_indexed_outside (c i : Z) (l : list ref) :
  c < i \/ i + Z.of_nat (length l) <= c ->
  filter_indexed (fun _ j => negb (j =? c)) i l = l.
Proof.
  revert i. induction l as [|x l IH]; intros i Hc; simpl in *; [done|].
  destruct (Z.eqb_spec i c); [lia|]. simpl. f_equal. apply IH. lia.
Qed.

Lemma addFrame_valid (s : AppState) : cursor_valid s -> cursor_valid (addFrame s).
Proof.
  unfold cursor_valid, addFrame. intros H.
  destruct (Z.of_nat (length (frames s)) >=? MAX_FRAMES); simpl; [done|].
  rewrite length_app. simpl. lia.
Qed.

Lemma duplicateFrame_valid (s : AppState) : cursor_valid s -> cursor_valid (duplicateFrame s).
Proof.
  unfold cursor_valid, duplicateFrame. simpl. rewrite length_app. simpl. lia.
Qed.

Lemma deleteFrame_valid (s : AppState) : cursor_valid s -> cursor_valid (deleteFrame s).
Proof.
  unfold cursor_valid, deleteFrame. intros H.
  destruct (Z.leb_spec (Z.of_nat (length (frames s))) 1); simpl; [done|].
  rewrite length_filter_indexed_cursor by lia. lia.
Qed.

Lemma length_morph_map (first last : ref) (count : Z) (l : list ref) (i : Z)
    (heap0 heap : list Float32Array) :
  length (morph_map first last count l i heap0 heap).2 = length l.
Proof.
  revert i heap. induction l as [|x l IH]; intros i heap; simpl; [done|].
  destruct (i =? 0).
  { specialize (IH (i + 1) heap).
    destruct (morph_map first last count l (i + 1) heap0 heap). simpl in *. lia. }
  destruct (i =? count - 1).
  { specialize (IH (i + 1) heap).
    destruct (morph_map first last count l (i + 1) heap0 heap). simpl in *. lia. }
  match goal with |- context [morph_map _ _ _ _ _ _ ?h] => specialize (IH (i + 1) h);
    destruct (morph_map first last count l (i + 1) heap0 h) end.
  simpl in *. lia.
Qed.

Lemma morphBetween_valid (s : AppState) : cursor_valid s -> cursor_valid (morphBetween s).
Proof.
  unfold cursor_valid, morphBetween. intros H.
  destruct (Z.of_nat (length (frames s)) <? 3); [done|].
  destruct (frame_at (frames s) 0) as [first|]; [|done].
  destruct (frame_at (frames s) (Z.of_nat (length (frames s)) - 1)) as [last|]; [|done].
  pose proof (length_morph_map first last (Z.of_nat (length (frames s))) (frames s) 0
                (heap s) (heap s)) as Hlen.
  destruct (morph_map first last (Z.of_nat (length (frames s))) (frames s) 0 (heap s) (heap s)).
  simpl in *. lia.
Qed.

(** C4. The timer of the scan wraps the cursor at the length the table had
    when Scan was pressed, not at the length it has when the timer fires.
    From the table the application starts with: Add Frame gives 2 frames
    with the cursor on frame 1, Scan starts the timer with the length 2,
    Delete leaves 1 frame with the cursor on frame 0, and the next tick of
    the timer puts the cursor on 1, where the table has no frame. Delete is
    then rejected and leaves the cursor there, outside the table. *)
Theorem scan_tick_leaves_table (Math_sin : num -> num) :
  let added := addFrame (initialState Math_sin) in
  let frames_length := Z.of_nat (length (frames added)) in
  let deleted := deleteFrame added in
  let ticked := scan_tick frames_length deleted in
  frames_length = 2 /\
  currentIndex added = 1 /\
  length (frames deleted) = 1%nat /\
  currentIndex deleted = 0 /\
  length (frames ticked) = 1%nat /\
  currentIndex ticked = 1 /\
  frame_at (frames ticked) (currentIndex ticked) = None /\
  deleteFrame ticked = ticked /\
  ~ cursor_valid (deleteFrame ticked).
Proof.
  assert (Hadded : addFrame (initialState Math_sin)
                   = {| heap := heap (addFrame (initialState Math_sin));
                        frames := [0; 1]%nat; currentIndex := 1 |}) by reflexivity.
  cbv zeta. rewrite Hadded. cbn [frames length Z.of_nat Pos.of_succ_nat Pos.succ].
  assert (Hdeleted : forall h, deleteFrame {| heap := h; frames := [0; 1]%nat; currentIndex := 1 |}
                     = {| heap := h; frames := [0%nat]; currentIndex := 0 |}) by reflexivity.
  rewrite Hdeleted.
  assert (Hticked : forall h, scan_tick 2 {| heap := h; frames := [0%nat]; currentIndex := 0 |}
                    = {| heap := h; frames := [0%nat]; currentIndex := 1 |}) by reflexivity.
  rewrite Hticked.
  assert (Hrejected : forall h, deleteFrame {| heap := h; frames := [0%nat]; currentIndex := 1 |}
                      = {| heap := h; frames := [0%nat]; currentIndex := 1 |}) by reflexivity.
  rewrite Hrejected. unfold cursor_valid. cbn [frames currentIndex length].
  repeat split; lia.
Qed.

Lemma duplicateFrame_length (s : AppState) :
  length (frames (duplicateFrame s)) = S (length (frames s)).
Proof. unfold duplicateFrame. simpl. rewrite length_app. simpl. lia. Qed.

Lemma frame_at_app_l (l : list ref) (r : ref) (i : Z) :
  i < Z.of_nat (length l) -> frame_at (l ++ [r]) i = frame_at l i.
Proof.
  intros Hi. unfold frame_at. destruct (i <? 0) eqn:Hneg; [done|].
  apply lookup_app_l. apply Z.ltb_ge in Hneg. lia.
Qed.

Lemma frame_at_app_last (l : list ref) (r : ref) :
  frame_at (l ++ [r]) (Z.of_nat (length l)) = Some r.
Proof.
  unfold frame_at. destruct (Z.ltb_spec (Z.of_nat (length l)) 0); [lia|].
  rewrite Nat2Z.id. by rewrite lookup_app_r, Nat.sub_diag.
Qed.

(** C3, as the code has it. While the table holds fewer than [MAX_FRAMES]
    frames, the Duplicate button appends a new object with the contents of
    the current frame, keeps every frame that was there, and leaves the
    cursor where it was. *)
Theorem duplicate_appends_copy_keeps_cursor (s : AppState) (buf : Float32Array) :
  Z.of_nat (length (frames s)) < MAX_FRAMES ->
  frame_contents s (currentIndex s) = Some buf ->
  frames (duplicateFrame s) = frames s ++ [length (heap s)] /\
  heap s !! length (heap s) = None /\
  frame_contents (duplicateFrame s) (Z.of_nat (length (frames s))) = Some buf /\
  (forall i b, frame_contents s i = Some b -> frame_contents (duplicateFrame s) i = Some b) /\
  currentIndex (duplicateFrame s) = currentIndex s.
Proof.
  intros _ Hcur. unfold frame_contents in Hcur.
  destruct (frame_at (frames s) (currentIndex s)) as [r|] eqn:Hr; [|done].
  simpl in Hcur.
  split; [done|]. split; [by apply lookup_ge_None_2|].
  split; [|split; [|done]].
  - unfold frame_contents, duplicateFrame. simpl.
    rewrite frame_at_app_last. simpl.
    rewrite lookup_app_r, Nat.sub_diag by done. simpl.
    rewrite Hr. simpl. unfold deref. by rewrite Hcur.
  - intros i b. unfold frame_contents, duplicateFrame. simpl.
    destruct (frame_at (frames s) i) as [q|] eqn:Hq; [|done]. simpl. intros Hb.
    assert (Hi : i < Z.of_nat (length (frames s))).
    { unfold frame_at in Hq. destruct (Z.ltb_spec i 0); [done|].
      apply lookup_lt_Some in Hq. lia. }
    rewrite frame_at_app_l, Hq by done. simpl.
    rewrite lookup_app_l; [done|]. by eapply lookup_lt_Some.
Qed.

Lemma duplicate_appends_copy_keeps_cursor_witness :
  Z.of_nat (length (frames (initialState host_sin))) < MAX_FRAMES /\
  frame_contents (initialState host_sin) 0 = Some (generateSine host_sin) /\
  frame_contents (duplicateFrame (initialState host_sin)) 1 = Some (generateSine host_sin) /\
  currentIndex (duplicateFrame (initialState host_sin)) = 0.
Proof.
  assert (H1 : Z.of_nat (length (frames (initialState host_sin))) < MAX_FRAMES)
    by (simpl; unfold MAX_FRAMES; lia).
  assert (H2 : frame_contents (initialState host_sin) (currentIndex (initialState host_sin))
               = Some (generateSine host_sin)) by reflexivity.
  split; [exact H1|]. split; [exact H2|].
  pose proof (duplicate_appends_copy_keeps_cursor (initialState host_sin)
                (generateSine host_sin) H1 H2) as (_ & _ & Hnew & _ & Hcur).
  split; [exact Hnew | exact Hcur].
Defined.

(** C3 fails as stated: on the initial one-frame table the Duplicate button
    leaves the cursor on frame 0, while the new last index is 1, where Add
    Frame puts it. *)
Lemma duplicate_cursor_counterexample :
  length (frames (duplicateFrame (initialState host_sin))) = 2%nat /\
  currentIndex (duplicateFrame (initialState host_sin)) = 0 /\
  currentIndex (addFrame (initialState host_sin)) = 1.
Proof. repeat split. Qed.

(** ** The WAV encoder *)

Lemma length_write_bytes (view : ArrayBuffer) (offset : nat) (bs : list Z) :
  length (write_bytes view offset bs) = length view.
Proof.
  revert view offset. induction bs as [|b bs IH]; intros view offset; [done|].
  simpl. by rewrite IH, length_insert.
Qed.

Lemma write_bytes_app_l (pre post : ArrayBuffer) (offset : nat) (bs : list Z) :
  (offset + length bs <= length pre)%nat ->
  write_bytes (pre ++ post) offset bs = write_bytes pre offset bs ++ post.
Proof.
  revert pre offset. induction bs as [|b bs IH]; intros pre offset Hlen; [done|].
  simpl in *. rewrite insert_app_l by lia. apply IH. rewrite length_insert. lia.
Qed.

(** A write at the end of what is already written replaces the bytes that
    follow. *)
Lemma write_bytes_at_end (pre post : ArrayBuffer) (bs : list Z) :
  (length bs <= length post)%nat ->
  write_bytes (pre ++ post) (length pre) bs = pre ++ bs ++ drop (length bs) post.
Proof.
  revert pre post. induction bs as [|b bs IH]; intros pre post Hlen.
  - simpl. by rewrite drop_0.
  - destruct post as [|c post]; [simpl in Hlen; lia|].
    cbn [write_bytes]. rewrite insert_app_r_alt by lia. rewrite Nat.sub_diag.
    cbn [insert list_insert]. replace (S (length pre)) with (length (pre ++ [b])).
    + rewrite (cons_middle b pre post), app_assoc, IH by (simpl in Hlen; lia).
      rewrite <- app_assoc. reflexivity.
    + rewrite length_app. simpl. lia.
Qed.

Lemma view_set_prefix (pre post : ArrayBuffer) (offset : Z) (bs : list Z) :
  0 <= offset -> offset + Z.of_nat (length bs) <= Z.of_nat (length pre) ->
  view_set (pre ++ post) offset bs = Normal (write_bytes pre (Z.to_nat offset) bs ++ post).
Proof.
  intros H0 Hlen. unfold view_set. rewrite length_app.
  destruct (Z.leb_spec 0 offset); [|lia].
  destruct (Z.leb_spec (offset + Z.of_nat (length bs))
              (Z.of_nat (length pre + length post))); [|lia].
  cbn [andb]. f_equal. apply write_bytes_app_l. lia.
Qed.

Lemma view_set_at_end (pre post : ArrayBuffer) (bs : list Z) :
  (length bs <= length post)%nat ->
  view_set (pre ++ post) (Z.of_nat (length pre)) bs
  = Normal (pre ++ bs ++ drop (length bs) post).
Proof.
  intros Hlen. unfold view_set. rewrite length_app.
  destruct (Z.leb_spec 0 (Z.of_nat (length pre))); [|lia].
  destruct (Z.leb_spec (Z.of_nat (length pre) + Z.of_nat (length bs))
              (Z.of_nat (length pre + length post))); [|lia].
  cbn [andb]. rewrite Nat2Z.id. f_equal. by apply write_bytes_at_end.
Qed.

Lemma length_le_bytes (n : nat) (v : Z) : length (le_bytes n v) = n.
Proof. revert v. induction n as [|n IH]; intros v; simpl; [done|]. by rewrite IH. Qed.

(** *** The bits of a binary32 value *)

Lemma of_le_bytes_le_bytes (n : nat) (v : Z) :
  of_le_bytes (le_bytes n v) = v mod 256 ^ Z.of_nat n.
Proof.
  revert v. induction n as [|n IH]; intros v.
  - cbn [le_bytes of_le_bytes]. change (256 ^ Z.of_nat 0) with 1. by rewrite Z.mod_1_r.
  - cbn [le_bytes of_le_bytes]. rewrite IH, Nat2Z.inj_succ, Z.pow_succ_r by lia.
    rewrite Z.rem_mul_r by lia. reflexivity.
Qed.

(** A sign bit, 8 bits of exponent and 23 bits of fraction are read back
    from the 32 bits they make. *)
Lemma bits_fields (sign : bool) (E M : Z) :
  0 <= E < 256 -> 0 <= M < 2 ^ 23 ->
  let b := F32.sign_bit sign + E * 2 ^ 23 + M in
  0 <= b < 2 ^ 32 /\ (2 ^ 31 <=? b) = sign /\ (b / 2 ^ 23) mod 256 = E /\ b mod 2 ^ 23 = M.
Proof.
  intros HE HM b.
  assert (Hs : F32.sign_bit sign = (if sign then 1 else 0) * 2 ^ 31)
    by (destruct sign; reflexivity).
  change (2 ^ 31) with (256 * 2 ^ 23) in Hs.
  assert (Hdiv : b / 2 ^ 23 = (if sign then 1 else 0) * 256 + E).
  { symmetry. apply (Z.div_unique _ _ _ M); [lia|]. unfold b. rewrite Hs. lia. }
  assert (Hmod : b mod 2 ^ 23 = M).
  { symmetry. apply (Z.mod_unique _ _ ((if sign then 1 else 0) * 256 + E)); [lia|].
    unfold b. rewrite Hs. lia. }
  split; [|split; [|split]].
  - unfold b. rewrite Hs. destruct sign; lia.
  - unfold b. rewrite Hs. change (2 ^ 31) with (256 * 2 ^ 23).
    destruct sign; [apply Z.leb_le | apply Z.leb_gt]; lia.
  - rewrite Hdiv. symmetry. apply (Z.mod_unique _ _ (if sign then 1 else 0)); lia.
  - exact Hmod.
Qed.

(** The fields of the bits of a finite binary32 value. *)
Lemma bits_finite (nan : Z) (s : bool) (m : positive) (e : Z) :
  F32.valid (S754_finite s m e) = true ->
  exists E M,
    F32.bits nan (S754_finite s m e) = F32.sign_bit s + E * 2 ^ 23 + M /\
    0 <= E < 255 /\ 0 <= M < 2 ^ 23 /\
    (if E =? 0 then S754_finite s (Z.to_pos M) (-149)
     else S754_finite s (Z.to_pos (M + 2 ^ 23)) (E - 150)) = S754_finite s m e /\
    (E = 0 -> M <> 0).
Proof.
  intros Hvalid. destruct (f32_valid_bounds s m e Hvalid) as [Hcanon He].
  pose proof (digits2_pos_bounds m) as Hm. cbn [F32.bits].
  destruct (Z.eqb_spec (Zpos (digits2_pos m)) F32.prec) as [Hd|Hd]; unfold F32.prec in Hd.
  - rewrite Hd in Hm. change (2 ^ (24 - 1)) with (2 ^ 23) in Hm.
    change (2 ^ 24) with (2 * 2 ^ 23) in Hm.
    exists (e + 150), (Zpos m - 2 ^ 23). split; [reflexivity|].
    split; [lia|]. split; [lia|]. split; [|lia].
    destruct (Z.eqb_spec (e + 150) 0); [lia|].
    f_equal; [|lia]. replace (Zpos m - 2 ^ 23 + 2 ^ 23) with (Zpos m) by lia. reflexivity.
  - assert (Hd' : Zpos (digits2_pos m) <= 23) by lia.
    assert (Hm' : Zpos m < 2 ^ 23).
    { eapply Z.lt_le_trans; [exact (proj2 Hm)|]. apply Z.pow_le_mono_r; lia. }
    exists 0, (Zpos m). split; [lia|]. split; [lia|]. split; [lia|]. split; [|lia].
    cbn [Z.eqb]. f_equal. lia.
Qed.

Lemma f32_bits_range (nan : Z) (x : F32.f32) :
  F32.is_nan_bits nan -> F32.valid x = true -> 0 <= F32.bits nan x < 2 ^ 32.
Proof.
  intros Hnan Hvalid. destruct x as [s|s| |s m e].
  - destruct s; vm_compute; split; congruence.
  - destruct s; vm_compute; split; congruence.
  - exact (proj1 Hnan).
  - destruct (bits_finite nan s m e Hvalid) as (E & M & -> & HE & HM & _).
    exact (proj1 (bits_fields s E M ltac:(lia) HM)).
Qed.

(** The 32 bits of a binary32 value decode to the value, whatever encoding
    the host has for a NaN. *)
Lemma f32_of_bits_bits (nan : Z) (x : F32.f32) :
  F32.is_nan_bits nan -> F32.valid x = true -> f32_of_bits (F32.bits nan x) = x.
Proof.
  intros Hnan Hvalid. destruct x as [s|s| |s m e].
  - destruct s; reflexivity.
  - destruct s; reflexivity.
  - destruct Hnan as (_ & HE & HM). cbn [F32.bits]. unfold f32_of_bits.
    rewrite HE. cbn [Z.eqb]. by destruct (Z.eqb_spec (nan mod 2 ^ 23) 0).
  - destruct (bits_finite nan s m e Hvalid) as (E & M & -> & HE & HM & Hback & Hsub).
    destruct (bits_fields s E M ltac:(lia) HM) as (_ & Hs & HfE & HfM).
    unfold f32_of_bits. rewrite Hs, HfE, HfM.
    destruct (Z.eqb_spec E 0) as [HE0|HE0].
    + destruct (Z.eqb_spec M 0) as [HM0|HM0]; [by apply Hsub in HE0 | exact Hback].
    + destruct (Z.eqb_spec E 255); [lia | exact Hback].
Qed.

(** *** The samples *)

Section WavEncoder.

Variable NaN_bits : Z -> Z.

Lemma length_wav_samples_from (offset : Z) (samples : Float32Array) :
  length (wav_samples_from NaN_bits offset samples) = (4 * length samples)%nat.
Proof.
  revert offset. induction samples as [|x samples IH]; intros offset; [done|].
  cbn [wav_samples_from]. rewrite length_app, length_le_bytes, IH. simpl. lia.
Qed.

Lemma wav_samples_from_app (offset : Z) (l1 l2 : Float32Array) :
  wav_samples_from NaN_bits offset (l1 ++ l2)
  = wav_samples_from NaN_bits offset l1
    ++ wav_samples_from NaN_bits (offset + 4 * Z.of_nat (length l1)) l2.
Proof.
  revert offset. induction l1 as [|x l1 IH]; intros offset.
  - cbn [app wav_samples_from length]. by rewrite Z.add_0_r.
  - cbn [app wav_samples_from]. rewrite IH, <- app_assoc. do 3 f_equal.
    cbn [length]. lia.
Qed.

(** What the encoder reads from a frame: [frame[i]] for each of the
    [FRAME_SIZE] indices, whatever the length of the frame is. *)
Lemma export_frame_reads (frame : Float32Array) (n : nat) (i : Z) (pre post : ArrayBuffer) :
  (4 * n <= length post)%nat ->
  for_range_try n i
    (fun i '(view, offset) =>
       view ← setFloat32 NaN_bits view offset (f32_get frame i);
       Normal (view, offset + 4))
    (pre ++ post, Z.of_nat (length pre))
  = Normal (pre ++ wav_samples_from NaN_bits (Z.of_nat (length pre))
                     ((fun j => F32.of_num (f32_get frame j)) <$> seqZ i (Z.of_nat n))
              ++ drop (4 * n) post,
            Z.of_nat (length pre) + 4 * Z.of_nat n).
Proof.
  revert i pre post. induction n as [|n IH]; intros i pre post Hpost.
  - cbn [for_range_try]. change (seqZ i (Z.of_nat 0)) with (@nil Z).
    cbn [fmap list_fmap wav_samples_from app]. rewrite drop_0, Z.add_0_r. reflexivity.
  - cbn [for_range_try]. unfold setFloat32.
    rewrite Nat2Z.inj_succ, seqZ_cons by lia. rewrite fmap_cons.
    cbn [wav_samples_from].
    rewrite view_set_at_end by (rewrite length_le_bytes; lia).
    rewrite !bind_Normal, length_le_bytes.
    set (bytes := le_bytes 4 (F32.bits (NaN_bits (Z.of_nat (length pre)))
                                (F32.of_num (f32_get frame i)))).
    rewrite (app_assoc pre).
    replace (Z.of_nat (length pre) + 4) with (Z.of_nat (length (pre ++ bytes)))
      by (unfold bytes; rewrite length_app, length_le_bytes; lia).
    rewrite IH by (rewrite ?length_drop; lia).
    rewrite drop_drop, <- !app_assoc, length_app.
    unfold bytes at 3 4. rewrite length_le_bytes.
    replace (4 + 4 * n)%nat with (4 * S n)%nat by lia.
    replace (Z.pred (Z.succ (Z.of_nat n))) with (Z.of_nat n) by lia.
    replace (Z.succ i) with (i + 1) by lia.
    do 2 f_equal. lia.
Qed.

Lemma length_frame_reads (frame : Float32Array) :
  length (frame_reads frame) = Z.to_nat FRAME_SIZE.
Proof. unfold frame_reads. by rewrite length_fmap, length_seqZ. Qed.

Lemma length_frames_reads (frames : list Float32Array) :
  length (frames ≫= frame_reads) = (Z.to_nat FRAME_SIZE * length frames)%nat.
Proof.
  induction frames as [|frame frames IH]; [cbn; lia|].
  rewrite bind_cons, length_app, IH, length_frame_reads. cbn [length]. lia.
Qed.

Lemma export_frames_reads (frames : list Float32Array) (pre post : ArrayBuffer) :
  (4 * Z.to_nat FRAME_SIZE * length frames <= length post)%nat ->
  forEach_try frames
    (fun frame => for_range_try (Z.to_nat FRAME_SIZE) 0
       (fun i '(view, offset) =>
          view ← setFloat32 NaN_bits view offset (f32_get frame i);
          Normal (view, offset + 4)))
    (pre ++ post, Z.of_nat (length pre))
  = Normal (pre ++ wav_samples_from NaN_bits (Z.of_nat (length pre)) (frames ≫= frame_reads)
              ++ drop (4 * Z.to_nat FRAME_SIZE * length frames) post,
            Z.of_nat (length pre + 4 * Z.to_nat FRAME_SIZE * length frames)).
Proof.
  revert pre post. induction frames as [|frame frames IH]; intros pre post Hpost.
  - cbn [forEach_try length]. change ([] ≫= frame_reads) with (@nil F32.f32).
    cbn [wav_samples_from app]. rewrite Nat.mul_0_r, drop_0, Nat.add_0_r. reflexivity.
  - cbn [forEach_try]. cbn [length] in Hpost.
    rewrite export_frame_reads by lia.
    rewrite Z2Nat.id by (unfold FRAME_SIZE; lia).
    fold (frame_reads frame). rewrite bind_Normal.
    set (bytes := wav_samples_from NaN_bits (Z.of_nat (length pre)) (frame_reads frame)).
    assert (Hbytes : length bytes = (4 * Z.to_nat FRAME_SIZE)%nat)
      by (unfold bytes; rewrite length_wav_samples_from, length_frame_reads; reflexivity).
    rewrite (app_assoc pre).
    replace (Z.of_nat (length pre) + 4 * FRAME_SIZE)
      with (Z.of_nat (length (pre ++ bytes)))
      by (rewrite length_app, Hbytes; unfold FRAME_SIZE; lia).
    rewrite IH by (rewrite length_drop; lia).
    rewrite bind_cons, wav_samples_from_app, drop_drop, <- !app_assoc.
    rewrite !length_app, Hbytes, length_frame_reads. cbn [length]. fold bytes.
    replace (Z.of_nat (length pre + 4 * Z.to_nat FRAME_SIZE))
      with (Z.of_nat (length pre) + 4 * Z.of_nat (Z.to_nat FRAME_SIZE)) by lia.
    replace (4 * Z.to_nat FRAME_SIZE * S (length frames))%nat
      with (4 * Z.to_nat FRAME_SIZE + 4 * Z.to_nat FRAME_SIZE * length frames)%nat by lia.
    rewrite Nat.add_assoc. reflexivity.
Qed.

Lemma length_wav_header_spec (dataSize : Z) : length (wav_header_spec dataSize) = 44%nat.
Proof. unfold wav_header_spec. rewrite !length_app, !length_le_bytes. reflexivity. Qed.

(** The encoder on any list of frames: no write is out of range. *)
Lemma exportWavetableToWav_reads (frames : list Float32Array) :
  exportWavetableToWav NaN_bits frames
  = Normal (wav_header_spec (Z.of_nat (length frames) * 2048 * 4)
            ++ wav_samples_from NaN_bits 44 (frames ≫= frame_reads)).
Proof.
  unfold exportWavetableToWav.
  replace (Z.of_nat (length frames) * FRAME_SIZE * 1 * 4)
    with (Z.of_nat (length frames) * 2048 * 4) by (unfold FRAME_SIZE; lia).
  set (dataSize := Z.of_nat (length frames) * 2048 * 4).
  assert (Hd : 0 <= dataSize) by (unfold dataSize; lia).
  unfold new_ArrayBuffer. rewrite Z2Nat.inj_add by lia.
  rewrite replicate_add.
  set (post := replicate (Z.to_nat dataSize) 0).
  change (Z.to_nat 44) with 44%nat.
  unfold writeString. cbn [writeString_from]. unfold setUint32, setUint16, setUint8.
  repeat first
    [ rewrite bind_Normal; cbv beta
    | rewrite view_set_prefix
        by (rewrite ?length_write_bytes, ?length_le_bytes; cbn; lia) ].
  match goal with
  | |- context [forEach_try _ _ (?pre ++ post, 44)] =>
      assert (Hpre : pre = wav_header_spec dataSize);
      [|rewrite Hpre; clear Hpre]
  end.
  { unfold wav_header_spec. generalize (36 + dataSize). generalize dataSize.
    intros v1 v2. reflexivity. }
  change 44 with (Z.of_nat 44).
  rewrite <- (length_wav_header_spec dataSize).
  assert (Hpost : (4 * Z.to_nat FRAME_SIZE * length frames)%nat = length post).
  { unfold post. rewrite length_replicate. unfold dataSize, FRAME_SIZE. lia. }
  rewrite export_frames_reads by lia. rewrite bind_Normal. cbn [fst].
  rewrite drop_ge, app_nil_r by lia. by rewrite length_wav_header_spec.
Qed.

End WavEncoder.

(** A frame of [FRAME_SIZE] binary32 values is read as it is. *)
Lemma frame_reads_full (frame : Float32Array) :
  length frame = Z.to_nat FRAME_SIZE -> f32_array_valid frame ->
  frame_reads frame = frame.
Proof.
  intros Hlen Hvalid. apply list_eq. intros k. unfold frame_reads. rewrite list_lookup_fmap.
  destruct (frame !! k) as [x|] eqn:Hx.
  - rewrite lookup_seqZ_lt by (apply lookup_lt_Some in Hx; lia). cbn [fmap option_fmap option_map].
    rewrite Z.add_0_l, (f32_get_lookup _ _ _ Hx), of_num_to_num; [reflexivity|].
    unfold f32_array_valid in Hvalid. rewrite Forall_lookup in Hvalid. eauto.
  - rewrite lookup_seqZ_ge by (apply lookup_ge_None_1 in Hx; lia). reflexivity.
Qed.

Lemma frames_reads_full (frames : list Float32Array) :
  Forall (fun frame => length frame = Z.to_nat FRAME_SIZE /\ f32_array_valid frame) frames ->
  frames ≫= frame_reads = concat frames.
Proof.
  induction 1 as [|frame frames [Hlen Hvalid] _ IH]; [done|].
  rewrite bind_cons, IH, frame_reads_full by done. reflexivity.
Qed.

Lemma length_concat_frames (frames : list Float32Array) :
  Forall (fun frame => length frame = Z.to_nat FRAME_SIZE /\ f32_array_valid frame) frames ->
  length (concat frames) = (Z.to_nat FRAME_SIZE * length frames)%nat /\
  f32_array_valid (concat frames).
Proof.
  induction 1 as [|frame frames [Hlen Hvalid] _ [IHlen IHvalid]].
  - split; [reflexivity | constructor].
  - cbn [concat length]. rewrite length_app, IHlen, Hlen. split; [lia|].
    by apply Forall_app.
Qed.

(** The samples decode to what was written. *)
Lemma read_samples_written (NaN_bits : Z -> Z) (offset : Z) (samples : Float32Array)
    (rest : list Z) :
  (forall o, F32.is_nan_bits (NaN_bits o)) ->
  f32_array_valid samples ->
  read_samples (length samples) (wav_samples_from NaN_bits offset samples ++ rest) = samples.
Proof.
  intros Hnan Hvalid. revert offset.
  induction Hvalid as [|x samples Hx _ IH]; intros offset; [done|].
  cbn [length read_samples wav_samples_from]. rewrite <- app_assoc.
  rewrite take_app_length' by (symmetry; apply length_le_bytes).
  rewrite drop_app_length' by (symmetry; apply length_le_bytes).
  rewrite IH, of_le_bytes_le_bytes. change (256 ^ Z.of_nat 4) with (2 ^ 32).
  rewrite Z.mod_small by (by apply f32_bits_range).
  by rewrite f32_of_bits_bits.
Qed.

(** C5. For frames of [FRAME_SIZE] binary32 samples the encoder returns
    [44 + numFrames * 2048 * 4] bytes: the 44 bytes of the header of the
    layout table, with the sizes as 32-bit little-endian values, followed by
    the samples of the frames in order, each as the 4 bytes of its binary32
    value, least significant first, a NaN in the encoding the host has for
    it; decoding the sample bytes as binary32 values gives the samples
    back. The sample 1 is written as 00 00 80 3f, -0.5 as 00 00 00 bf and
    -Infinity as 00 00 80 ff. One frame of zeros gives 8236 bytes whose
    sample bytes are all 0. *)
Theorem export_wav_layout (NaN_bits : Z -> Z) (frames : list Float32Array) :
  Forall (fun frame => length frame = Z.to_nat FRAME_SIZE /\ f32_array_valid frame) frames ->
  let dataSize := Z.of_nat (length frames) * 2048 * 4 in
  exportWavetableToWav NaN_bits frames
  = Normal (wav_header_spec dataSize ++ wav_samples_spec NaN_bits frames) /\
  Z.of_nat (length (wav_header_spec dataSize ++ wav_samples_spec NaN_bits frames))
  = 44 + dataSize /\
  length (wav_header_spec dataSize) = 44%nat /\
  ((forall offset, F32.is_nan_bits (NaN_bits offset)) ->
   read_samples (length (concat frames)) (wav_samples_spec NaN_bits frames)
   = concat frames) /\
  (forall nan,
     le_bytes 4 (F32.bits nan (F32.of_num one)) = [0; 0; 128; 63] /\
     le_bytes 4 (F32.bits nan (F32.of_num (neg one_half))) = [0; 0; 0; 191] /\
     le_bytes 4 (F32.bits nan (F32.of_num (neg Infinity))) = [0; 0; 128; 255]) /\
  (frames = [new_Float32Array FRAME_SIZE] ->
   exportWavetableToWav NaN_bits frames
   = Normal ([82; 73; 70; 70; 36; 32; 0; 0; 87; 65; 86; 69; 102; 109; 116; 32;
              16; 0; 0; 0; 3; 0; 1; 0; 68; 172; 0; 0; 16; 177; 2; 0; 4; 0; 32; 0;
              100; 97; 116; 97; 0; 32; 0; 0] ++ replicate (Z.to_nat 8192) 0) /\
   Z.of_nat (length ([82; 73; 70; 70; 36; 32; 0; 0; 87; 65; 86; 69; 102; 109; 116; 32;
            16; 0; 0; 0; 3; 0; 1; 0; 68; 172; 0; 0; 16; 177; 2; 0; 4; 0; 32; 0;
            100; 97; 116; 97; 0; 32; 0; 0] ++ replicate (Z.to_nat 8192) 0)) = 8236).
Proof.
  intros Hframes dataSize.
  destruct (length_concat_frames frames Hframes) as [Hcount Hvalid].
  assert (Hsamples : length (wav_samples_spec NaN_bits frames)
                     = (4 * Z.to_nat FRAME_SIZE * length frames)%nat).
  { unfold wav_samples_spec. rewrite length_wav_samples_from, Hcount. lia. }
  assert (Hexport : exportWavetableToWav NaN_bits frames
                    = Normal (wav_header_spec dataSize ++ wav_samples_spec NaN_bits frames)).
  { rewrite exportWavetableToWav_reads. unfold wav_samples_spec.
    by rewrite frames_reads_full. }
  split; [exact Hexport|].
  split; [|split; [apply length_wav_header_spec|split; [|split]]].
  - rewrite length_app, length_wav_header_spec, Hsamples. unfold dataSize, FRAME_SIZE. lia.
  - intros Hnan. unfold wav_samples_spec.
    rewrite <- (app_nil_r (wav_samples_from NaN_bits 44 (concat frames))).
    by apply read_samples_written.
  - intros nan. repeat split; vm_compute; reflexivity.
  - intros Hone. rewrite Hexport. unfold dataSize. rewrite Hone. split.
    + vm_compute. reflexivity.
    + vm_compute. reflexivity.
Qed.

Lemma export_wav_layout_witness :
  Forall (fun frame => length frame = Z.to_nat FRAME_SIZE /\ f32_array_valid frame)
    [frame_with_nan] /\
  (forall offset : Z, F32.is_nan_bits 4290772992) /\
  exportWavetableToWav (fun _ => 4290772992) [frame_with_nan]
  = Normal (wav_header_spec 8192 ++ wav_samples_spec (fun _ => 4290772992) [frame_with_nan]) /\
  take 8 (wav_samples_spec (fun _ => 4290772992) [frame_with_nan])
  = [0; 0; 192; 255; 0; 0; 0; 0] /\
  read_samples (length (concat [frame_with_nan]))
    (wav_samples_spec (fun _ => 4290772992) [frame_with_nan])
  = concat [frame_with_nan].
Proof.
  assert (Hframes : Forall (fun frame => length frame = Z.to_nat FRAME_SIZE
                                         /\ f32_array_valid frame)
                      [frame_with_nan]).
  { apply Forall_cons_2; [|apply Forall_nil_2]. unfold frame_with_nan. split.
    - cbn [length]. rewrite length_replicate. unfold FRAME_SIZE. lia.
    - apply Forall_cons_2; [reflexivity | apply Forall_replicate; reflexivity]. }
  assert (Hnan : forall offset : Z, F32.is_nan_bits 4290772992).
  { intros _. unfold F32.is_nan_bits. split; [lia|]. split; [reflexivity | discriminate]. }
  split; [exact Hframes|]. split; [exact Hnan|].
  destruct (export_wav_layout (fun _ => 4290772992) [frame_with_nan] Hframes)
    as (Hexport & _ & _ & Hread & _).
  split; [exact Hexport|]. split; [reflexivity | exact (Hread Hnan)].
Defined.

(** ** The brush *)

(** At the right edge of the canvas the index of the cursor is [FRAME_SIZE],
    one past the last sample: the brush has to cope with such a centre. *)
Lemma cursor_index_right_edge :
  cursor_index (of_Z 300) (of_Z 300) = Some FRAME_SIZE.
Proof. vm_compute. reflexivity. Qed.

Lemma applyBrush_trace (buffer : traced) (centerIndex : Z) (amp : num) :
  length (contents buffer) = Z.to_nat FRAME_SIZE ->
  exists new,
    accesses (applyBrush buffer centerIndex amp) = new ++ accesses buffer /\
    Forall (in_window buffer centerIndex) new /\
    length (contents (applyBrush buffer centerIndex amp)) = length (contents buffer) /\
    forall j : nat,
      15 < Z.abs (Z.of_nat j - centerIndex) ->
      contents (applyBrush buffer centerIndex amp) !! j = contents buffer !! j.
Proof.
  intros Hlen. unfold applyBrush.
  apply (for_range_inv
           (fun _ t => exists new,
                accesses t = new ++ accesses buffer /\
                Forall (in_window buffer centerIndex) new /\
                length (contents t) = length (contents buffer) /\
                forall j : nat, 15 < Z.abs (Z.of_nat j - centerIndex) ->
                                contents t !! j = contents buffer !! j)).
  - exists []. repeat split; done.
  - intros j t Hj (new & Hacc & Hwin & Hl & Hout). cbv zeta.
    destruct ((0 <=? centerIndex + j) && (centerIndex + j <? FRAME_SIZE)) eqn:Hguard;
      [|by exists new].
    apply andb_prop in Hguard as [H0 H1]. apply Z.leb_le in H0. apply Z.ltb_lt in H1.
    simpl. exists (Write (centerIndex + j) :: Read (centerIndex + j) :: new).
    split; [by rewrite Hacc|]. split; [|split].
    + assert (in_window buffer centerIndex (Read (centerIndex + j))) as Hr.
      { unfold in_window. simpl. rewrite Hlen. unfold FRAME_SIZE in *. lia. }
      apply Forall_cons_2; [exact Hr|]. apply Forall_cons_2; [exact Hr | exact Hwin].
    + by rewrite length_f32_set.
    + intros k Hk. rewrite lookup_f32_set_ne by lia. by apply Hout.
Qed.

(** The sample under the centre of the brush is written, when there is one. *)
Lemma applyBrush_writes_center (buffer : traced) (centerIndex : Z) (amp : num) :
  0 <= centerIndex < FRAME_SIZE ->
  Write centerIndex ∈ accesses (applyBrush buffer centerIndex amp).
Proof.
  intros Hc. unfold applyBrush.
  assert (Hgoal : 0 < -15 + Z.of_nat (Z.to_nat (2 * 15 + 1)) ->
                  Write centerIndex ∈ accesses
                    (for_range (Z.to_nat (2 * 15 + 1)) (-15)
                       (fun i buffer0 =>
                          let idx := centerIndex + i in
                          if (0 <=? idx) && (idx <? FRAME_SIZE)
                          then
                            let falloff := (one - of_Z (Z.abs i) / of_Z 15)%num in
                            let '(old, buffer1) := traced_get buffer0 idx in
                            traced_set buffer1 idx (old * (one - falloff) + amp * falloff)%num
                          else buffer0) buffer)); [|apply Hgoal; lia].
  apply (for_range_inv (fun j t => 0 < j -> Write centerIndex ∈ accesses t)); [lia|].
  intros j t Hj IH Hpos.
  destruct (Z.eq_dec j 0) as [->|Hne].
  - assert (Hguard : (0 <=? centerIndex) && (centerIndex <? FRAME_SIZE) = true).
    { apply andb_true_intro. split; [apply Z.leb_le | apply Z.ltb_lt]; lia. }
    cbv zeta. rewrite Z.add_0_r, Hguard. simpl. apply list_elem_of_here.
  - cbv zeta. destruct ((0 <=? centerIndex + j) && (centerIndex + j <? FRAME_SIZE)).
    + simpl. do 2 apply list_elem_of_further. apply IH. lia.
    + apply IH. lia.
Qed.

Lemma applyBrush_keeps_accesses (buffer : traced) (centerIndex : Z) (amp : num) (a : access) :
  a ∈ accesses buffer -> a ∈ accesses (applyBrush buffer centerIndex amp).
Proof.
  intros Ha. unfold applyBrush.
  apply (for_range_inv (fun _ t => a ∈ accesses t)); [done|].
  intros j t _ IH. cbv zeta.
  destruct ((0 <=? centerIndex + j) && (centerIndex + j <? FRAME_SIZE)); [|done].
  simpl. by do 2 apply list_elem_of_further.
Qed.

Lemma brush_all_keeps_accesses (path : list (Z * num)) (newData : traced) (a : access) :
  a ∈ accesses newData -> a ∈ accesses (brush_all path newData).
Proof.
  unfold brush_all. revert newData.
  induction path as [|p path IH]; intros newData Ha; [done|].
  simpl. apply IH. by apply applyBrush_keeps_accesses.
Qed.

Lemma brush_all_writes_centers (path : list (Z * num)) (newData : traced) (j : Z) (v : num) :
  (j, v) ∈ path -> 0 <= j < FRAME_SIZE -> Write j ∈ accesses (brush_all path newData).
Proof.
  intros Hin Hj. revert newData.
  induction path as [|p path IH]; intros newData; [by apply elem_of_nil in Hin|].
  apply elem_of_cons in Hin as [<-|Hin].
  - unfold brush_all. simpl. apply (brush_all_keeps_accesses path).
    by apply applyBrush_writes_center.
  - unfold brush_all. simpl. by apply IH.
Qed.

(** C10. Whatever the centre, an application of the brush to a frame reads
    and writes only indices inside the frame and at most 15 away from the
    centre, and leaves every sample further away as it was. *)
Theorem applyBrush_stays_in_window (buffer : traced) (centerIndex : Z) (amp : num) :
  length (contents buffer) = Z.to_nat FRAME_SIZE ->
  exists new,
    accesses (applyBrush buffer centerIndex amp) = new ++ accesses buffer /\
    Forall (fun a => 0 <= access_index a < Z.of_nat (length (contents buffer)) /\
                     0 <= access_index a < FRAME_SIZE /\
                     Z.abs (access_index a - centerIndex) <= 15) new /\
    length (contents (applyBrush buffer centerIndex amp)) = length (contents buffer) /\
    forall j : nat,
      15 < Z.abs (Z.of_nat j - centerIndex) ->
      contents (applyBrush buffer centerIndex amp) !! j = contents buffer !! j.
Proof. exact (applyBrush_trace buffer centerIndex amp). Qed.

Lemma applyBrush_stays_in_window_witness :
  length (contents (Traced (new_Float32Array FRAME_SIZE) [])) = Z.to_nat FRAME_SIZE /\
  exists new,
    accesses (applyBrush (Traced (new_Float32Array FRAME_SIZE) []) FRAME_SIZE one)
      = new ++ [] /\
    Forall (fun a => 0 <= access_index a < FRAME_SIZE /\
                     Z.abs (access_index a - FRAME_SIZE) <= 15) new.
Proof.
  assert (Hlen : length (contents (Traced (new_Float32Array FRAME_SIZE) []))
                 = Z.to_nat FRAME_SIZE) by apply length_replicate.
  split; [exact Hlen|].
  destruct (applyBrush_stays_in_window (Traced (new_Float32Array FRAME_SIZE) [])
              FRAME_SIZE one Hlen) as (new & Hacc & Hwin & _).
  exists new. split; [exact Hacc|].
  eapply Forall_impl; [exact Hwin|]. intros a (_ & H1 & H2). by split.
Defined.

Lemma drag_path_spec_lookup (prev curr : Pos) (i : Z) :
  0 < Z.abs (index curr - index prev) ->
  0 <= i <= Z.abs (index curr - index prev) ->
  drag_path_spec prev curr !! Z.to_nat i
  = Some (index prev + i * Z.sgn (index curr - index prev),
          (amp prev + (amp curr - amp prev)
                      * (of_Z i / of_Z (Z.abs (index curr - index prev))))%num).
Proof.
  intros Hsteps Hi. unfold drag_path_spec.
  destruct (Z.eqb_spec (Z.abs (index curr - index prev)) 0); [lia|].
  rewrite list_lookup_fmap, lookup_seqZ_lt by lia. simpl.
  rewrite Z.add_0_l, Z2Nat.id by lia. reflexivity.
Qed.

(** Every index from the previous sample to the current one is the centre
    of one application of the path. *)
Lemma drag_path_spec_covers (prev curr : Pos) (j : Z) :
  Z.min (index prev) (index curr) <= j <= Z.max (index prev) (index curr) ->
  exists v, (j, v) ∈ drag_path_spec prev curr.
Proof.
  intros Hj.
  destruct (Z.eq_dec (Z.abs (index curr - index prev)) 0) as [H0|Hne].
  - unfold drag_path_spec. rewrite H0. simpl. exists (amp curr).
    replace j with (index curr) by lia. apply list_elem_of_here.
  - pose proof (drag_path_spec_lookup prev curr
                  (Z.abs (j - index prev)) ltac:(lia) ltac:(lia)) as Hlook.
    eexists. eapply list_elem_of_lookup_2.
    replace j with (index prev + Z.abs (j - index prev) * Z.sgn (index curr - index prev)) at 1
      by lia.
    exact Hlook.
Qed.

(** C6. One move of a drag applies the brush along the path of the drag
    contract: [steps + 1] applications, one index apart from the previous
    sample to the current one with the amplitude interpolated linearly, or
    a single application at the current sample when [steps = 0]; so every
    index between the two samples is the centre of an application, and
    every such index inside the frame is written. *)
Theorem drag_move_follows_path (prev curr : Pos) (newData : traced) :
  let steps := Z.abs (index curr - index prev) in
  move_brush (Some prev) curr newData = brush_all (drag_path_spec prev curr) newData /\
  (0 < steps ->
   length (drag_path_spec prev curr) = Z.to_nat (steps + 1) /\
   forall i, 0 <= i <= steps ->
     drag_path_spec prev curr !! Z.to_nat i
     = Some (index prev + i * Z.sgn (index curr - index prev),
             (amp prev + (amp curr - amp prev) * (of_Z i / of_Z steps))%num)) /\
  (steps = 0 -> drag_path_spec prev curr = [(index curr, amp curr)]) /\
  (forall j, Z.min (index prev) (index curr) <= j <= Z.max (index prev) (index curr) ->
     exists v, (j, v) ∈ drag_path_spec prev curr) /\
  (forall j, Z.min (index prev) (index curr) <= j <= Z.max (index prev) (index curr) ->
     0 <= j < FRAME_SIZE ->
     Write j ∈ accesses (move_brush (Some prev) curr newData)).
Proof.
  intros steps.
  assert (Hrefine : move_brush (Some prev) curr newData
                    = brush_all (drag_path_spec prev curr) newData).
  { unfold move_brush, drag_path_spec, brush_all. fold steps.
    destruct (Z.eqb_spec steps 0) as [H0|Hne]; [cbn [foldl fst snd]; reflexivity|].
    replace (if index curr >? index prev then 1 else -1)
      with (Z.sgn (index curr - index prev))
      by (destruct (Z.gtb_spec (index curr) (index prev)); lia).
    rewrite for_range_foldl, foldl_fmap.
    rewrite Z2Nat.id by lia. reflexivity. }
  split; [exact Hrefine|]. split; [|split; [|split]].
  - intros Hsteps. split.
    + unfold drag_path_spec. fold steps.
      destruct (Z.eqb_spec steps 0); [lia|].
      rewrite length_fmap, length_seqZ. reflexivity.
    + intros i Hi. apply drag_path_spec_lookup; assumption.
  - intros H0. unfold drag_path_spec. fold steps. rewrite H0. reflexivity.
  - apply drag_path_spec_covers.
  - intros j Hj Hframe. rewrite Hrefine.
    destruct (drag_path_spec_covers prev curr j Hj) as [v Hv].
    eapply brush_all_writes_centers; eassumption.
Qed.

Lemma drag_move_follows_path_witness :
  Z.min 0 100 <= 50 <= Z.max 0 100 /\
  0 <= 50 < FRAME_SIZE /\
  Write 50 ∈ accesses (move_brush (Some {| index := 0; amp := zero |})
                         {| index := 100; amp := one |}
                         (Traced (new_Float32Array FRAME_SIZE) [])).
Proof.
  assert (H1 : Z.min 0 100 <= 50 <= Z.max 0 100) by lia.
  assert (H2 : 0 <= 50 < FRAME_SIZE) by (unfold FRAME_SIZE; lia).
  split; [exact H1|]. split; [exact H2|].
  exact (proj2 (proj2 (proj2 (proj2
           (drag_move_follows_path {| index := 0; amp := zero |}
              {| index := 100; amp := one |}
              (Traced (new_Float32Array FRAME_SIZE) [])))))
           50 H1 H2).
Defined.

(** ** Morphing the table *)

(** What the [map] of [morphBetween] returns: the heap is extended, and
    position [p] of the result is the first reference, the last one, or a
    new object holding the crossfade for index [i + p]. *)
Lemma morph_map_spec (first last : ref) (count : Z) (l : list ref) (i : Z)
    (heap0 heap heap' : list Float32Array) (out : list ref) :
  morph_map first last count l i heap0 heap = (heap', out) ->
  (exists ext, heap' = heap ++ ext) /\
  forall p : nat, (p < length l)%nat ->
    (i + Z.of_nat p = 0 -> out !! p = Some first) /\
    (i + Z.of_nat p <> 0 -> i + Z.of_nat p = count - 1 -> out !! p = Some last) /\
    (i + Z.of_nat p <> 0 -> i + Z.of_nat p <> count - 1 ->
     exists r, out !! p = Some r /\
       heap' !! r = Some (interpolateFrames (deref heap0 first) (deref heap0 last)
                           (of_Z (i + Z.of_nat p) / of_Z (count - 1))%num)).
Proof.
  revert i heap heap' out. induction l as [|x l IH]; intros i heap heap' out Hmap.
  - simpl in Hmap. injection Hmap as <- <-. split; [exists []; by rewrite app_nil_r|].
    simpl. lia.
  - cbn [morph_map] in Hmap.
    destruct (Z.eqb_spec i 0) as [Hi0|Hi0];
      [|destruct (Z.eqb_spec i (count - 1)) as [Hi1|Hi1]].
    + destruct (morph_map first last count l (i + 1) heap0 heap) as [h o] eqn:Hrec.
      injection Hmap as <- <-. destruct (IH _ _ _ _ Hrec) as [Hext Hpos].
      split; [exact Hext|]. intros [|p] Hp.
      * simpl. repeat split; intros; try lia; reflexivity.
      * specialize (Hpos p ltac:(simpl in Hp; lia)).
        replace (i + Z.of_nat (S p)) with (i + 1 + Z.of_nat p) by lia. exact Hpos.
    + destruct (morph_map first last count l (i + 1) heap0 heap) as [h o] eqn:Hrec.
      injection Hmap as <- <-. destruct (IH _ _ _ _ Hrec) as [Hext Hpos].
      split; [exact Hext|]. intros [|p] Hp.
      * simpl. repeat split; intros; try lia; reflexivity.
      * specialize (Hpos p ltac:(simpl in Hp; lia)).
        replace (i + Z.of_nat (S p)) with (i + 1 + Z.of_nat p) by lia. exact Hpos.
    + match type of Hmap with
      | context [morph_map _ _ _ _ _ _ (heap ++ [?f])] => set (frame := f) in *
      end.
      destruct (morph_map first last count l (i + 1) heap0 (heap ++ [frame]))
        as [h o] eqn:Hrec.
      injection Hmap as <- <-. destruct (IH _ _ _ _ Hrec) as [[ext Hext] Hpos].
      split; [exists (frame :: ext); rewrite Hext, <- app_assoc; reflexivity|].
      intros [|p] Hp.
      * rewrite Z.add_0_r. repeat split; intros; try lia.
        exists (length heap). split; [reflexivity|].
        rewrite Hext, <- app_assoc. cbn [app].
        rewrite list_lookup_middle by done. reflexivity.
      * specialize (Hpos p ltac:(simpl in Hp; lia)).
        replace (i + Z.of_nat (S p)) with (i + 1 + Z.of_nat p) by lia. exact Hpos.
Qed.

Lemma frame_contents_deref (s : AppState) (i : Z) (buf : Float32Array) :
  frame_contents s i = Some buf ->
  exists r, frame_at (frames s) i = Some r /\ heap s !! r = Some buf /\
            deref (heap s) r = buf.
Proof.
  unfold frame_contents. destruct (frame_at (frames s) i) as [r|]; [|done].
  simpl. intros Hr. exists r. unfold deref. by rewrite Hr.
Qed.

(** C7. Morph All changes nothing on a table of fewer than 3 frames. On a
    longer table it keeps the first and the last frame, the same objects
    with the same contents, and replaces every frame [k] in between by the
    crossfade of the first and the last frame at mix [k / (count - 1)]; on a
    table of 5 frames, frame 2 is the crossfade at mix 0.5. *)
Theorem morph_table (s : AppState) (A B : Float32Array) :
  let count := Z.of_nat (length (frames s)) in
  (count < 3 -> morphBetween s = s) /\
  (3 <= count ->
   frame_contents s 0 = Some A ->
   frame_contents s (count - 1) = Some B ->
   length (frames (morphBetween s)) = length (frames s) /\
   frame_at (frames (morphBetween s)) 0 = frame_at (frames s) 0 /\
   frame_at (frames (morphBetween s)) (count - 1) = frame_at (frames s) (count - 1) /\
   frame_contents (morphBetween s) 0 = Some A /\
   frame_contents (morphBetween s) (count - 1) = Some B /\
   (forall k, 0 < k < count - 1 ->
      frame_contents (morphBetween s) k
      = Some (interpolateFrames A B (of_Z k / of_Z (count - 1))%num)) /\
   (count = 5 -> frame_contents (morphBetween s) 2 = Some (interpolateFrames A B one_half))).
Proof.
  intros count. split.
  { intros Hlt. unfold morphBetween. fold count.
    destruct (Z.ltb_spec count 3); [reflexivity | lia]. }
  intros Hge HA HB.
  destruct (frame_contents_deref s 0 A HA) as (first & Hfirst & HfA & HdA).
  destruct (frame_contents_deref s (count - 1) B HB) as (last & Hlast & HlB & HdB).
  unfold morphBetween. fold count.
  destruct (Z.ltb_spec count 3); [lia|]. rewrite Hfirst, Hlast.
  pose proof (length_morph_map first last count (frames s) 0 (heap s) (heap s)) as Hlen.
  destruct (morph_map first last count (frames s) 0 (heap s) (heap s))
    as [heap' newFrames] eqn:Hmap.
  destruct (morph_map_spec _ _ _ _ _ _ _ _ _ Hmap) as [[ext Hext] Hpos].
  cbn [snd] in Hlen. rewrite HdA, HdB in Hpos.
  assert (Hinterior : forall k, 0 < k < count - 1 ->
            frame_contents {| heap := heap'; frames := newFrames;
                              currentIndex := currentIndex s |} k
            = Some (interpolateFrames A B (of_Z k / of_Z (count - 1))%num)).
  { intros k Hk. destruct (Hpos (Z.to_nat k) ltac:(lia)) as (_ & _ & Hint).
    rewrite Z.add_0_l, Z2Nat.id in Hint by lia.
    destruct (Hint ltac:(lia) ltac:(lia)) as (r & Hr & Hheap).
    unfold frame_contents, frame_at. cbn [frames heap].
    destruct (Z.ltb_spec k 0); [lia|]. rewrite Hr. exact Hheap. }
  destruct (Hpos 0%nat ltac:(lia)) as (H0 & _ & _). specialize (H0 eq_refl).
  destruct (Hpos (Z.to_nat (count - 1)) ltac:(lia)) as (_ & H1 & _).
  rewrite Z.add_0_l, Z2Nat.id in H1 by lia. specialize (H1 ltac:(lia) eq_refl).
  assert (Hnew0 : frame_at newFrames 0 = Some first) by exact H0.
  assert (Hnew1 : frame_at newFrames (count - 1) = Some last).
  { unfold frame_at. destruct (Z.ltb_spec (count - 1) 0); [lia | exact H1]. }
  cbn [frames].
  split; [exact Hlen|]. split; [congruence|]. split; [congruence|].
  split; [|split; [|split]].
  - unfold frame_contents. cbn [frames heap]. rewrite Hnew0. cbn.
    rewrite Hext. apply lookup_app_l_Some. exact HfA.
  - unfold frame_contents. cbn [frames heap]. rewrite Hnew1. cbn.
    rewrite Hext. apply lookup_app_l_Some. exact HlB.
  - exact Hinterior.
  - intros H5. rewrite (Hinterior 2) by lia. rewrite H5. reflexivity.
Qed.

Lemma morph_table_witness :
  3 <= Z.of_nat (length (frames five_frames)) /\
  frame_contents five_frames 0 = Some frame_of_halves /\
  frame_contents five_frames 4 = Some frame_of_infinities /\
  frame_contents (morphBetween five_frames) 2
  = Some (interpolateFrames frame_of_halves frame_of_infinities one_half).
Proof.
  assert (H1 : 3 <= Z.of_nat (length (frames five_frames))) by (cbn; lia).
  assert (H2 : frame_contents five_frames 0 = Some frame_of_halves) by reflexivity.
  assert (H3 : frame_contents five_frames (Z.of_nat (length (frames five_frames)) - 1)
               = Some frame_of_infinities) by reflexivity.
  split; [exact H1|]. split; [exact H2|]. split; [exact H3|].
  destruct (proj2 (morph_table five_frames frame_of_halves frame_of_infinities) H1 H2 H3)
    as (_ & _ & _ & _ & _ & _ & H5).
  apply H5. reflexivity.
Defined.

(** ** Interpolation *)

Lemma same_value_refl (x : num) : same_value x x.
Proof. by left. Qed.

Lemma to_num_finite_cases (y : F32.f32) :
  F32.valid y = true -> isFinite y = true ->
  (exists s, F32.to_num y = S754_zero s) \/ (exists s m e, F32.to_num y = S754_finite s m e).
Proof.
  destruct y as [s|s| |s m e]; intros Hvalid Hfin; try discriminate.
  - left. by exists s.
  - right. rewrite to_num_finite by done. by eexists _, _, _.
Qed.

(** A finite sample weighted by 0 is a zero. *)
Lemma to_num_mul_zero (y : F32.f32) :
  F32.valid y = true -> isFinite y = true ->
  exists s, (F32.to_num y * zero)%num = S754_zero s.
Proof.
  intros Hvalid Hfin.
  destruct (to_num_finite_cases y Hvalid Hfin) as [[s ->]|(s & m & e & ->)];
    by eexists.
Qed.

(** Adding a zero to a sample and storing the sum gives the sample back, up
    to the sign of a zero. *)
Lemma store_add_zero_r (x : F32.f32) (s : bool) :
  F32.valid x = true ->
  same_value (F32.of_num (F32.to_num x + S754_zero s)%num) x.
Proof.
  intros Hvalid. destruct x as [sx|sx| |sx m e].
  - right. by destruct sx, s.
  - left. by destruct sx.
  - by left.
  - left. rewrite to_num_finite by done. unfold Num.add, SFadd.
    rewrite <- (to_num_finite sx m e Hvalid). by apply of_num_to_num.
Qed.

Lemma store_add_zero_l (x : F32.f32) (s : bool) :
  F32.valid x = true ->
  same_value (F32.of_num (S754_zero s + F32.to_num x)%num) x.
Proof.
  intros Hvalid. destruct x as [sx|sx| |sx m e].
  - right. by destruct sx, s.
  - left. by destruct sx.
  - by left.
  - left. rewrite to_num_finite by done. unfold Num.add, SFadd.
    rewrite <- (to_num_finite sx m e Hvalid). by apply of_num_to_num.
Qed.

Lemma interpolate_sample_mix_0 (x y : F32.f32) :
  F32.valid x = true -> F32.valid y = true -> isFinite y = true ->
  same_value (F32.of_num (F32.to_num x * (one - zero) + F32.to_num y * zero)%num) x.
Proof.
  intros Hx Hy Hfin. change (one - zero)%num with one.
  rewrite mul_one_r by (by apply to_num_valid).
  destruct (to_num_mul_zero y Hy Hfin) as [s ->].
  by apply store_add_zero_r.
Qed.

Lemma interpolate_sample_mix_1 (x y : F32.f32) :
  F32.valid x = true -> F32.valid y = true -> isFinite x = true ->
  same_value (F32.of_num (F32.to_num x * (one - one) + F32.to_num y * one)%num) y.
Proof.
  intros Hx Hy Hfin. change (one - one)%num with zero.
  rewrite (mul_one_r (F32.to_num y)) by (by apply to_num_valid).
  destruct (to_num_mul_zero x Hx Hfin) as [s ->].
  by apply store_add_zero_l.
Qed.

Lemma lookup_interpolateFrames (frameA frameB : Float32Array) (mix : num) (k : nat)
    (x y : F32.f32) :
  (k < Z.to_nat FRAME_SIZE)%nat ->
  frameA !! k = Some x -> frameB !! k = Some y ->
  interpolateFrames frameA frameB mix !! k
  = Some (F32.of_num (F32.to_num x * (one - mix) + F32.to_num y * mix)%num).
Proof.
  intros Hk Hx Hy. unfold interpolateFrames.
  rewrite for_range_fill; [|lia|lia|by rewrite length_new_Float32Array].
  by rewrite (f32_get_lookup _ _ _ Hx), (f32_get_lookup _ _ _ Hy).
Qed.

Lemma length_interpolateFrames (frameA frameB : Float32Array) (mix : num) :
  length (interpolateFrames frameA frameB mix) = Z.to_nat FRAME_SIZE.
Proof.
  unfold interpolateFrames.
  rewrite (length_for_range_set
             (fun i _ => (f32_get frameA i * (one - mix) + f32_get frameB i * mix)%num)).
  apply length_new_Float32Array.
Qed.

(** C8, as the code has it. For frames of binary32 samples, the crossfade
    at mix 0 gives back the first frame when the second has no NaN and no
    infinity, and at mix 1 it gives back the second frame when the first has
    none; the samples are the same numbers, a zero possibly with the other
    sign. *)
Theorem interpolate_endpoints (a b : Float32Array) :
  length a = Z.to_nat FRAME_SIZE -> length b = Z.to_nat FRAME_SIZE ->
  f32_array_valid a -> f32_array_valid b ->
  (f32_array_finite b -> Forall2 same_value (interpolateFrames a b zero) a) /\
  (f32_array_finite a -> Forall2 same_value (interpolateFrames a b one) b).
Proof.
  intros Hla Hlb Hva Hvb. unfold f32_array_valid, f32_array_finite in *.
  rewrite Forall_lookup in Hva, Hvb.
  split; intros Hfin; rewrite Forall_lookup in Hfin;
    apply Forall2_same_length_lookup_2;
    try (rewrite length_interpolateFrames; congruence).
  - intros k r x Hr Hx.
    assert (Hk : (k < Z.to_nat FRAME_SIZE)%nat) by (rewrite <- Hla; by eapply lookup_lt_Some).
    destruct (lookup_lt_is_Some_2 b k ltac:(lia)) as [y Hy].
    rewrite (lookup_interpolateFrames a b zero k x y Hk Hx Hy) in Hr.
    injection Hr as <-. apply interpolate_sample_mix_0; eauto.
  - intros k r y Hr Hy.
    assert (Hk : (k < Z.to_nat FRAME_SIZE)%nat) by (rewrite <- Hlb; by eapply lookup_lt_Some).
    destruct (lookup_lt_is_Some_2 a k ltac:(lia)) as [x Hx].
    rewrite (lookup_interpolateFrames a b one k x y Hk Hx Hy) in Hr.
    injection Hr as <-. apply interpolate_sample_mix_1; eauto.
Qed.

Lemma interpolate_endpoints_witness :
  f32_array_valid frame_of_halves /\
  f32_array_finite frame_of_halves /\
  Forall2 same_value
    (interpolateFrames (new_Float32Array FRAME_SIZE) frame_of_halves zero)
    (new_Float32Array FRAME_SIZE) /\
  Forall2 same_value
    (interpolateFrames frame_of_halves (new_Float32Array FRAME_SIZE) one)
    (new_Float32Array FRAME_SIZE).
Proof.
  assert (Hv0 : f32_array_valid (new_Float32Array FRAME_SIZE))
    by (apply Forall_replicate; reflexivity).
  assert (Hf0 : f32_array_finite (new_Float32Array FRAME_SIZE))
    by (apply Forall_replicate; reflexivity).
  assert (Hv : f32_array_valid frame_of_halves) by (apply Forall_replicate; reflexivity).
  assert (Hf : f32_array_finite frame_of_halves) by (apply Forall_replicate; reflexivity).
  split; [exact Hv|]. split; [exact Hf|]. split.
  - apply (interpolate_endpoints (new_Float32Array FRAME_SIZE) frame_of_halves
             (length_replicate _ _) (length_replicate _ _) Hv0 Hv); exact Hf.
  - apply (interpolate_endpoints frame_of_halves (new_Float32Array FRAME_SIZE)
             (length_replicate _ _) (length_replicate _ _) Hv Hv0); exact Hf.
Defined.

(** C8 fails as stated: with a second frame of infinities, the crossfade at
    mix 0 of a frame of 0.5 is NaN at index 0, since [Infinity * 0] is NaN. *)
Lemma interpolate_infinity_counterexample :
  frame_of_halves !! 0%nat = Some (S754_finite false 8388608 (-24)) /\
  interpolateFrames frame_of_halves frame_of_infinities zero !! 0%nat = Some S754_nan.
Proof.
  split; [reflexivity|].
  rewrite (lookup_interpolateFrames _ _ _ _ (S754_finite false 8388608 (-24))
             (S754_infinity false)); [reflexivity| |reflexivity|reflexivity].
  unfold FRAME_SIZE. lia.
Qed.

(** ** The harmonic generator *)

Lemma same_value_sym (x y : num) : same_value x y -> same_value y x.
Proof. intros [->|[Hx Hy]]; [by left | by right]. Qed.

Lemma same_value_trans (x y z : num) : same_value x y -> same_value y z -> same_value x z.
Proof.
  intros [->|[Hx Hy]] [->|[Hy' Hz]]; try (by left); try (by right).
Qed.

Lemma same_value_valid (x y : F32.f32) :
  same_value x y -> F32.valid x = true -> F32.valid y = true.
Proof. intros [->|[_ Hy]] Hx; [done|]. by destruct y. Qed.

Lemma new_Float32Array_valid (n : Z) : f32_array_valid (new_Float32Array n).
Proof. unfold new_Float32Array. generalize (Z.to_nat n). intros k. apply Forall_replicate. reflexivity. Qed.

Lemma Forall2_same_value_refl (B : Float32Array) : Forall2 same_value B B.
Proof. induction B as [|x B IH]; constructor; [by left | exact IH]. Qed.

(** The same term added to two samples that are the same value. *)
Lemma store_add_same (x y : F32.f32) (t : num) :
  same_value x y ->
  same_value (F32.of_num (F32.to_num x + t)%num) (F32.of_num (F32.to_num y + t)%num).
Proof.
  intros [->|[Hx Hy]]; [by left|].
  destruct x as [sx| | |]; try discriminate. destruct y as [sy| | |]; try discriminate.
  destruct t as [st|st| |st m e].
  - right. by destruct sx, sy, st.
  - left. by destruct sx, sy, st.
  - by left.
  - by left.
Qed.

(** The same factor applied to two samples that are the same value. *)
Lemma store_mul_same (x y : F32.f32) (t : num) :
  same_value x y ->
  same_value (F32.of_num (F32.to_num x * t)%num) (F32.of_num (F32.to_num y * t)%num).
Proof.
  intros [->|[Hx Hy]]; [by left|].
  destruct x as [sx| | |]; try discriminate. destruct y as [sy| | |]; try discriminate.
  destruct t as [st|st| |st m e].
  - right. by destruct sx, sy, st.
  - by left.
  - by left.
  - right. by destruct sx, sy, st.
Qed.

Lemma abs_to_num_same (x y : F32.f32) :
  same_value x y -> Num.abs (F32.to_num x) = Num.abs (F32.to_num y).
Proof.
  intros [->|[Hx Hy]]; [done|].
  destruct x as [sx| | |]; try discriminate. by destruct y as [sy| | |].
Qed.

(** An amplitude [amp === 0] is a zero, and a zero times a finite sine is a
    zero. *)
Lemma eqb_zero (amp : num) : eqb amp zero = true -> exists s, amp = S754_zero s.
Proof.
  destruct amp as [s|s| |s m e]; [by exists s| | |]; try (by destruct s).
  discriminate.
Qed.

Lemma zero_mul_finite (s : bool) (v : num) :
  isFinite v = true -> exists s', (S754_zero s * v)%num = S754_zero s'.
Proof. destruct v as [sv|sv| |sv m e]; try discriminate; intros _; by eexists. Qed.

(** Two loops that rewrite each element from its old value keep two buffers
    the same when they keep each pair of elements the same. *)
Lemma Forall2_for_range_both (F G : Z -> num -> num) (n : nat) (B B' : Float32Array) :
  Forall2 same_value B B' ->
  (forall (k : nat) x y, (k < n)%nat -> B !! k = Some x -> B' !! k = Some y ->
     same_value (F32.of_num (F (Z.of_nat k) (F32.to_num x)))
                (F32.of_num (G (Z.of_nat k) (F32.to_num y)))) ->
  Forall2 same_value
    (for_range n 0 (fun j b => f32_set b j (F j (f32_get b j))) B)
    (for_range n 0 (fun j b => f32_set b j (G j (f32_get b j))) B').
Proof.
  intros Hsame Hstep. apply Forall2_same_length_lookup_2.
  - rewrite (length_for_range_set (fun j b => F j (f32_get b j))).
    rewrite (length_for_range_set (fun j b => G j (f32_get b j))).
    by eapply Forall2_length.
  - intros k x' y' Hx' Hy'. rewrite for_range_elementwise in Hx', Hy' by lia.
    case_decide as Hk.
    + destruct (B !! k) as [x|] eqn:Hx; [|done].
      destruct (B' !! k) as [y|] eqn:Hy; [|done].
      cbn in Hx', Hy'. injection Hx' as <-. injection Hy' as <-.
      apply Hstep; [lia | done | done].
    + eapply Forall2_lookup_lr; eauto.
Qed.

Lemma Forall2_for_range_r (G : Z -> num -> num) (n : nat) (B B' : Float32Array) :
  Forall2 same_value B B' ->
  (forall (k : nat) x y, (k < n)%nat -> B !! k = Some x -> B' !! k = Some y ->
     same_value x (F32.of_num (G (Z.of_nat k) (F32.to_num y)))) ->
  Forall2 same_value B (for_range n 0 (fun j b => f32_set b j (G j (f32_get b j))) B').
Proof.
  intros Hsame Hstep. apply Forall2_same_length_lookup_2.
  - rewrite (length_for_range_set (fun j b => G j (f32_get b j))).
    by eapply Forall2_length.
  - intros k x y' Hx Hy'. rewrite for_range_elementwise in Hy' by lia.
    case_decide as Hk.
    + destruct (B' !! k) as [y|] eqn:Hy; [|done].
      cbn in Hy'. injection Hy' as <-. apply Hstep; [lia | done | done].
    + eapply Forall2_lookup_lr; eauto.
Qed.

Lemma for_range_elementwise_valid (G : Z -> num -> num) (n : nat) (B : Float32Array) :
  f32_array_valid B ->
  f32_array_valid (for_range n 0 (fun j b => f32_set b j (G j (f32_get b j))) B).
Proof.
  unfold f32_array_valid. rewrite !Forall_lookup. intros Hvalid k x Hx.
  rewrite for_range_elementwise in Hx by lia. case_decide; [|by eapply Hvalid].
  destruct (B !! k) as [y|]; [|done]. cbn in Hx. injection Hx as <-.
  apply of_num_valid.
Qed.

(** *** Normalisation *)

Lemma abs_f32_get_same (B B' : Float32Array) (i : Z) :
  Forall2 same_value B B' -> Num.abs (f32_get B i) = Num.abs (f32_get B' i).
Proof.
  intros Hsame. unfold f32_get. destruct (i <? 0); [done|].
  destruct (B !! Z.to_nat i) as [x|] eqn:Hx.
  - destruct (Forall2_lookup_l _ _ _ _ _ Hsame Hx) as (y & -> & Hxy).
    by apply abs_to_num_same.
  - apply lookup_ge_None in Hx. rewrite (Forall2_length _ _ _ Hsame) in Hx.
    apply lookup_ge_None in Hx. by rewrite Hx.
Qed.

Lemma normalizeBuffer_same (B B' : Float32Array) :
  Forall2 same_value B B' ->
  Forall2 same_value (normalizeBuffer B) (normalizeBuffer B').
Proof.
  intros Hsame. unfold normalizeBuffer.
  rewrite <- (Forall2_length _ _ _ Hsame).
  assert (Hmax : forall (n : nat) i acc,
             for_range n i
               (fun i maxAmp =>
                  let abs := Num.abs (f32_get B i) in
                  if gtb abs maxAmp then abs else maxAmp) acc
             = for_range n i
                 (fun i maxAmp =>
                    let abs := Num.abs (f32_get B' i) in
                    if gtb abs maxAmp then abs else maxAmp) acc).
  { induction n as [|n IH]; intros i acc; [done|].
    cbn [for_range]. cbv zeta. rewrite (abs_f32_get_same B B' i Hsame). apply IH. }
  rewrite Hmax.
  match goal with |- context [gtb ?m lit_0_0001] => destruct (gtb m lit_0_0001) end;
    [|done].
  apply (Forall2_for_range_both (fun _ v => (v * _)%num) (fun _ v => (v * _)%num));
    [done|].
  intros k x y _ Hx Hy. apply store_mul_same.
  by eapply Forall2_lookup_lr.
Qed.

(** *** The sum of the partials *)

Section Harmonics.

Variable Math_sin : num -> num.

(** Adding a partial keeps the elements binary32 values. *)
Lemma add_harmonic_valid (amp harmonicNum : num) (B : Float32Array) :
  f32_array_valid B -> f32_array_valid (add_harmonic Math_sin amp harmonicNum B).
Proof.
  intros Hvalid. unfold add_harmonic.
  exact (for_range_elementwise_valid
           (fun i v => (v + amp * Math_sin ((of_Z i / of_Z FRAME_SIZE) * PI * two
                                            * harmonicNum))%num)
           (Z.to_nat FRAME_SIZE) B Hvalid).
Qed.

(** The same partial added to two buffers that are the same. *)
Lemma add_harmonic_same (amp harmonicNum : num) (B B' : Float32Array) :
  Forall2 same_value B B' ->
  Forall2 same_value (add_harmonic Math_sin amp harmonicNum B)
                     (add_harmonic Math_sin amp harmonicNum B').
Proof.
  intros Hsame. unfold add_harmonic.
  refine (Forall2_for_range_both
            (fun i v => (v + amp * Math_sin ((of_Z i / of_Z FRAME_SIZE) * PI * two
                                             * harmonicNum))%num)
            (fun i v => (v + amp * Math_sin ((of_Z i / of_Z FRAME_SIZE) * PI * two
                                             * harmonicNum))%num)
            (Z.to_nat FRAME_SIZE) B B' Hsame _).
  intros k x y Hk Hx Hy. apply store_add_same. by eapply Forall2_lookup_lr.
Qed.

(** A partial of amplitude zero changes no sample, up to the sign of a
    zero, when the sine is finite at its phases. *)
Lemma add_harmonic_zero (amp harmonicNum : num) (B B' : Float32Array) :
  Forall2 same_value B B' ->
  f32_array_valid B' ->
  eqb amp zero = true ->
  (forall i, 0 <= i < FRAME_SIZE ->
     isFinite (Math_sin ((of_Z i / of_Z FRAME_SIZE) * PI * two * harmonicNum)%num) = true) ->
  Forall2 same_value B (add_harmonic Math_sin amp harmonicNum B').
Proof.
  intros Hsame Hvalid Hamp Hsin. unfold add_harmonic.
  refine (Forall2_for_range_r
            (fun i v => (v + amp * Math_sin ((of_Z i / of_Z FRAME_SIZE) * PI * two
                                             * harmonicNum))%num)
            (Z.to_nat FRAME_SIZE) B B' Hsame _).
  intros k x y Hk Hx Hy.
  destruct (eqb_zero amp Hamp) as [s ->].
  destruct (zero_mul_finite s
              (Math_sin ((of_Z (Z.of_nat k) / of_Z FRAME_SIZE) * PI * two * harmonicNum)%num))
    as [s' Hs'].
  { apply Hsin. unfold FRAME_SIZE in *. lia. }
  cbv beta. rewrite Hs'.
  eapply same_value_trans; [by eapply Forall2_lookup_lr|].
  apply same_value_sym, store_add_zero_r.
  unfold f32_array_valid in Hvalid. rewrite Forall_lookup in Hvalid. eauto.
Qed.

(** The loop that skips the zero amplitudes and the loop that does not keep
    the two buffers the same, when the sine is finite wherever a skipped
    partial would have been evaluated. *)
Lemma harmonics_loops_same (harmonics : list num) (h : Z) (B B' : Float32Array) :
  Forall2 same_value B B' ->
  f32_array_valid B' ->
  (forall (p : nat) amp, harmonics !! p = Some amp -> eqb amp zero = true ->
     forall i, 0 <= i < FRAME_SIZE ->
       isFinite (Math_sin ((of_Z i / of_Z FRAME_SIZE) * PI * two
                           * of_Z (h + Z.of_nat p + 1))%num) = true) ->
  Forall2 same_value
    (harmonics_loop Math_sin harmonics h B)
    (harmonics_loop_reference Math_sin B' harmonics h).
Proof.
  revert h B B'. induction harmonics as [|amp rest IH]; intros h B B' Hsame Hvalid Hsin;
    [exact Hsame|].
  cbn [harmonics_loop harmonics_loop_reference].
  assert (Hrest : forall (p : nat) amp', rest !! p = Some amp' -> eqb amp' zero = true ->
            forall i, 0 <= i < FRAME_SIZE ->
              isFinite (Math_sin ((of_Z i / of_Z FRAME_SIZE) * PI * two
                                  * of_Z (h + 1 + Z.of_nat p + 1))%num) = true).
  { intros p amp' Hp Hzero i Hi.
    replace (h + 1 + Z.of_nat p + 1) with (h + Z.of_nat (S p) + 1) by lia.
    exact (Hsin (S p) amp' Hp Hzero i Hi). }
  destruct (eqb amp zero) eqn:Hamp.
  - apply IH; [|by apply add_harmonic_valid|exact Hrest].
    apply add_harmonic_zero; [exact Hsame|exact Hvalid|exact Hamp|].
    intros i Hi. specialize (Hsin 0%nat amp eq_refl Hamp i Hi).
    rewrite Z.add_0_r in Hsin. exact Hsin.
  - apply IH; [|by apply add_harmonic_valid|exact Hrest].
    by apply add_harmonic_same.
Qed.

End Harmonics.

(** C9, as the code has it. When the sine is finite at the phases of the
    partials it skips, the generator that skips the zero amplitudes returns
    the same samples as the reference that adds every partial: the same
    numbers, a zero possibly with the other sign. *)
Theorem harmonics_skip_same_samples (Math_sin : num -> num) (harmonics : list num) :
  (forall (h : nat) amp, harmonics !! h = Some amp -> eqb amp zero = true ->
     forall i, 0 <= i < FRAME_SIZE ->
       isFinite (Math_sin ((of_Z i / of_Z FRAME_SIZE) * PI * two
                           * of_Z (Z.of_nat h + 1))%num) = true) ->
  Forall2 same_value
    (generateFromHarmonics Math_sin harmonics)
    (generateFromHarmonics_reference Math_sin harmonics).
Proof.
  intros Hsin. unfold generateFromHarmonics, generateFromHarmonics_reference.
  apply normalizeBuffer_same, harmonics_loops_same.
  - apply Forall2_same_value_refl.
  - apply new_Float32Array_valid.
  - intros p amp Hp Hzero i Hi. rewrite Z.add_0_l. exact (Hsin p amp Hp Hzero i Hi).
Qed.

Lemma harmonics_skip_same_samples_witness :
  (forall i, 0 <= i < FRAME_SIZE ->
     isFinite (host_sin ((of_Z i / of_Z FRAME_SIZE) * PI * two * of_Z 2)%num) = true) /\
  Forall2 same_value
    (generateFromHarmonics host_sin [one; zero])
    (generateFromHarmonics_reference host_sin [one; zero]).
Proof.
  assert (Hfin : forall i, 0 <= i < FRAME_SIZE ->
            isFinite (host_sin ((of_Z i / of_Z FRAME_SIZE) * PI * two * of_Z 2)%num) = true).
  { apply (proj1 (Forall_seqZ _ 0 FRAME_SIZE)).
    apply (bool_decide_unpack _). vm_compute. exact I. }
  split; [exact Hfin|].
  apply (harmonics_skip_same_samples host_sin [one; zero]).
  intros [|[|h]] amp Hh Hzero i Hi.
  - injection Hh as <-. discriminate.
  - by apply Hfin.
  - discriminate.
Defined.

(** C9 fails as stated: with the amplitudes [2^-200; 0], sample 1280 of the
    generator is [-0], and sample 1280 of the reference, which adds the
    second partial with its amplitude 0, is [+0]. *)
Lemma harmonics_skip_counterexample :
  generateFromHarmonics host_sin [tiny_amplitude; zero] !! 1280%nat
  = Some (S754_zero true) /\
  generateFromHarmonics_reference host_sin [tiny_amplitude; zero] !! 1280%nat
  = Some (S754_zero false).
Proof. split; vm_compute; reflexivity. Qed.

(** * Further properties *)

(** ** Numbers of the binary64 format *)

Lemma num_valid_canonical (s : bool) (m : positive) (e : Z) :
  num_valid (S754_finite s m e) ->
  Z.max (Zpos (digits2_pos m) + e - 53) (-1074) = e /\ e <= 971.
Proof.
  unfold num_valid. cbn [valid_binary]. unfold bounded, canonical_mantissa.
  intros H. apply andb_prop in H as [Hcan Hle].
  apply Z.eqb_eq in Hcan. apply Z.leb_le in Hle.
  unfold SpecFloat.fexp, SpecFloat.emin, Num.prec, Num.emax in *. lia.
Qed.

Lemma digits2_pos_mul (a b : positive) :
  Zpos (digits2_pos a) + Zpos (digits2_pos b) - 1 <= Zpos (digits2_pos (a * b)).
Proof.
  pose proof (digits2_pos_bounds a) as [Ha _].
  pose proof (digits2_pos_bounds b) as [Hb _].
  pose proof (digits2_pos_bounds (a * b)) as [_ Hab].
  assert (H : 2 ^ (Zpos (digits2_pos a) - 1 + (Zpos (digits2_pos b) - 1))
              < 2 ^ Zpos (digits2_pos (a * b))).
  { rewrite Z.pow_add_r by lia. rewrite Pos2Z.inj_mul in Hab. nia. }
  apply Z.pow_lt_mono_r_iff in H; lia.
Qed.

Lemma mul_valid (x y : num) : num_valid x -> num_valid y -> num_valid (x * y)%num.
Proof.
  intros Hx Hy. destruct x as [sx|sx| |sx mx ex], y as [sy|sy| |sy my ey];
    try reflexivity.
  destruct (num_valid_canonical _ _ _ Hx) as [Hcx _].
  destruct (num_valid_canonical _ _ _ Hy) as [Hcy _].
  unfold num_valid, Num.mul, SFmul.
  apply binary_round_aux_valid; [reflexivity|].
  pose proof (digits2_pos_mul mx my).
  assert (0 < Zpos (digits2_pos mx)) by lia. assert (0 < Zpos (digits2_pos my)) by lia.
  unfold SpecFloat.fexp, SpecFloat.emin, Num.prec, Num.emax. lia.
Qed.

Lemma binary_normalize_valid (m e : Z) (szero : bool) :
  num_valid (binary_normalize Num.prec Num.emax m e szero).
Proof.
  destruct m; [reflexivity | |]; apply binary_round_valid; reflexivity.
Qed.

Lemma of_Z_valid (z : Z) : num_valid (of_Z z).
Proof. apply binary_normalize_valid. Qed.

Lemma add_valid (x y : num) : num_valid x -> num_valid y -> num_valid (x + y)%num.
Proof.
  intros Hx Hy. destruct x as [sx|sx| |sx mx ex], y as [sy|sy| |sy my ey];
    try reflexivity; try assumption;
    try (by destruct sx, sy).
  apply binary_normalize_valid.
Qed.

Lemma neg_valid (x : num) : num_valid x -> num_valid (neg x).
Proof. by destruct x. Qed.

Lemma abs_valid (x : num) : num_valid x -> num_valid (Num.abs x).
Proof. by destruct x. Qed.

Lemma sub_valid (x y : num) : num_valid x -> num_valid y -> num_valid (x - y)%num.
Proof.
  intros Hx Hy. destruct x as [sx|sx| |sx mx ex], y as [sy|sy| |sy my ey];
    try reflexivity; try assumption;
    try (by destruct sx, sy).
  apply binary_normalize_valid.
Qed.

Lemma mul_one_l (x : num) : num_valid x -> (one * x)%num = x.
Proof.
  destruct x as [s|s| |s m e]; intros Hvalid;
    [by destruct s | by destruct s | reflexivity |].
  change one with (S754_finite false 4503599627370496 (-52)).
  unfold Num.mul, SFmul.
  replace (4503599627370496 * m)%positive with (Nat.iter 52 xO m).
  - cbn [xorb]. rewrite (Z.add_comm (-52) e).
    apply (binary_round_aux_exact Num.prec Num.emax s m e 52 Hvalid).
  - apply Pos2Z.inj. rewrite Zpos_iter_xO, Pos2Z.inj_mul. lia.
Qed.

Lemma num_add_comm (x y : num) : (x + y)%num = (y + x)%num.
Proof.
  destruct x as [sx|sx| |sx mx ex], y as [sy|sy| |sy my ey];
    try reflexivity; try (by destruct sx, sy).
  unfold Num.add, SFadd. rewrite (Z.min_comm ey ex). f_equal. apply Z.add_comm.
Qed.


(** ** The store, operation by operation *)


Lemma filter_indexed_cursor (c i : Z) (l : list ref) :
  i <= c < i + Z.of_nat (length l) ->
  filter_indexed (fun _ j => negb (j =? c)) i l
  = take (Z.to_nat (c - i)) l ++ drop (S (Z.to_nat (c - i))) l.
Proof.
  revert i. induction l as [|x l IH]; intros i Hc; [simpl in Hc; lia|].
  cbn [filter_indexed]. destruct (Z.eqb_spec i c) as [->|Hne]; cbn [negb].
  - rewrite Z.sub_diag. cbn [Z.to_nat take drop app]. rewrite drop_0.
    apply filter_indexed_outside. lia.
  - replace (Z.to_nat (c - i)) with (S (Z.to_nat (c - (i + 1)))) by lia.
    cbn [take drop app]. f_equal. apply IH. cbn [length] in Hc. lia.
Qed.

(** Add Frame on a table with room: a new object with the contents of the
    current frame is appended, the frames that were there are kept, and the
    new frame is selected. *)
Theorem addFrame_appends_copy_and_selects (s : AppState) (buf : Float32Array) :
  Z.of_nat (length (frames s)) < MAX_FRAMES ->
  frame_contents s (currentIndex s) = Some buf ->
  frames (addFrame s) = frames s ++ [length (heap s)] /\
  heap s !! length (heap s) = None /\
  (forall i b, frame_contents s i = Some b -> frame_contents (addFrame s) i = Some b) /\
  currentIndex (addFrame s) = Z.of_nat (length (frames s)) /\
  frame_contents (addFrame s) (currentIndex (addFrame s)) = Some buf.
Proof.
  intros Hroom Hcur. unfold addFrame.
  destruct (Z.geb_spec (Z.of_nat (length (frames s))) MAX_FRAMES) as [|_]; [lia|].
  cbn [frames heap currentIndex].
  split; [reflexivity|]. split; [by apply lookup_ge_None_2|].
  split; [|split; [reflexivity|]].
  - intros i b. unfold frame_contents. cbn [frames heap].
    destruct (frame_at (frames s) i) as [q|] eqn:Hq; [|done]. simpl. intros Hb.
    assert (Hi : i < Z.of_nat (length (frames s))).
    { unfold frame_at in Hq. destruct (Z.ltb_spec i 0); [done|].
      apply lookup_lt_Some in Hq. lia. }
    rewrite frame_at_app_l, Hq by done. simpl. by apply lookup_app_l_Some.
  - destruct (frame_contents_deref s _ _ Hcur) as (r & Hr & _ & Hd).
    unfold frame_contents. cbn [frames heap].
    rewrite frame_at_app_last. simpl.
    rewrite lookup_app_r, Nat.sub_diag by done. simpl.
    rewrite Hr. simpl. by rewrite Hd.
Qed.

Lemma addFrame_appends_copy_and_selects_witness :
  Z.of_nat (length (frames (initialState host_sin))) < MAX_FRAMES /\
  frame_contents (addFrame (initialState host_sin)) 1 = Some (generateSine host_sin) /\
  currentIndex (addFrame (initialState host_sin)) = 1.
Proof.
  assert (H1 : Z.of_nat (length (frames (initialState host_sin))) < MAX_FRAMES)
    by (simpl; unfold MAX_FRAMES; lia).
  assert (H2 : frame_contents (initialState host_sin) (currentIndex (initialState host_sin))
               = Some (generateSine host_sin)) by reflexivity.
  split; [exact H1|].
  pose proof (addFrame_appends_copy_and_selects (initialState host_sin)
                (generateSine host_sin) H1 H2) as (_ & _ & _ & Hcur & Hnew).
  split; [|exact Hcur]. rewrite Hcur in Hnew. exact Hnew.
Defined.

(** Delete on a table of more than one frame removes the frame under the
    cursor and no other: the frames before it keep their index, the frames
    after it move down by one, and the cursor stays where it was unless it
    was on the last frame. *)
Theorem deleteFrame_removes_current (s : AppState) :
  1 < Z.of_nat (length (frames s)) ->
  cursor_valid s ->
  let c := Z.to_nat (currentIndex s) in
  frames (deleteFrame s) = take c (frames s) ++ drop (S c) (frames s) /\
  heap (deleteFrame s) = heap s /\
  S (length (frames (deleteFrame s))) = length (frames s) /\
  (forall i, i < currentIndex s -> frame_contents (deleteFrame s) i = frame_contents s i) /\
  (forall i, currentIndex s <= i ->
     frame_contents (deleteFrame s) i = frame_contents s (i + 1)) /\
  currentIndex (deleteFrame s)
  = (if currentIndex s =? Z.of_nat (length (frames s)) - 1
     then currentIndex s - 1 else currentIndex s).
Proof.
  intros Hlen Hvalid c. unfold cursor_valid in Hvalid.
  assert (Hframes : frames (deleteFrame s) = take c (frames s) ++ drop (S c) (frames s)).
  { unfold deleteFrame. destruct (Z.leb_spec (Z.of_nat (length (frames s))) 1); [lia|].
    cbn [frames]. rewrite filter_indexed_cursor by lia. rewrite Z.sub_0_r. reflexivity. }
  assert (Hheap : heap (deleteFrame s) = heap s).
  { unfold deleteFrame. by destruct (Z.of_nat (length (frames s)) <=? 1). }
  assert (Hcount : S (length (frames (deleteFrame s))) = length (frames s)).
  { rewrite Hframes, length_app, length_take, length_drop. lia. }
  split; [exact Hframes|]. split; [exact Hheap|]. split; [exact Hcount|].
  split; [|split].
  - intros i Hi. unfold frame_contents. rewrite Hheap, Hframes. f_equal.
    unfold frame_at. destruct (Z.ltb_spec i 0); [reflexivity|].
    rewrite lookup_app_l by (rewrite length_take; lia).
    apply lookup_take_lt. lia.
  - intros i Hi. unfold frame_contents. rewrite Hheap, Hframes. f_equal.
    unfold frame_at. destruct (Z.ltb_spec i 0); [lia|].
    destruct (Z.ltb_spec (i + 1) 0); [lia|].
    rewrite lookup_app_r by (rewrite length_take; lia).
    rewrite length_take, lookup_drop. f_equal. lia.
  - unfold deleteFrame. destruct (Z.leb_spec (Z.of_nat (length (frames s))) 1); [lia|].
    cbn [currentIndex]. rewrite length_filter_indexed_cursor by lia.
    destruct (Z.eqb_spec (currentIndex s) (Z.of_nat (length (frames s)) - 1)); lia.
Qed.

Lemma deleteFrame_removes_current_witness :
  1 < Z.of_nat (length (frames (addFrame (initialState host_sin)))) /\
  cursor_valid (addFrame (initialState host_sin)) /\
  frames (deleteFrame (addFrame (initialState host_sin))) = [0%nat] /\
  currentIndex (deleteFrame (addFrame (initialState host_sin))) = 0.
Proof.
  assert (H1 : 1 < Z.of_nat (length (frames (addFrame (initialState host_sin)))))
    by (unfold addFrame, initialState, MAX_FRAMES; simpl; lia).
  assert (H2 : cursor_valid (addFrame (initialState host_sin)))
    by (unfold cursor_valid, addFrame, initialState, MAX_FRAMES; simpl; lia).
  split; [exact H1|]. split; [exact H2|].
  pose proof (deleteFrame_removes_current (addFrame (initialState host_sin)) H1 H2)
    as (Hframes & _ & _ & _ & _ & Hcur).
  split; [exact Hframes | exact Hcur].
Defined.




Lemma frame_contents_allocated (s : AppState) (i : Z) :
  frames_allocated s -> 0 <= i < Z.of_nat (length (frames s)) ->
  exists buf, frame_contents s i = Some buf.
Proof.
  intros Halloc Hi. unfold frame_contents, frame_at.
  destruct (Z.ltb_spec i 0); [lia|].
  destruct (lookup_lt_is_Some_2 (frames s) (Z.to_nat i) ltac:(lia)) as [r Hr].
  rewrite Hr. simpl. apply lookup_lt_is_Some_2.
  unfold frames_allocated in Halloc. rewrite Forall_lookup in Halloc. eauto.
Qed.

Lemma Forall_filter_indexed {A : Type} (P : A -> Prop) (p : A -> Z -> bool) (i : Z)
    (l : list A) :
  Forall P l -> Forall P (filter_indexed p i l).
Proof.
  intros H. revert i. induction H as [|x l Hx _ IH]; intros i; [constructor|].
  cbn [filter_indexed]. destruct (p x i); [constructor; [exact Hx|]|]; apply IH.
Qed.

Lemma Forall_allocated_app (h ext : list Float32Array) (fr : list ref) :
  Forall (fun r : ref => (r < length h)%nat) fr ->
  Forall (fun r : ref => (r < length (h ++ ext))%nat) fr.
Proof. intros H. eapply Forall_impl; [exact H|]. intros r Hr. rewrite length_app. simpl in *. lia. Qed.

Lemma addFrame_allocated (s : AppState) : frames_allocated s -> frames_allocated (addFrame s).
Proof.
  unfold frames_allocated, addFrame. intros H.
  destruct (Z.of_nat (length (frames s)) >=? MAX_FRAMES); [exact H|].
  cbn [heap frames]. apply Forall_app. split; [by apply Forall_allocated_app|].
  apply Forall_singleton. rewrite length_app. cbn [length]. lia.
Qed.

Lemma duplicateFrame_allocated (s : AppState) :
  frames_allocated s -> frames_allocated (duplicateFrame s).
Proof.
  unfold frames_allocated, duplicateFrame. intros H.
  cbn [heap frames]. apply Forall_app. split; [by apply Forall_allocated_app|].
  apply Forall_singleton. rewrite length_app. cbn [length]. lia.
Qed.

Lemma deleteFrame_allocated (s : AppState) :
  frames_allocated s -> frames_allocated (deleteFrame s).
Proof.
  unfold frames_allocated, deleteFrame. intros H.
  destruct (Z.of_nat (length (frames s)) <=? 1); [exact H|].
  cbn [heap frames]. by apply Forall_filter_indexed.
Qed.

Lemma morphBetween_allocated (s : AppState) :
  frames_allocated s -> frames_allocated (morphBetween s).
Proof.
  unfold frames_allocated, morphBetween. intros H.
  destruct (Z.ltb_spec (Z.of_nat (length (frames s))) 3); [exact H|].
  destruct (frame_at (frames s) 0) as [first|] eqn:Hfirst; [|exact H].
  destruct (frame_at (frames s) (Z.of_nat (length (frames s)) - 1)) as [last|] eqn:Hlast;
    [|exact H].
  pose proof (length_morph_map first last (Z.of_nat (length (frames s))) (frames s) 0
                (heap s) (heap s)) as Hlen.
  destruct (morph_map first last (Z.of_nat (length (frames s))) (frames s) 0 (heap s) (heap s))
    as [heap' newFrames] eqn:Hmap.
  destruct (morph_map_spec _ _ _ _ _ _ _ _ _ Hmap) as [[ext Hext] Hpos].
  cbn [heap frames snd] in *. rewrite Forall_lookup in H.
  assert (Hf : (first < length (heap s))%nat).
  { unfold frame_at in Hfirst. destruct (0 <? 0); [done|]. eauto. }
  assert (Hl : (last < length (heap s))%nat).
  { unfold frame_at in Hlast. destruct (Z.of_nat (length (frames s)) - 1 <? 0); [done|]. eauto. }
  apply Forall_lookup. intros p r Hr.
  assert (Hp : (p < length (frames s))%nat) by (rewrite <- Hlen; by eapply lookup_lt_Some).
  destruct (Hpos p Hp) as (Hp0 & Hp1 & Hp2). rewrite Z.add_0_l in *.
  destruct (Z.eq_dec (Z.of_nat p) 0) as [E0|E0].
  { rewrite (Hp0 E0) in Hr. injection Hr as <-. rewrite Hext, length_app. lia. }
  destruct (Z.eq_dec (Z.of_nat p) (Z.of_nat (length (frames s)) - 1)) as [E1|E1].
  { rewrite (Hp1 E0 E1) in Hr. injection Hr as <-. rewrite Hext, length_app. lia. }
  destruct (Hp2 E0 E1) as (r' & Hr' & Hheap). rewrite Hr' in Hr. injection Hr as <-.
  by eapply lookup_lt_Some.
Qed.

(** Every operation of the store on the table keeps the cursor on a frame
    that exists: after Add Frame, Duplicate, Delete and Morph All, and after
    selecting a frame of the table, [frames[currentIndex]] is a frame, if it
    was one before. *)
Theorem store_operations_keep_current_frame (s : AppState) :
  cursor_valid s -> frames_allocated s ->
  (forall op, op ∈ [addFrame; duplicateFrame; deleteFrame; morphBetween] ->
     cursor_valid (op s) /\ frames_allocated (op s) /\
     exists buf, frame_contents (op s) (currentIndex (op s)) = Some buf) /\
  (forall i, 0 <= i < Z.of_nat (length (frames s)) ->
     exists buf, frame_contents (setCurrentIndex i s) (currentIndex (setCurrentIndex i s))
                 = Some buf).
Proof.
  intros Hvalid Halloc. split.
  - intros op Hop.
    assert (Hkeeps : cursor_valid (op s) /\ frames_allocated (op s)).
    { repeat (apply elem_of_cons in Hop as [->|Hop]).
      - split; [by apply addFrame_valid | by apply addFrame_allocated].
      - split; [by apply duplicateFrame_valid | by apply duplicateFrame_allocated].
      - split; [by apply deleteFrame_valid | by apply deleteFrame_allocated].
      - split; [by apply morphBetween_valid | by apply morphBetween_allocated].
      - by apply elem_of_nil in Hop. }
    destruct Hkeeps as [Hv Ha]. split; [exact Hv|]. split; [exact Ha|].
    by apply frame_contents_allocated.
  - intros i Hi. apply frame_contents_allocated; [exact Halloc | exact Hi].
Qed.

Lemma store_operations_keep_current_frame_witness :
  cursor_valid (initialState host_sin) /\
  frames_allocated (initialState host_sin) /\
  exists buf, frame_contents (addFrame (initialState host_sin))
                (currentIndex (addFrame (initialState host_sin))) = Some buf.
Proof.
  assert (H1 : cursor_valid (initialState host_sin)) by (unfold cursor_valid; cbn; lia).
  assert (H2 : frames_allocated (initialState host_sin)).
  { unfold frames_allocated. cbn [initialState heap frames length].
    apply Forall_singleton. lia. }
  split; [exact H1|]. split; [exact H2|].
  destruct (store_operations_keep_current_frame (initialState host_sin) H1 H2) as [Hops _].
  exact (proj2 (proj2 (Hops addFrame ltac:(apply list_elem_of_here)))).
Defined.

(** The frames of a morphed table of at least 3 frames. *)
Lemma morphBetween_contents (s : AppState) (A B : Float32Array) :
  let count := Z.of_nat (length (frames s)) in
  3 <= count ->
  frame_contents s 0 = Some A ->
  frame_contents s (count - 1) = Some B ->
  length (frames (morphBetween s)) = length (frames s) /\
  currentIndex (morphBetween s) = currentIndex s /\
  forall k, 0 <= k < count ->
    frame_contents (morphBetween s) k
    = Some (if k =? 0 then A
            else if k =? count - 1 then B
            else interpolateFrames A B (of_Z k / of_Z (count - 1))%num).
Proof.
  intros count Hge HA HB.
  destruct (frame_contents_deref s 0 A HA) as (first & Hfirst & HfA & HdA).
  destruct (frame_contents_deref s (count - 1) B HB) as (last & Hlast & HlB & HdB).
  unfold morphBetween. fold count.
  destruct (Z.ltb_spec count 3); [lia|]. rewrite Hfirst, Hlast.
  pose proof (length_morph_map first last count (frames s) 0 (heap s) (heap s)) as Hlen.
  destruct (morph_map first last count (frames s) 0 (heap s) (heap s))
    as [heap' newFrames] eqn:Hmap.
  destruct (morph_map_spec _ _ _ _ _ _ _ _ _ Hmap) as [[ext Hext] Hpos].
  cbn [snd] in Hlen. rewrite HdA, HdB in Hpos. cbn [frames currentIndex].
  split; [exact Hlen|]. split; [reflexivity|].
  intros k Hk. destruct (Hpos (Z.to_nat k) ltac:(lia)) as (Hp0 & Hp1 & Hp2).
  rewrite Z.add_0_l, Z2Nat.id in * by lia.
  unfold frame_contents, frame_at. cbn [frames heap].
  destruct (Z.ltb_spec k 0); [lia|].
  destruct (Z.eqb_spec k 0) as [E0|E0].
  { rewrite (Hp0 E0). simpl. rewrite Hext. by apply lookup_app_l_Some. }
  destruct (Z.eqb_spec k (count - 1)) as [E1|E1].
  { rewrite (Hp1 E0 E1). simpl. rewrite Hext. by apply lookup_app_l_Some. }
  destruct (Hp2 E0 E1) as (r & Hr & Hheap). rewrite Hr. exact Hheap.
Qed.

(** Morph All keeps the length of the table and the cursor, and a second
    Morph All changes the contents of no frame. *)
Theorem morphBetween_idempotent (s : AppState) :
  frames_allocated s ->
  length (frames (morphBetween s)) = length (frames s) /\
  currentIndex (morphBetween s) = currentIndex s /\
  forall i, frame_contents (morphBetween (morphBetween s)) i
            = frame_contents (morphBetween s) i.
Proof.
  intros Halloc.
  destruct (Z.ltb_spec (Z.of_nat (length (frames s))) 3) as [Hlt|Hge].
  { assert (Hid : morphBetween s = s).
    { unfold morphBetween. destruct (Z.ltb_spec (Z.of_nat (length (frames s))) 3);
        [reflexivity | lia]. }
    rewrite !Hid. by repeat split. }
  destruct (frame_contents_allocated s 0 Halloc ltac:(lia)) as [A HA].
  destruct (frame_contents_allocated s (Z.of_nat (length (frames s)) - 1) Halloc ltac:(lia))
    as [B HB].
  destruct (morphBetween_contents s A B Hge HA HB) as (Hlen & Hcur & Hk).
  split; [exact Hlen|]. split; [exact Hcur|].
  assert (HA' : frame_contents (morphBetween s) 0 = Some A) by (rewrite Hk by lia; reflexivity).
  assert (HB' : frame_contents (morphBetween s) (Z.of_nat (length (frames (morphBetween s))) - 1)
                = Some B).
  { rewrite Hlen, Hk by lia.
    destruct (Z.eqb_spec (Z.of_nat (length (frames s)) - 1) 0); [lia|].
    by rewrite Z.eqb_refl. }
  destruct (morphBetween_contents (morphBetween s) A B ltac:(rewrite Hlen; lia) HA' HB')
    as (Hlen2 & _ & Hk2).
  intros i. destruct (decide (0 <= i < Z.of_nat (length (frames s)))) as [Hi|Hi].
  - rewrite Hk2, Hk, Hlen by (rewrite ?Hlen; lia). reflexivity.
  - unfold frame_contents, frame_at.
    destruct (Z.ltb_spec i 0); [reflexivity|].
    rewrite !lookup_ge_None_2 by lia. reflexivity.
Qed.

Lemma morphBetween_idempotent_witness :
  frames_allocated five_frames /\
  frame_contents (morphBetween (morphBetween five_frames)) 2
  = frame_contents (morphBetween five_frames) 2.
Proof.
  assert (H : frames_allocated five_frames).
  { unfold frames_allocated, five_frames. cbn [heap frames length].
    repeat (apply Forall_cons_2; [lia|]). apply Forall_nil_2. }
  split; [exact H|].
  exact (proj2 (proj2 (morphBetween_idempotent five_frames H)) 2).
Defined.

Lemma scan_tick_iter (len0 : Z) (s : AppState) (k : nat) :
  0 < len0 -> 0 <= currentIndex s ->
  Nat.iter k (scan_tick len0) s
  = setCurrentIndex (if k is O then currentIndex s
                     else (currentIndex s + Z.of_nat k) mod len0) s.
Proof.
  intros Hlen Hc. induction k as [|k IH].
  - destruct s; reflexivity.
  - rewrite Nat.iter_succ, IH. unfold scan_tick, setCurrentIndex. cbn [heap frames currentIndex].
    f_equal. rewrite Z.rem_mod_nonneg.
    + destruct k as [|k]; [f_equal; lia|].
      rewrite Zplus_mod_idemp_l. f_equal. lia.
    + destruct k; [lia|]. pose proof (Z.mod_pos_bound (currentIndex s + Z.of_nat (S k)) len0).
      lia.
    + lia.
Qed.

(** A tick of the scan timer moves the cursor to the next frame and wraps
    from the last scanned frame to the first. As long as the table is no
    shorter than it was when the scan was started the cursor stays on a
    frame of the table, and after as many ticks as frames were scanned it is
    back where it was. *)
Theorem scan_tick_cycles (frames_length : Z) (s : AppState) :
  0 < frames_length <= Z.of_nat (length (frames s)) ->
  cursor_valid s ->
  cursor_valid (scan_tick frames_length s) /\
  frames (scan_tick frames_length s) = frames s /\
  currentIndex (scan_tick frames_length s) = (currentIndex s + 1) mod frames_length /\
  (currentIndex s = frames_length - 1 -> currentIndex (scan_tick frames_length s) = 0) /\
  (currentIndex s < frames_length ->
   Nat.iter (Z.to_nat frames_length) (scan_tick frames_length) s = s).
Proof.
  intros Hlen Hvalid. unfold cursor_valid in *.
  assert (Hrem : Z.rem (currentIndex s + 1) frames_length
                 = (currentIndex s + 1) mod frames_length)
    by (apply Z.rem_mod_nonneg; lia).
  pose proof (Z.mod_pos_bound (currentIndex s + 1) frames_length ltac:(lia)) as Hbound.
  assert (Htick : scan_tick frames_length s
                  = setCurrentIndex ((currentIndex s + 1) mod frames_length) s)
    by (unfold scan_tick; by rewrite Hrem).
  rewrite !Htick. cbn [setCurrentIndex frames currentIndex].
  split; [lia|]. split; [reflexivity|]. split; [reflexivity|]. split.
  - intros ->. replace (frames_length - 1 + 1) with (1 * frames_length) by lia.
    apply Z.mod_mul. lia.
  - intros Hc. rewrite scan_tick_iter by lia.
    destruct (Z.to_nat frames_length) as [|k] eqn:Hk; [lia|]. rewrite <- Hk.
    rewrite Z2Nat.id by lia.
    replace (currentIndex s + frames_length) with (currentIndex s + 1 * frames_length) by lia.
    rewrite Z.mod_add, Z.mod_small by lia. by destruct s.
Qed.

Lemma scan_tick_cycles_witness :
  0 < 2 <= Z.of_nat (length (frames (addFrame (initialState host_sin)))) /\
  cursor_valid (addFrame (initialState host_sin)) /\
  currentIndex (scan_tick 2 (addFrame (initialState host_sin))) = 0.
Proof.
  assert (H1 : 0 < 2 <= Z.of_nat (length (frames (addFrame (initialState host_sin)))))
    by (unfold addFrame, initialState, MAX_FRAMES; simpl; lia).
  assert (H2 : cursor_valid (addFrame (initialState host_sin)))
    by (unfold cursor_valid, addFrame, initialState, MAX_FRAMES; simpl; lia).
  split; [exact H1|]. split; [exact H2|].
  destruct (scan_tick_cycles 2 (addFrame (initialState host_sin)) H1 H2)
    as (_ & _ & _ & Hwrap & _).
  apply Hwrap. reflexivity.
Defined.

(** ** The exported file *)

(** *** Frames of any length *)

Lemma frame_reads_short (frame : Float32Array) :
  f32_array_valid frame -> (length frame <= Z.to_nat FRAME_SIZE)%nat ->
  frame_reads frame = frame ++ replicate (Z.to_nat FRAME_SIZE - length frame) NaN.
Proof.
  intros Hvalid Hlen. apply list_eq. intros k. unfold frame_reads.
  rewrite list_lookup_fmap.
  destruct (decide (k < Z.to_nat FRAME_SIZE)%nat) as [Hk|Hk].
  - rewrite lookup_seqZ_lt by lia. cbn [fmap option_fmap option_map]. rewrite Z.add_0_l.
    destruct (frame !! k) as [x|] eqn:Hx.
    + rewrite (f32_get_lookup _ _ _ Hx), of_num_to_num
        by (unfold f32_array_valid in Hvalid; rewrite Forall_lookup in Hvalid; eauto).
      symmetry. by apply lookup_app_l_Some.
    + apply lookup_ge_None_1 in Hx.
      rewrite lookup_app_r, lookup_replicate_2 by lia.
      unfold f32_get. destruct (Z.ltb_spec (Z.of_nat k) 0); [lia|].
      by rewrite Nat2Z.id, lookup_ge_None_2 by lia.
  - rewrite lookup_seqZ_ge by lia. symmetry. apply lookup_ge_None_2.
    rewrite length_app, length_replicate. lia.
Qed.

Lemma frame_reads_take (frame : Float32Array) :
  frame_reads frame = frame_reads (take (Z.to_nat FRAME_SIZE) frame).
Proof.
  unfold frame_reads. apply list_eq. intros k. rewrite !list_lookup_fmap.
  destruct (decide (k < Z.to_nat FRAME_SIZE)%nat) as [Hk|Hk].
  - rewrite lookup_seqZ_lt by lia. cbn [fmap option_fmap option_map]. do 2 f_equal.
    unfold f32_get. destruct (Z.ltb_spec (0 + Z.of_nat k) 0); [reflexivity|].
    by rewrite lookup_take_lt by lia.
  - by rewrite lookup_seqZ_ge by lia.
Qed.

(** The encoder never throws, whatever the frames are: the file has the 44
    bytes of the header and [4 * FRAME_SIZE] bytes for each frame. The
    samples of a frame beyond [FRAME_SIZE] are left out, and the samples a
    shorter frame does not have are written as NaN, in the encoding the
    host has for it. *)
Theorem export_reads_every_frame (NaN_bits : Z -> Z) (frames : list Float32Array) :
  let dataSize := Z.of_nat (length frames) * 2048 * 4 in
  exportWavetableToWav NaN_bits frames
  = Normal (wav_header_spec dataSize
            ++ wav_samples_from NaN_bits 44 (frames ≫= frame_reads)) /\
  Z.of_nat (length (wav_header_spec dataSize
                    ++ wav_samples_from NaN_bits 44 (frames ≫= frame_reads)))
  = 44 + dataSize /\
  (forall frame, frame_reads frame = frame_reads (take (Z.to_nat FRAME_SIZE) frame)) /\
  (forall frame, f32_array_valid frame -> (length frame <= Z.to_nat FRAME_SIZE)%nat ->
     frame_reads frame = frame ++ replicate (Z.to_nat FRAME_SIZE - length frame) NaN) /\
  (forall offset, wav_samples_from NaN_bits offset [NaN] = le_bytes 4 (NaN_bits offset)).
Proof.
  intros dataSize. split; [apply exportWavetableToWav_reads|]. split; [|split; [|split]].
  - rewrite length_app, length_wav_header_spec, length_wav_samples_from, length_frames_reads.
    unfold dataSize, FRAME_SIZE. lia.
  - apply frame_reads_take.
  - apply frame_reads_short.
  - intros offset. cbn [wav_samples_from]. apply app_nil_r.
Qed.

Lemma export_reads_every_frame_witness :
  f32_array_valid [S754_zero true] /\
  (length [S754_zero true] <= Z.to_nat FRAME_SIZE)%nat /\
  take 2 (frame_reads [S754_zero true]) = [S754_zero true; NaN].
Proof.
  assert (H1 : f32_array_valid [S754_zero true]) by (apply Forall_singleton; reflexivity).
  assert (H2 : (length [S754_zero true] <= Z.to_nat FRAME_SIZE)%nat)
    by (unfold FRAME_SIZE; simpl; lia).
  split; [exact H1|]. split; [exact H2|].
  destruct (export_reads_every_frame (fun _ => 0) []) as (_ & _ & _ & Hshort & _).
  rewrite (Hshort [S754_zero true] H1 H2). reflexivity.
Defined.

(** *** Reading a file back *)

Lemma read_frames_written (NaN_bits : Z -> Z) (offset : Z) (frames : list Float32Array) :
  (forall o, F32.is_nan_bits (NaN_bits o)) ->
  Forall (fun frame => length frame = Z.to_nat FRAME_SIZE /\ f32_array_valid frame) frames ->
  read_frames (length frames) (wav_samples_from NaN_bits offset (concat frames)) = frames.
Proof.
  intros Hnan Hframes. revert offset.
  induction Hframes as [|frame frames [Hlen Hvalid] _ IH]; intros offset; [done|].
  cbn [length read_frames concat]. rewrite wav_samples_from_app.
  assert (Hbytes : length (wav_samples_from NaN_bits offset frame) = Z.to_nat (4 * FRAME_SIZE)).
  { rewrite length_wav_samples_from, Hlen. unfold FRAME_SIZE. lia. }
  rewrite take_app_length', drop_app_length' by (symmetry; exact Hbytes).
  rewrite IH. f_equal. rewrite <- Hlen.
  rewrite <- (app_nil_r (wav_samples_from NaN_bits offset frame)).
  by apply read_samples_written.
Qed.

(** The size fields of the header, read as numbers. *)
Lemma wav_header_sizes (dataSize : Z) (samples : list Z) :
  of_le_bytes (take 4 (drop 4 (wav_header_spec dataSize ++ samples)))
  = (36 + dataSize) mod 2 ^ 32 /\
  of_le_bytes (take 4 (drop 40 (wav_header_spec dataSize ++ samples)))
  = dataSize mod 2 ^ 32.
Proof.
  unfold wav_header_spec. split.
  - cbn [app drop]. rewrite <- app_assoc, drop_0.
    rewrite take_app_length' by (symmetry; apply length_le_bytes).
    apply (of_le_bytes_le_bytes 4).
  - rewrite !app_assoc. rewrite <- (app_assoc _ (le_bytes 4 dataSize) samples).
    rewrite drop_app_length'
      by (rewrite !length_app, !length_le_bytes; reflexivity).
    rewrite take_app_length' by (symmetry; apply length_le_bytes).
    apply (of_le_bytes_le_bytes 4).
Qed.

Lemma wav_read_exported (NaN_bits : Z -> Z) (frames : list Float32Array) :
  (forall o, F32.is_nan_bits (NaN_bits o)) ->
  Forall (fun frame => length frame = Z.to_nat FRAME_SIZE /\ f32_array_valid frame) frames ->
  Z.of_nat (length frames) * 2048 * 4 < 2 ^ 32 ->
  exists file, exportWavetableToWav NaN_bits frames = Normal file /\ wav_read file = frames.
Proof.
  intros Hnan Hframes Hsize. eexists. split; [apply exportWavetableToWav_reads|].
  unfold wav_read. rewrite (proj2 (wav_header_sizes _ _)).
  rewrite Z.mod_small by lia.
  replace (Z.of_nat (length frames) * 2048 * 4 / (4 * FRAME_SIZE))
    with (Z.of_nat (length frames))
    by (unfold FRAME_SIZE; rewrite <- Z.mul_assoc, Z.div_mul; lia).
  rewrite Nat2Z.id.
  rewrite drop_app_length' by (symmetry; apply length_wav_header_spec).
  rewrite frames_reads_full by exact Hframes.
  by apply read_frames_written.
Qed.

(** Nothing is lost in the file: a reader that takes the size of the data
    from the header and decodes the samples gets the frames back, so
    different tables give different files. *)
Theorem export_then_read (NaN_bits : Z -> Z) (frames : list Float32Array) :
  (forall offset, F32.is_nan_bits (NaN_bits offset)) ->
  Forall (fun frame => length frame = Z.to_nat FRAME_SIZE /\ f32_array_valid frame) frames ->
  Z.of_nat (length frames) * 2048 * 4 < 2 ^ 32 ->
  (exists file, exportWavetableToWav NaN_bits frames = Normal file /\ wav_read file = frames) /\
  (forall frames',
     Forall (fun frame => length frame = Z.to_nat FRAME_SIZE /\ f32_array_valid frame) frames' ->
     Z.of_nat (length frames') * 2048 * 4 < 2 ^ 32 ->
     exportWavetableToWav NaN_bits frames' = exportWavetableToWav NaN_bits frames ->
     frames' = frames).
Proof.
  intros Hnan Hframes Hsize.
  split; [by apply wav_read_exported|].
  intros frames' Hframes' Hsize' Heq.
  destruct (wav_read_exported NaN_bits frames Hnan Hframes Hsize) as (file & Hfile & Hback).
  destruct (wav_read_exported NaN_bits frames' Hnan Hframes' Hsize') as (file' & Hfile' & Hback').
  rewrite Hfile, Hfile' in Heq. injection Heq as ->. congruence.
Qed.

Lemma export_then_read_witness :
  (forall offset : Z, F32.is_nan_bits 2143289344) /\
  Forall (fun frame => length frame = Z.to_nat FRAME_SIZE /\ f32_array_valid frame)
    [new_Float32Array FRAME_SIZE] /\
  Z.of_nat (length [new_Float32Array FRAME_SIZE]) * 2048 * 4 < 2 ^ 32 /\
  exists file, exportWavetableToWav (fun _ => 2143289344) [new_Float32Array FRAME_SIZE]
               = Normal file /\
               wav_read file = [new_Float32Array FRAME_SIZE].
Proof.
  assert (H0 : forall offset : Z, F32.is_nan_bits 2143289344).
  { intros _. unfold F32.is_nan_bits. split; [lia|]. split; [reflexivity | discriminate]. }
  assert (H1 : Forall (fun frame => length frame = Z.to_nat FRAME_SIZE
                                    /\ f32_array_valid frame)
                 [new_Float32Array FRAME_SIZE]).
  { apply Forall_cons_2; [|apply Forall_nil_2].
    split; [apply length_replicate | apply Forall_replicate; reflexivity]. }
  assert (H2 : Z.of_nat (length [new_Float32Array FRAME_SIZE]) * 2048 * 4 < 2 ^ 32)
    by (simpl; lia).
  split; [exact H0|]. split; [exact H1|]. split; [exact H2|].
  exact (proj1 (export_then_read (fun _ => 2143289344) [new_Float32Array FRAME_SIZE] H0 H1 H2)).
Defined.

(** The two size fields of the header hold the length of the file less 8
    and less 44, as long as the table has at most 524287 frames; they are
    32-bit fields and wrap around beyond that. *)
Theorem export_size_fields (NaN_bits : Z -> Z) (frames : list Float32Array) :
  exists file,
    exportWavetableToWav NaN_bits frames = Normal file /\
    of_le_bytes (take 4 (drop 4 file)) = (Z.of_nat (length file) - 8) mod 2 ^ 32 /\
    of_le_bytes (take 4 (drop 40 file)) = (Z.of_nat (length file) - 44) mod 2 ^ 32 /\
    (Z.of_nat (length frames) <= 524287 ->
     of_le_bytes (take 4 (drop 4 file)) = Z.of_nat (length file) - 8 /\
     of_le_bytes (take 4 (drop 40 file)) = Z.of_nat (length file) - 44).
Proof.
  eexists. split; [apply exportWavetableToWav_reads|].
  destruct (wav_header_sizes (Z.of_nat (length frames) * 2048 * 4)
              (wav_samples_from NaN_bits 44 (frames ≫= frame_reads))) as [Hriff Hdata].
  rewrite Hriff, Hdata, length_app, length_wav_header_spec, length_wav_samples_from,
    length_frames_reads.
  replace (Z.of_nat (44 + 4 * (Z.to_nat FRAME_SIZE * length frames)) - 8)
    with (36 + Z.of_nat (length frames) * 2048 * 4) by (unfold FRAME_SIZE; lia).
  replace (Z.of_nat (44 + 4 * (Z.to_nat FRAME_SIZE * length frames)) - 44)
    with (Z.of_nat (length frames) * 2048 * 4) by (unfold FRAME_SIZE; lia).
  split; [reflexivity|]. split; [reflexivity|].
  intros Hn. rewrite !Z.mod_small by lia. by split.
Qed.

Lemma export_size_fields_witness :
  Z.of_nat (length [new_Float32Array FRAME_SIZE]) <= 524287 /\
  exists file,
    exportWavetableToWav (fun _ => 2143289344) [new_Float32Array FRAME_SIZE] = Normal file /\
    of_le_bytes (take 4 (drop 40 file)) = Z.of_nat (length file) - 44.
Proof.
  assert (H : Z.of_nat (length [new_Float32Array FRAME_SIZE]) <= 524287) by (simpl; lia).
  split; [exact H|].
  destruct (export_size_fields (fun _ => 2143289344) [new_Float32Array FRAME_SIZE])
    as (file & Hfile & _ & _ & Hfit).
  exists file. split; [exact Hfile|]. exact (proj2 (Hfit H)).
Defined.

(** ** The generators *)

Lemma for_range_try_inv {S : Type} (P : S -> Prop) (n : nat) (i : Z)
    (body : Z -> S -> completion S) (s r : S) :
  P s ->
  (forall j t t', P t -> body j t = Normal t' -> P t') ->
  for_range_try n i body s = Normal r -> P r.
Proof.
  intros Hs Hstep. revert i s Hs. induction n as [|n IH]; intros i s Hs Hr.
  - cbn in Hr. by injection Hr as <-.
  - cbn [for_range_try] in Hr. destruct (body i s) as [s'|] eqn:Hbody; [|done].
    rewrite bind_Normal in Hr. eapply IH; [|exact Hr]. by eapply Hstep.
Qed.

Lemma f32_set_valid (buffer : Float32Array) (i : Z) (v : num) :
  f32_array_valid buffer -> f32_array_valid (f32_set buffer i v).
Proof.
  intros H. unfold f32_set. destruct (i <? 0); [exact H|].
  destruct (decide (Z.to_nat i < length buffer)%nat).
  - apply Forall_insert; [exact H | apply of_num_valid].
  - by rewrite list_insert_ge by lia.
Qed.

Lemma for_range_set_valid (F : Z -> Float32Array -> num) (n : nat) (i : Z)
    (buffer : Float32Array) :
  f32_array_valid buffer ->
  f32_array_valid (for_range n i (fun j b => f32_set b j (F j b)) buffer).
Proof.
  intros H.
  apply (for_range_inv (fun _ b => f32_array_valid b) n i _ buffer H).
  intros j t _ Ht. by apply f32_set_valid.
Qed.

Lemma is_frame_new : is_frame (new_Float32Array FRAME_SIZE).
Proof. split; [apply length_new_Float32Array | apply new_Float32Array_valid]. Qed.

Lemma for_range_set_is_frame (F : Z -> Float32Array -> num) (n : nat) (i : Z)
    (buffer : Float32Array) :
  is_frame buffer -> is_frame (for_range n i (fun j b => f32_set b j (F j b)) buffer).
Proof.
  intros [Hlen Hvalid]. split; [by rewrite length_for_range_set | by apply for_range_set_valid].
Qed.

Lemma normalizeBuffer_shape (buffer : Float32Array) :
  length (normalizeBuffer buffer) = length buffer /\
  (f32_array_valid buffer -> f32_array_valid (normalizeBuffer buffer)).
Proof.
  unfold normalizeBuffer.
  match goal with |- context [gtb ?m lit_0_0001] => destruct (gtb m lit_0_0001) end;
    [|by split].
  match goal with |- context [(one / ?m)%num] => set (scaler := (one / m)%num) end.
  split.
  - exact (length_for_range_set (fun j b => (f32_get b j * scaler)%num) _ _ _).
  - exact (for_range_set_valid (fun j b => (f32_get b j * scaler)%num) _ _ _).
Qed.

Section Shapes.

Variable Math_sin : num -> num.
Variable new_Function : string -> option jsfun.

Lemma generateSine_is_frame : is_frame (generateSine Math_sin).
Proof.
  unfold generateSine.
  exact (for_range_set_is_frame
           (fun i _ => Math_sin ((of_Z i / of_Z FRAME_SIZE) * PI * two)%num)
           _ _ _ is_frame_new).
Qed.

Lemma generateSaw_is_frame : is_frame generateSaw.
Proof.
  unfold generateSaw.
  exact (for_range_set_is_frame
           (fun i _ => (one - (two * of_Z i) / of_Z FRAME_SIZE)%num)
           _ _ _ is_frame_new).
Qed.

Lemma interpolateFrames_is_frame (frameA frameB : Float32Array) (mix : num) :
  is_frame (interpolateFrames frameA frameB mix).
Proof.
  unfold interpolateFrames.
  exact (for_range_set_is_frame
           (fun i _ => (f32_get frameA i * (one - mix) + f32_get frameB i * mix)%num)
           _ _ _ is_frame_new).
Qed.

Lemma generateFromFormula_is_frame (formula : string) :
  is_frame (generateFromFormula Math_sin new_Function formula).1.
Proof.
  unfold generateFromFormula.
  destruct (formula_try new_Function formula (new_Float32Array FRAME_SIZE))
    as [buffer|] eqn:Htry; cbn [fst]; [|apply generateSine_is_frame].
  unfold formula_try in Htry. destruct (new_Function formula) as [func|]; [|done].
  rewrite bind_Normal in Htry.
  apply (for_range_try_inv is_frame _ _ _ _ _ is_frame_new) in Htry; [exact Htry|].
  intros j t t' [Hlen Hvalid] Hbody. unfold formula_sample in Hbody.
  destruct (formula_call func j) as [val|]; [|done].
  rewrite bind_Normal in Hbody. injection Hbody as <-.
  split; [by rewrite length_f32_set | by apply f32_set_valid].
Qed.

Lemma add_harmonic_is_frame (amp harmonicNum : num) (buffer : Float32Array) :
  is_frame buffer -> is_frame (add_harmonic Math_sin amp harmonicNum buffer).
Proof.
  unfold add_harmonic.
  exact (for_range_set_is_frame
           (fun i b => (f32_get b i
                        + amp * Math_sin ((of_Z i / of_Z FRAME_SIZE) * PI * two
                                          * harmonicNum))%num) _ _ _).
Qed.

Lemma harmonics_loop_is_frame (harmonics : list num) (h : Z) (buffer : Float32Array) :
  is_frame buffer -> is_frame (harmonics_loop Math_sin harmonics h buffer).
Proof.
  revert h buffer. induction harmonics as [|amp rest IH]; intros h buffer Hb; [exact Hb|].
  cbn [harmonics_loop]. destruct (eqb amp zero); [by apply IH|].
  cbv zeta. by apply IH, add_harmonic_is_frame.
Qed.

Lemma normalizeBuffer_is_frame (buffer : Float32Array) :
  is_frame buffer -> is_frame (normalizeBuffer buffer).
Proof.
  intros [Hlen Hvalid]. destruct (normalizeBuffer_shape buffer) as [Hl Hv].
  split; [by rewrite Hl | by apply Hv].
Qed.

Lemma generateFromHarmonics_is_frame (harmonics : list num) :
  is_frame (generateFromHarmonics Math_sin harmonics).
Proof. apply normalizeBuffer_is_frame, harmonics_loop_is_frame, is_frame_new. Qed.

End Shapes.

(** Every generator returns a frame, [FRAME_SIZE] binary32 samples, whatever
    its arguments are: the formula generator for every formula, built or
    not, throwing or not, the harmonic generator for every list of
    amplitudes, and the crossfade for buffers of any length. The normaliser
    keeps the length of its buffer. *)
Theorem generators_return_frames (Math_sin : num -> num)
    (new_Function : string -> option jsfun) :
  is_frame (generateSine Math_sin) /\
  is_frame generateSaw /\
  (forall formula, is_frame (generateFromFormula Math_sin new_Function formula).1) /\
  (forall harmonics, is_frame (generateFromHarmonics Math_sin harmonics)) /\
  (forall frameA frameB mix, is_frame (interpolateFrames frameA frameB mix)) /\
  (forall buffer, length (normalizeBuffer buffer) = length buffer /\
                  (f32_array_valid buffer -> f32_array_valid (normalizeBuffer buffer))).
Proof.
  split; [apply generateSine_is_frame|]. split; [apply generateSaw_is_frame|].
  split; [apply generateFromFormula_is_frame|].
  split; [apply generateFromHarmonics_is_frame|].
  split; [apply interpolateFrames_is_frame | apply normalizeBuffer_shape].
Qed.

(** *** The normaliser *)

Lemma normalizeBuffer_peak (buffer : Float32Array) :
  normalizeBuffer buffer
  = if gtb (peak buffer) lit_0_0001 then
      for_range (length buffer) 0
        (fun i b => f32_set b i (f32_get b i * (one / peak buffer))%num) buffer
    else buffer.
Proof. reflexivity. Qed.

Lemma peak_quiet (buffer : Float32Array) :
  Forall (fun x => gtb (Num.abs (F32.to_num x)) lit_0_0001 = false) buffer ->
  gtb (peak buffer) lit_0_0001 = false.
Proof.
  intros Hquiet. unfold peak.
  apply (for_range_inv (fun _ m => gtb m lit_0_0001 = false)); [reflexivity|].
  intros j m Hj Hm. cbv zeta.
  destruct (gtb (Num.abs (f32_get buffer j)) m); [|exact Hm].
  unfold f32_get. destruct (Z.ltb_spec j 0); [lia|].
  destruct (buffer !! Z.to_nat j) as [x|] eqn:Hx; [|reflexivity].
  rewrite Forall_lookup in Hquiet. by eapply Hquiet.
Qed.

(** A buffer with no sample above 0.0001 in absolute value is returned as
    it is, nothing is divided by a peak of 0: silence stays silence, and so
    does the empty buffer. *)
Theorem normalizeBuffer_leaves_quiet (buffer : Float32Array) :
  Forall (fun x => gtb (Num.abs (F32.to_num x)) lit_0_0001 = false) buffer ->
  normalizeBuffer buffer = buffer.
Proof. intros Hquiet. by rewrite normalizeBuffer_peak, peak_quiet. Qed.

Lemma normalizeBuffer_leaves_quiet_witness :
  Forall (fun x => gtb (Num.abs (F32.to_num x)) lit_0_0001 = false)
    (new_Float32Array FRAME_SIZE) /\
  normalizeBuffer (new_Float32Array FRAME_SIZE) = new_Float32Array FRAME_SIZE.
Proof.
  assert (H : Forall (fun x => gtb (Num.abs (F32.to_num x)) lit_0_0001 = false)
                (new_Float32Array FRAME_SIZE))
    by (apply Forall_replicate; reflexivity).
  split; [exact H | exact (normalizeBuffer_leaves_quiet _ H)].
Defined.

Lemma lookup_generateSaw (i : Z) :
  0 <= i < FRAME_SIZE ->
  generateSaw !! Z.to_nat i = Some (F32.of_num (one - two * of_Z i / of_Z FRAME_SIZE)%num).
Proof.
  intros Hi. unfold generateSaw.
  rewrite (for_range_fill (fun i => (one - two * of_Z i / of_Z FRAME_SIZE)%num))
    by (rewrite ?length_new_Float32Array; lia).
  by rewrite Z2Nat.id by lia.
Qed.

(** The sawtooth is exact: sample [i] is the number [1 - i / 1024], with no
    rounding error. It starts at 1, goes down by 1/1024 from each sample to
    the next, and ends at -1023/1024. *)
Theorem generateSaw_exact (i : Z) :
  0 <= i < FRAME_SIZE ->
  exists x q,
    generateSaw !! Z.to_nat i = Some x /\
    to_Q x = Some q /\
    (q == 1 - inject_Z i / 1024)%Q.
Proof.
  intros Hi. rewrite lookup_generateSaw by exact Hi.
  assert (H : match to_Q (F32.of_num (one - two * of_Z i / of_Z FRAME_SIZE)%num) with
              | Some q => Qeq_bool q (1 - inject_Z i / 1024)
              | None => false
              end = true).
  { revert i Hi. apply (proj1 (Forall_seqZ _ 0 FRAME_SIZE)).
    apply (bool_decide_unpack _). vm_compute. exact I. }
  destruct (to_Q (F32.of_num (one - two * of_Z i / of_Z FRAME_SIZE)%num)) as [q|] eqn:Hq;
    [|done].
  eexists _, q. split; [reflexivity|]. split; [exact Hq|]. by apply Qeq_bool_eq.
Qed.

Lemma generateSaw_exact_witness :
  0 <= 0 < FRAME_SIZE /\
  exists x q, generateSaw !! 0%nat = Some x /\ to_Q x = Some q /\ (q == 1 - inject_Z 0 / 1024)%Q.
Proof.
  assert (H : 0 <= 0 < FRAME_SIZE) by (unfold FRAME_SIZE; lia).
  split; [exact H | exact (generateSaw_exact 0 H)].
Defined.

(** *** The harmonic editor *)

Section HarmonicEditor.

Variable Math_sin : num -> num.

Lemma harmonics_loop_skips (harmonics : list num) (h : Z) (buffer : Float32Array) :
  Forall (fun amp => eqb amp zero = true) harmonics ->
  harmonics_loop Math_sin harmonics h buffer = buffer.
Proof.
  intros Hzero. revert h. induction Hzero as [|amp rest Hamp _ IH]; intros h; [done|].
  cbn [harmonics_loop]. rewrite Hamp. apply IH.
Qed.

Lemma of_num_same (x y : num) : same_value x y -> same_value (F32.of_num x) (F32.of_num y).
Proof.
  intros [->|[Hx Hy]]; [by left|]. right.
  by destruct x, y.
Qed.

Lemma zero_add_same (x : num) : same_value (zero + x)%num x.
Proof. destruct x as [[]|[]| |s m e]; (by left) || (by right). Qed.

Lemma harmonics_loop_cons (amp : num) (rest : list num) (h : Z) (buffer : Float32Array) :
  eqb amp zero = false ->
  harmonics_loop Math_sin (amp :: rest) h buffer
  = harmonics_loop Math_sin rest (h + 1) (add_harmonic Math_sin amp (of_Z (h + 1)) buffer).
Proof. intros H. cbn [harmonics_loop]. by rewrite H. Qed.

Lemma initial_harmonics_eq : initial_harmonics = one :: replicate 15 zero.
Proof. reflexivity. Qed.

Lemma add_harmonic_fundamental (k : nat) :
  (forall i, 0 <= i < FRAME_SIZE ->
     num_valid (of_Z i / of_Z FRAME_SIZE * PI * two)%num) ->
  (forall i, 0 <= i < FRAME_SIZE ->
     num_valid (Math_sin (of_Z i / of_Z FRAME_SIZE * PI * two)%num)) ->
  (k < Z.to_nat FRAME_SIZE)%nat ->
  exists x y,
    add_harmonic Math_sin one (of_Z (0 + 1)) (new_Float32Array FRAME_SIZE) !! k = Some x /\
    generateSine Math_sin !! k = Some y /\ same_value x y.
Proof.
  intros Hphase Hsin Hk.
  assert (Hi : 0 <= Z.of_nat k < FRAME_SIZE) by lia.
  eexists _, _. split; [|split].
  - unfold add_harmonic.
    rewrite (for_range_elementwise
               (fun i v => (v + one * Math_sin (of_Z i / of_Z FRAME_SIZE * PI * two
                                               * of_Z (0 + 1)))%num)) by lia.
    rewrite decide_True by lia.
    unfold new_Float32Array. rewrite lookup_replicate_2 by lia. reflexivity.
  - unfold generateSine.
    rewrite (for_range_fill (fun i => Math_sin (of_Z i / of_Z FRAME_SIZE * PI * two)%num))
      by (rewrite ?length_new_Float32Array; lia).
    reflexivity.
  - apply of_num_same. change (of_Z (0 + 1)) with one.
    rewrite mul_one_r by (apply Hphase, Hi).
    rewrite mul_one_l by (apply Hsin, Hi).
    apply zero_add_same.
Qed.


(** With every amplitude 0 (or -0) no partial is added, and the result is
    the zero-filled buffer: silence, not a division by a peak of 0. The
    same holds for an empty list of amplitudes. *)
Theorem generateFromHarmonics_silence (harmonics : list num) :
  Forall (fun amp => eqb amp zero = true) harmonics ->
  generateFromHarmonics Math_sin harmonics = new_Float32Array FRAME_SIZE.
Proof.
  intros Hzero. unfold generateFromHarmonics. cbv zeta.
  rewrite harmonics_loop_skips by exact Hzero.
  apply normalizeBuffer_leaves_quiet. apply Forall_replicate. reflexivity.
Qed.

Lemma phase_valid (i : Z) :
  0 <= i < FRAME_SIZE -> num_valid (of_Z i / of_Z FRAME_SIZE * PI * two)%num.
Proof.
  intros Hi. apply mul_valid; [apply mul_valid|]; [|reflexivity|reflexivity].
  revert i Hi. apply (proj1 (Forall_seqZ _ 0 FRAME_SIZE)).
  apply (bool_decide_unpack _). vm_compute. exact I.
Qed.

(** The amplitudes the harmonic editor starts with, and goes back to on
    Reset, give the normalised sine: only the fundamental is added, with
    amplitude 1, to a buffer of zeros. The samples are the same as numbers. *)
Theorem initial_harmonics_give_sine :
  (forall x, num_valid x -> num_valid (Math_sin x)) ->
  Forall2 same_value
    (generateFromHarmonics Math_sin initial_harmonics)
    (normalizeBuffer (generateSine Math_sin)).
Proof.
  intros Hsin.
  unfold generateFromHarmonics. cbv zeta. apply normalizeBuffer_same.
  rewrite initial_harmonics_eq, harmonics_loop_cons by reflexivity.
  rewrite harmonics_loop_skips by (apply Forall_replicate; reflexivity).
  apply Forall2_same_length_lookup_2.
  - destruct (add_harmonic_is_frame Math_sin one (of_Z (0 + 1)) _ is_frame_new) as [-> _].
    by destruct (generateSine_is_frame Math_sin) as [-> _].
  - intros k x y Hx Hy.
    assert (Hk : (k < Z.to_nat FRAME_SIZE)%nat).
    { apply lookup_lt_Some in Hy.
      by destruct (generateSine_is_frame Math_sin) as [<- _]. }
    destruct (add_harmonic_fundamental k phase_valid
                (fun i Hi => Hsin _ (phase_valid i Hi)) Hk)
      as (x' & y' & Hx' & Hy' & Hsame).
    congruence.
Qed.

End HarmonicEditor.

Lemma host_sin_valid (x : num) : num_valid x -> num_valid (host_sin x).
Proof.
  intros Hx. unfold host_sin.
  destruct (Num.floor (x * inv_two_pi + one_half)%num) as [k|]; [|reflexivity].
  apply mul_valid; [|apply sub_valid; [reflexivity|apply mul_valid; [reflexivity|apply abs_valid]]];
    (apply sub_valid; [exact Hx|apply mul_valid; [apply of_Z_valid|reflexivity]]).
Qed.

Lemma generateFromHarmonics_silence_witness :
  Forall (fun amp => eqb amp zero = true) [zero; S754_zero true] /\
  generateFromHarmonics host_sin [zero; S754_zero true] = new_Float32Array FRAME_SIZE.
Proof.
  assert (H : Forall (fun amp => eqb amp zero = true) [zero; S754_zero true])
    by (repeat (apply Forall_cons_2; [reflexivity|]); apply Forall_nil_2).
  split; [exact H | exact (generateFromHarmonics_silence host_sin _ H)].
Defined.

Lemma initial_harmonics_give_sine_witness :
  (forall x, num_valid x -> num_valid (host_sin x)) /\
  Forall2 same_value
    (generateFromHarmonics host_sin initial_harmonics)
    (normalizeBuffer (generateSine host_sin)).
Proof.
  split; [exact host_sin_valid|].
  exact (initial_harmonics_give_sine host_sin host_sin_valid).
Defined.

(** *** The crossfade and the normaliser *)

Lemma interpolateFrames_sample (frameA frameB : Float32Array) (mix : num) (k : nat) :
  (k < Z.to_nat FRAME_SIZE)%nat ->
  interpolateFrames frameA frameB mix !! k
  = Some (F32.of_num (f32_get frameA (Z.of_nat k) * (one - mix)
                      + f32_get frameB (Z.of_nat k) * mix)%num).
Proof.
  intros Hk. unfold interpolateFrames.
  rewrite (for_range_fill
             (fun i => (f32_get frameA i * (one - mix) + f32_get frameB i * mix)%num))
    by (rewrite ?length_new_Float32Array; lia).
  reflexivity.
Qed.

Lemma f32_get_missing (buffer : Float32Array) (k : nat) :
  buffer !! k = None -> f32_get buffer (Z.of_nat k) = NaN.
Proof.
  intros Hk. unfold f32_get. destruct (Z.of_nat k <? 0); [reflexivity|].
  by rewrite Nat2Z.id, Hk.
Qed.

Lemma add_nan_r (x : num) : (x + NaN)%num = NaN.
Proof. by destruct x. Qed.

(** The crossfade has a sample for each of the [FRAME_SIZE] indices: where
    one of the two buffers has none, the sample is NaN. At mix 0.5 the
    order of the two buffers does not matter. *)
Theorem interpolateFrames_missing_and_midpoint (frameA frameB : Float32Array) :
  (forall mix (k : nat), (k < Z.to_nat FRAME_SIZE)%nat ->
     frameA !! k = None \/ frameB !! k = None ->
     interpolateFrames frameA frameB mix !! k = Some NaN) /\
  interpolateFrames frameA frameB one_half = interpolateFrames frameB frameA one_half.
Proof.
  split.
  - intros mix k Hk Hmiss. rewrite interpolateFrames_sample by exact Hk.
    destruct Hmiss as [HA|HB].
    + by rewrite (f32_get_missing _ _ HA).
    + rewrite (f32_get_missing _ _ HB).
      change (NaN * mix)%num with NaN. by rewrite add_nan_r.
  - apply list_eq. intros k. destruct (decide (k < Z.to_nat FRAME_SIZE)%nat) as [Hk|Hk].
    + rewrite !interpolateFrames_sample by exact Hk.
      assert (Hhalf : (one - one_half)%num = one_half) by (vm_compute; reflexivity).
      rewrite Hhalf. by rewrite num_add_comm.
    + rewrite !lookup_ge_None_2 by (rewrite length_interpolateFrames; lia). reflexivity.
Qed.

Lemma interpolateFrames_missing_and_midpoint_witness :
  (0 < Z.to_nat FRAME_SIZE)%nat /\
  interpolateFrames [] frame_of_halves one_half !! 0%nat = Some NaN.
Proof.
  assert (H : (0 < Z.to_nat FRAME_SIZE)%nat) by (unfold FRAME_SIZE; lia).
  split; [exact H|].
  exact (proj1 (interpolateFrames_missing_and_midpoint [] frame_of_halves)
           one_half 0%nat H (or_introl eq_refl)).
Defined.

(** *** The order of the non-negative numbers *)

Lemma ltb_finite (m1 m2 : positive) (e1 e2 : Z) :
  ltb (S754_finite false m1 e1) (S754_finite false m2 e2) = true
  <-> e1 < e2 \/ (e1 = e2 /\ (m1 < m2)%positive).
Proof.
  unfold ltb, SFltb, SFcompare.
  destruct (Z.compare_spec e1 e2) as [He|He|He].
  - rewrite Pos.compare_cont_spec. cbn [Pos.switch_Eq].
    destruct (Pos.compare_spec m1 m2) as [Hm|Hm|Hm]; split; intros H; try done;
      try (right; by split); destruct H as [H|[_ H]]; lia.
  - split; [by left | done].
  - split; [done | lia].
Qed.

Lemma ltb_abs_irrefl (x : num) : ltb (Num.abs x) (Num.abs x) = false.
Proof.
  destruct x as [s|s| |s m e]; try reflexivity.
  cbn [Num.abs SFabs]. destruct (ltb _ _) eqn:H; [|done].
  apply ltb_finite in H. lia.
Qed.

Lemma ltb_abs_trans (x y z : num) :
  ltb (Num.abs x) (Num.abs y) = true -> ltb (Num.abs y) (Num.abs z) = true ->
  ltb (Num.abs x) (Num.abs z) = true.
Proof.
  destruct x as [sx|sx| |sx mx ex], y as [sy|sy| |sy my ey], z as [sz|sz| |sz mz ez];
    cbn [Num.abs SFabs]; try done.
  rewrite !ltb_finite. lia.
Qed.

Lemma gtb_abs_irrefl (x : num) : gtb (Num.abs x) (Num.abs x) = false.
Proof. apply ltb_abs_irrefl. Qed.

Lemma gtb_abs_trans (x y z : num) :
  gtb (Num.abs x) (Num.abs y) = true -> gtb (Num.abs y) (Num.abs z) = true ->
  gtb (Num.abs x) (Num.abs z) = true.
Proof. intros Hxy Hyz. exact (ltb_abs_trans z y x Hyz Hxy). Qed.

Lemma peak_spec (buffer : Float32Array) :
  (peak buffer = zero \/
   exists (k : nat) x, buffer !! k = Some x /\ peak buffer = Num.abs (F32.to_num x)) /\
  forall (k : nat) x, buffer !! k = Some x ->
    gtb (Num.abs (F32.to_num x)) (peak buffer) = false.
Proof.
  assert (H : forall n : nat,
    let m := for_range n (Z.of_nat 0)
               (fun i maxAmp =>
                  let abs := Num.abs (f32_get buffer i) in
                  if gtb abs maxAmp then abs else maxAmp) zero in
    (exists y, m = Num.abs y) /\
    (m = zero \/ exists (k : nat) x, buffer !! k = Some x /\ m = Num.abs (F32.to_num x)) /\
    forall (k : nat) x, (k < n)%nat -> buffer !! k = Some x ->
      gtb (Num.abs (F32.to_num x)) m = false).
  { intros n. induction n as [|n IH].
    - cbn [for_range]. split; [by exists zero|]. split; [by left|]. intros; lia.
    - rewrite for_range_snoc. cbv zeta in *.
      set (m := for_range n (Z.of_nat 0) _ zero) in *.
      destruct IH as ([y Hy] & Hatt & Hmax). rewrite Z.add_0_l.
      destruct (gtb (Num.abs (f32_get buffer (Z.of_nat n))) m) eqn:Hgt.
      + split; [by eexists|]. split.
        * unfold f32_get in *. destruct (Z.of_nat n <? 0); [by rewrite Hy in Hgt; destruct y|].
          rewrite Nat2Z.id in *.
          destruct (buffer !! n) as [x|] eqn:Hx; [right; by exists n, x|].
          rewrite Hy in Hgt. by destruct y.
        * intros k x Hk Hx. destruct (decide (k = n)) as [->|Hne].
          -- rewrite (f32_get_lookup _ _ _ Hx). apply gtb_abs_irrefl.
          -- specialize (Hmax k x ltac:(lia) Hx).
             destruct (gtb (Num.abs (F32.to_num x))
                         (Num.abs (f32_get buffer (Z.of_nat n)))) eqn:Hlt; [|done].
             rewrite Hy in Hgt, Hmax.
             by rewrite (gtb_abs_trans _ _ _ Hlt Hgt) in Hmax.
      + split; [by eexists|]. split; [exact Hatt|].
        intros k x Hk Hx. destruct (decide (k = n)) as [->|Hne].
        * rewrite (f32_get_lookup _ _ _ Hx) in Hgt. exact Hgt.
        * apply (Hmax k x); [lia | done]. }
  destruct (H (length buffer)) as (_ & Hatt & Hmax). split; [exact Hatt|].
  intros k x Hx. apply (Hmax k x); [by eapply lookup_lt_Some | exact Hx].
Qed.

(** The normaliser divides by the largest absolute value of the buffer:
    the peak it finds is the absolute value of one of the samples (or 0), no
    sample is above it, and when it is above 0.0001 every sample is
    multiplied by its reciprocal. NaN samples do not count for the peak. *)
Theorem normalizeBuffer_scales_by_peak (buffer : Float32Array) :
  (peak buffer = zero \/
   exists (k : nat) x, buffer !! k = Some x /\ peak buffer = Num.abs (F32.to_num x)) /\
  (forall (k : nat) x, buffer !! k = Some x ->
     gtb (Num.abs (F32.to_num x)) (peak buffer) = false) /\
  (gtb (peak buffer) lit_0_0001 = true ->
   forall (k : nat) x, buffer !! k = Some x ->
     normalizeBuffer buffer !! k
     = Some (F32.of_num (F32.to_num x * (one / peak buffer))%num)) /\
  (gtb (peak buffer) lit_0_0001 = false -> normalizeBuffer buffer = buffer).
Proof.
  destruct (peak_spec buffer) as [Hatt Hmax].
  split; [exact Hatt|]. split; [exact Hmax|]. split.
  - intros Hloud k x Hx. rewrite normalizeBuffer_peak, Hloud.
    rewrite (for_range_elementwise (fun _ v => (v * (one / peak buffer))%num)) by lia.
    rewrite decide_True by (apply lookup_lt_Some in Hx; lia).
    by rewrite Hx.
  - intros Hquiet. by rewrite normalizeBuffer_peak, Hquiet.
Qed.

Lemma normalizeBuffer_scales_by_peak_witness :
  gtb (peak frame_of_halves) lit_0_0001 = true /\
  normalizeBuffer frame_of_halves !! 0%nat = Some (S754_finite false 8388608 (-23)).
Proof.
  assert (Hpeak : peak frame_of_halves = S754_finite false 4503599627370496 (-53)).
  { destruct (normalizeBuffer_scales_by_peak frame_of_halves) as ([Hz|(k & x & Hx & Hp)] & Hmax & _).
    - specialize (Hmax 0%nat _ eq_refl). rewrite Hz in Hmax. discriminate.
    - rewrite Hp. unfold frame_of_halves in Hx. apply lookup_replicate in Hx as [-> _].
      reflexivity. }
  assert (Hloud : gtb (peak frame_of_halves) lit_0_0001 = true) by (by rewrite Hpeak).
  split; [exact Hloud|].
  destruct (normalizeBuffer_scales_by_peak frame_of_halves) as (_ & _ & Hscale & _).
  rewrite (Hscale Hloud 0%nat _ eq_refl), Hpeak. reflexivity.
Defined.

(** ** The canvas *)

(** The samples after one application of the brush. *)
Lemma applyBrush_lookup (buffer : traced) (centerIndex : Z) (amp : num) (k : nat) :
  contents (applyBrush buffer centerIndex amp) !! k
  = if decide (Z.abs (Z.of_nat k - centerIndex) <= 15 /\ Z.of_nat k < FRAME_SIZE)
    then (fun x => F32.of_num (brush_mix (Z.of_nat k - centerIndex) amp (F32.to_num x)))
           <$> contents buffer !! k
    else contents buffer !! k.
Proof.
  set (new := (fun x => F32.of_num (brush_mix (Z.of_nat k - centerIndex) amp (F32.to_num x)))
                <$> contents buffer !! k).
  assert (Hinv : forall j, j = -15 + Z.of_nat (Z.to_nat (2 * 15 + 1)) ->
            (-15 <= Z.of_nat k - centerIndex < j /\ Z.of_nat k < FRAME_SIZE ->
             contents (applyBrush buffer centerIndex amp) !! k = new) /\
            (~ (-15 <= Z.of_nat k - centerIndex < j /\ Z.of_nat k < FRAME_SIZE) ->
             contents (applyBrush buffer centerIndex amp) !! k = contents buffer !! k)).
  { intros j ->. unfold applyBrush.
    apply (for_range_inv
             (fun j t =>
                (-15 <= Z.of_nat k - centerIndex < j /\ Z.of_nat k < FRAME_SIZE ->
                 contents t !! k = new) /\
                (~ (-15 <= Z.of_nat k - centerIndex < j /\ Z.of_nat k < FRAME_SIZE) ->
                 contents t !! k = contents buffer !! k))).
    - split; [lia | reflexivity].
    - intros j t Hj [IHin IHout]. cbv zeta.
      destruct ((0 <=? centerIndex + j) && (centerIndex + j <? FRAME_SIZE)) eqn:Hguard.
      + apply andb_prop in Hguard as [H0 H1]. apply Z.leb_le in H0. apply Z.ltb_lt in H1.
        cbn [traced_get traced_set contents].
        destruct (Z.eq_dec (Z.of_nat k) (centerIndex + j)) as [Hk|Hk].
        * split; [intros _ | lia].
          specialize (IHout ltac:(lia)). unfold new.
          destruct (contents buffer !! k) as [x|] eqn:Hx.
          -- rewrite <- Hk. rewrite (f32_get_lookup _ _ _ IHout).
             replace k with (Z.to_nat (Z.of_nat k)) at 1 by lia.
             rewrite lookup_f32_set_eq by (apply lookup_lt_Some in IHout; lia).
             cbn [fmap option_fmap option_map]. unfold brush_mix. cbv zeta.
             replace (Z.of_nat k - centerIndex) with j by lia. reflexivity.
          -- cbn [fmap option_fmap option_map]. apply lookup_ge_None.
             rewrite length_f32_set. by apply lookup_ge_None.
        * rewrite lookup_f32_set_ne by done.
          split; [intros H; apply IHin; lia | intros H; apply IHout; lia].
      + apply andb_false_iff in Hguard.
        split; [intros H; apply IHin | intros H; apply IHout];
          (destruct Hguard as [Hg|Hg]; [apply Z.leb_gt in Hg | apply Z.ltb_ge in Hg]; lia). }
  destruct (Hinv _ eq_refl) as [Hin Hout].
  case_decide; [apply Hin | apply Hout]; lia.
Qed.






(** The contents after a stroke do not depend on the accesses recorded
    before it. *)
Lemma contents_applyBrush (c : Float32Array) (a a' : list access) (centerIndex : Z)
    (amp : num) :
  contents (applyBrush (Traced c a) centerIndex amp)
  = contents (applyBrush (Traced c a') centerIndex amp).
Proof. apply list_eq. intros k. by rewrite !applyBrush_lookup. Qed.

Lemma contents_applyBrush_eq (t t' : traced) (centerIndex : Z) (amp : num) :
  contents t = contents t' ->
  contents (applyBrush t centerIndex amp) = contents (applyBrush t' centerIndex amp).
Proof.
  destruct t as [c a], t' as [c' a']. cbn [contents]. intros ->. apply contents_applyBrush.
Qed.

Lemma contents_brush_all (path : list (Z * num)) (t t' : traced) :
  contents t = contents t' ->
  contents (brush_all path t) = contents (brush_all path t').
Proof.
  unfold brush_all. revert t t'. induction path as [|p path IH]; intros t t' H; [exact H|].
  cbn [foldl]. apply IH. by apply contents_applyBrush_eq.
Qed.

Lemma brush_all_app (p q : list (Z * num)) (t : traced) :
  brush_all (p ++ q) t = brush_all q (brush_all p t).
Proof. unfold brush_all. apply foldl_app. Qed.

Lemma move_brush_path (prev curr : Pos) (newData : traced) :
  move_brush (Some prev) curr newData = brush_all (drag_path_spec prev curr) newData.
Proof.
  unfold move_brush, drag_path_spec, brush_all.
  destruct (Z.eqb_spec (Z.abs (index curr - index prev)) 0) as [H0|Hne];
    [cbn [foldl fst snd]; reflexivity|].
  replace (if index curr >? index prev then 1 else -1)
    with (Z.sgn (index curr - index prev))
    by (destruct (Z.gtb_spec (index curr) (index prev)); lia).
  rewrite for_range_foldl, foldl_fmap.
  rewrite Z2Nat.id by lia. reflexivity.
Qed.

Lemma handleMoves_cons (isActive : bool) (e : Pos) (es : list Pos) (st : CanvasState) :
  handleMoves isActive (e :: es) st = handleMoves isActive es (handleMove isActive e st).1.
Proof. reflexivity. Qed.

Lemma handleMove_drawing (e e0 : Pos) (data : Float32Array) :
  (handleMove true e {| isDrawing := true; prevPosRef := Some e0; localDataRef := data |}).1
  = {| isDrawing := true; prevPosRef := Some e;
       localDataRef := contents (brush_all (drag_path_spec e0 e) (Traced data [])) |}.
Proof.
  unfold handleMove. cbn [isDrawing prevPosRef localDataRef negb orb fst].
  by rewrite move_brush_path.
Qed.

Lemma last_cons (e e0 : Pos) (es : list Pos) :
  List.last (e :: es) e0 = List.last es e.
Proof.
  revert e e0. induction es as [|x es IH]; intros e e0; [reflexivity|].
  change (List.last (e :: x :: es) e0) with (List.last (x :: es) e0).
  by rewrite (IH x e0), (IH x e).
Qed.

Lemma handleMoves_drawing (es : list Pos) (e0 : Pos) (data : Float32Array) (t : traced) :
  contents t = data ->
  let st := handleMoves true es
              {| isDrawing := true; prevPosRef := Some e0; localDataRef := data |} in
  isDrawing st = true /\
  prevPosRef st = Some (List.last es e0) /\
  localDataRef st = contents (brush_all (polyline e0 es) t).
Proof.
  revert e0 data t. induction es as [|e es IH]; intros e0 data t Ht; [by repeat split|].
  cbv zeta. rewrite handleMoves_cons, handleMove_drawing.
  set (data' := contents (brush_all (drag_path_spec e0 e) (Traced data []))).
  destruct (IH e data' (brush_all (drag_path_spec e0 e) t)) as (Hd & Hp & Hl).
  { unfold data'. apply contents_brush_all. by rewrite Ht. }
  cbv zeta in Hd, Hp, Hl. rewrite Hd, Hp, Hl. split; [reflexivity|]. split.
  - by rewrite last_cons.
  - cbn [polyline]. by rewrite brush_all_app.
Qed.

Lemma brush_all_cons (p : Z * num) (path : list (Z * num)) (t : traced) :
  brush_all (p :: path) t = brush_all path (applyBrush t p.1 p.2).
Proof. unfold brush_all. cbn [foldl]. reflexivity. Qed.

Lemma handleStart_active (e : Pos) (st : CanvasState) :
  handleStart true e st
  = ({| isDrawing := true; prevPosRef := Some e;
        localDataRef := contents (applyBrush (Traced (localDataRef st) []) (index e) (amp e)) |},
     Some (contents (applyBrush (Traced (localDataRef st) []) (index e) (amp e)))).
Proof. unfold handleStart. cbn [negb]. reflexivity. Qed.

Lemma handleMove_released (isActive : bool) (e : Pos) (st : CanvasState) :
  handleMove isActive e (handleEnd st) = (handleEnd st, None).
Proof. unfold handleMove. cbn [handleEnd isDrawing negb orb]. reflexivity. Qed.

(** A drag on the active canvas: the press applies the brush at the first
    pointer sample and every move applies it along the segment from the
    previous sample, so after the press and the moves the buffer is the one
    the brush gives along the whole polyline. A move is ignored after the
    release, before any press, and on an inactive canvas, where a press is
    ignored too. *)
Theorem drag_gesture (e0 : Pos) (es : list Pos) (st : CanvasState) :
  let pressed := (handleStart true e0 st).1 in
  let moved := handleMoves true es pressed in
  localDataRef moved
  = contents (brush_all ((index e0, amp e0) :: polyline e0 es) (Traced (localDataRef st) [])) /\
  prevPosRef moved = Some (List.last es e0) /\
  isDrawing moved = true /\
  (forall e, handleMove true e (handleEnd moved) = (handleEnd moved, None)) /\
  (forall e, isDrawing st = false -> handleMove true e st = (st, None)) /\
  (forall e, handleStart false e st = (st, None) /\ handleMove false e st = (st, None)).
Proof.
  intros pressed moved. unfold moved, pressed. clear moved pressed.
  rewrite handleStart_active. cbn [fst]. rewrite brush_all_cons. cbn [fst snd].
  destruct (handleMoves_drawing es e0
              (contents (applyBrush (Traced (localDataRef st) []) (index e0) (amp e0)))
              (applyBrush (Traced (localDataRef st) []) (index e0) (amp e0)) eq_refl)
    as (Hd & Hp & Hl).
  cbv zeta in Hd, Hp, Hl.
  split; [exact Hl|]. split; [exact Hp|]. split; [exact Hd|]. split; [|split].
  - intros e. apply handleMove_released.
  - intros e Hnot. unfold handleMove. by rewrite Hnot.
  - intros e. split; [reflexivity|]. unfold handleMove.
    by rewrite orb_true_r.
Qed.

Lemma drag_gesture_witness :
  isDrawing {| isDrawing := false; prevPosRef := None;
               localDataRef := new_Float32Array FRAME_SIZE |} = false /\
  handleMove true {| index := 5; amp := one |}
    {| isDrawing := false; prevPosRef := None; localDataRef := new_Float32Array FRAME_SIZE |}
  = ({| isDrawing := false; prevPosRef := None; localDataRef := new_Float32Array FRAME_SIZE |},
     None).
Proof.
  split; [reflexivity|].
  destruct (drag_gesture {| index := 5; amp := one |} []
              {| isDrawing := false; prevPosRef := None;
                 localDataRef := new_Float32Array FRAME_SIZE |})
    as (_ & _ & _ & _ & Hidle & _).
  apply Hidle. reflexivity.
Defined.

(** ** The 3D view: selecting a frame by a click *)

(** *** The order of the numbers *)

Lemma scaled_finite_bounds (s : bool) (m : positive) (e : Z) :
  num_valid (S754_finite s m e) ->
  -1074 <= e <= 971 /\ Zpos m < 2 ^ 53 /\ (-1074 < e -> 2 ^ 52 <= Zpos m) /\
  0 < Zpos m * 2 ^ (e + 1074) < 2 ^ 2200.
Proof.
  intros Hv. destruct (num_valid_canonical _ _ _ Hv) as [Hcan Hmax].
  pose proof (digits2_pos_bounds m) as [Hlo Hhi].
  assert (He : -1074 <= e <= 971) by lia.
  assert (Hd : Zpos (digits2_pos m) <= 53) by lia.
  assert (Hm : Zpos m < 2 ^ 53).
  { assert (2 ^ Zpos (digits2_pos m) <= 2 ^ 53) by (apply Z.pow_le_mono_r; lia). lia. }
  assert (Hnorm : -1074 < e -> 2 ^ 52 <= Zpos m).
  { intros Hgt. assert (Zpos (digits2_pos m) = 53) as Hd53 by lia.
    rewrite Hd53 in Hlo. exact Hlo. }
  assert (Hpos : 0 < Zpos m * 2 ^ (e + 1074)).
  { apply Z.mul_pos_pos; [lia|]. apply Z.pow_pos_nonneg; lia. }
  assert (Hbig : Zpos m * 2 ^ (e + 1074) < 2 ^ 2200).
  { assert (2 ^ (e + 1074) <= 2 ^ 2045) by (apply Z.pow_le_mono_r; lia).
    assert (0 < 2 ^ (e + 1074)) by (apply Z.pow_pos_nonneg; lia).
    assert (Hlt : Zpos m * 2 ^ (e + 1074) < 2 ^ 53 * 2 ^ 2045) by nia.
    rewrite <- Z.pow_add_r in Hlt by lia.
    assert (2 ^ (53 + 2045) < 2 ^ 2200) by (apply Z.pow_lt_mono_r; lia). lia. }
  tauto.
Qed.

(** On positive values of the format, the order of the exponents and then
    of the mantissas is the order of the values. *)
Lemma ltb_finite_scaled (m1 m2 : positive) (e1 e2 : Z) :
  num_valid (S754_finite false m1 e1) -> num_valid (S754_finite false m2 e2) ->
  (e1 < e2 \/ (e1 = e2 /\ (m1 < m2)%positive))
  <-> Zpos m1 * 2 ^ (e1 + 1074) < Zpos m2 * 2 ^ (e2 + 1074).
Proof.
  intros Hv1 Hv2.
  destruct (scaled_finite_bounds _ _ _ Hv1) as (He1 & Hm1 & Hn1 & _).
  destruct (scaled_finite_bounds _ _ _ Hv2) as (He2 & Hm2 & Hn2 & _).
  assert (Hstep : forall (a b : positive) (ea eb : Z),
            -1074 <= ea -> ea < eb -> Zpos a < 2 ^ 53 -> 2 ^ 52 <= Zpos b ->
            Zpos a * 2 ^ (ea + 1074) < Zpos b * 2 ^ (eb + 1074)).
  { intros a b ea eb Hea Hlt Ha Hb.
    assert (Hp : 0 < 2 ^ (ea + 1074)) by (apply Z.pow_pos_nonneg; lia).
    replace (eb + 1074) with ((eb - ea - 1) + 1 + (ea + 1074)) by lia.
    rewrite (Z.pow_add_r 2 (eb - ea - 1 + 1) (ea + 1074)) by lia.
    rewrite (Z.pow_add_r 2 (eb - ea - 1) 1) by lia.
    assert (1 <= 2 ^ (eb - ea - 1)) by (apply (Z.pow_le_mono_r 2 0); lia).
    change (2 ^ 1) with 2.
    set (P := 2 ^ (ea + 1074)) in *. set (Q := 2 ^ (eb - ea - 1)) in *.
    assert (Ha1 : Zpos a * P < 2 ^ 53 * P) by (apply Z.mul_lt_mono_pos_r; done).
    assert (Ha2 : 2 ^ 53 * P <= 2 * Zpos b * P).
    { apply Z.mul_le_mono_nonneg_r; [lia|]. change (2 ^ 53) with (2 * 2 ^ 52). lia. }
    assert (Ha3 : 2 * Zpos b * P * 1 <= 2 * Zpos b * P * Q).
    { apply Z.mul_le_mono_nonneg_l; [|done]. apply Z.mul_nonneg_nonneg; lia. }
    lia. }
  assert (Hp : 0 < 2 ^ (e1 + 1074)) by (apply Z.pow_pos_nonneg; lia).
  split.
  - intros [Hlt|[-> Hlt]].
    + apply Hstep; lia.
    + apply Z.mul_lt_mono_pos_r; [done | lia].
  - intros Hlt. destruct (Z.lt_trichotomy e1 e2) as [|[->|Hgt]]; [by left| |].
    + right. split; [done|]. apply Z.mul_lt_mono_pos_r in Hlt; [lia | done].
    + pose proof (Hstep m2 m1 e2 e1 ltac:(lia) Hgt Hm2 (Hn1 ltac:(lia))). lia.
Qed.

(** [<] on numbers is the order of their values. *)
Lemma ltb_scaled (x y : num) :
  num_valid x -> num_valid y -> isNaN x = false -> isNaN y = false ->
  ltb x y = (scaled x <? scaled y).
Proof.
  intros Hx Hy Hnx Hny.
  assert (Hbig : 0 < 2 ^ 2200) by (apply Z.pow_pos_nonneg; lia).
  destruct x as [sx|sx| |sx mx ex], y as [sy|sy| |sy my ey]; try discriminate;
    try (pose proof (scaled_finite_bounds _ _ _ Hx) as (_ & _ & _ & Hbx));
    try (pose proof (scaled_finite_bounds _ _ _ Hy) as (_ & _ & _ & Hby));
    symmetry;
    try (destruct sx, sy; unfold ltb, SFltb, SFcompare; cbn [scaled cond_Zopp];
         generalize dependent (2 ^ 2200); intros;
         first [apply Z.ltb_lt; lia | apply Z.ltb_ge; lia]).
  destruct sx, sy.
  - (* both negative: the order of the absolute values, reversed *)
    cbn [scaled cond_Zopp].
    pose proof (ltb_finite_scaled my mx ey ex Hy Hx) as Hiff.
    assert (Hswap : ltb (S754_finite true mx ex) (S754_finite true my ey)
                    = ltb (S754_finite false my ey) (S754_finite false mx ex)).
    { unfold ltb, SFltb, SFcompare. rewrite (Z.compare_antisym ex ey).
      destruct (ex ?= ey); cbn [CompOpp]; try reflexivity.
      by rewrite (Pos.compare_cont_antisym mx my Eq). }
    rewrite Hswap.
    destruct (ltb (S754_finite false my ey) (S754_finite false mx ex)) eqn:Hl.
    + apply Z.ltb_lt. apply ltb_finite, Hiff in Hl. lia.
    + apply Z.ltb_ge.
      destruct (Z.le_gt_cases (- (Zpos my * 2 ^ (ey + 1074)))
                  (- (Zpos mx * 2 ^ (ex + 1074)))) as [|Hgt]; [done|].
      assert (Hlt : Zpos my * 2 ^ (ey + 1074) < Zpos mx * 2 ^ (ex + 1074)) by lia.
      apply Hiff, ltb_finite in Hlt. congruence.
  - unfold ltb, SFltb, SFcompare. cbn [scaled cond_Zopp]. apply Z.ltb_lt. lia.
  - unfold ltb, SFltb, SFcompare. cbn [scaled cond_Zopp]. apply Z.ltb_ge. lia.
  - cbn [scaled cond_Zopp].
    pose proof (ltb_finite_scaled mx my ex ey Hx Hy) as Hiff.
    destruct (ltb (S754_finite false mx ex) (S754_finite false my ey)) eqn:Hl.
    + apply Z.ltb_lt. by apply Hiff, ltb_finite.
    + apply Z.ltb_ge.
      destruct (Z.le_gt_cases (Zpos my * 2 ^ (ey + 1074))
                  (Zpos mx * 2 ^ (ex + 1074))) as [|Hgt]; [done|].
      apply Hiff, ltb_finite in Hgt. congruence.
Qed.

Section RoundingAny.

Variables prec emax : Z.
Hypothesis prec_pos : 0 < prec.

#[local] Abbreviation fexp' := (SpecFloat.fexp prec emax).
#[local] Abbreviation emin' := (SpecFloat.emin prec emax).

Lemma shr_m_record_of_loc (m : Z) (l : location) : shr_m (shr_record_of_loc m l) = m.
Proof. by destruct l as [|[| |]]. Qed.

(** The first shift of the rounding, from any location. *)
Lemma shr_fexp_shifts_loc (m e : Z) (l : location) :
  0 <= m -> e <= fexp' (Zdigits2 m + e) ->
  exists mrs,
    shr_fexp prec emax m e l = (mrs, fexp' (Zdigits2 m + e)) /\
    shr_m mrs = m / 2 ^ (fexp' (Zdigits2 m + e) - e).
Proof.
  intros Hm Hle. unfold shr_fexp, shr.
  destruct (fexp' (Zdigits2 m + e) - e) as [|p|p] eqn:Hn; [| |lia].
  - eexists. split; [f_equal; lia|]. rewrite shr_m_record_of_loc. cbn. by rewrite Z.div_1_r.
  - eexists. split; [f_equal; lia|].
    rewrite iter_pos_nat, shr_m_iter_shr_1 by (by rewrite shr_m_record_of_loc).
    by rewrite shr_m_record_of_loc, positive_nat_Z.
Qed.

Lemma shr_fexp_nonneg (m e : Z) (l : location) :
  0 <= m -> 0 <= shr_m (shr_fexp prec emax m e l).1.
Proof.
  intros Hm. unfold shr_fexp, shr.
  destruct (fexp' (Zdigits2 m + e) - e) as [|p|p]; cbn [fst];
    try by rewrite shr_m_record_of_loc.
  rewrite iter_pos_nat, shr_m_iter_shr_1 by (by rewrite shr_m_record_of_loc).
  rewrite shr_m_record_of_loc. apply Z.div_pos; [done|]. apply Z.pow_pos_nonneg; lia.
Qed.

(** Rounding never gives NaN. *)
Lemma binary_round_aux_number (s : bool) (m e : Z) (l : location) :
  0 <= m -> isNaN (binary_round_aux prec emax s m e l) = false.
Proof.
  intros Hm. unfold binary_round_aux.
  pose proof (shr_fexp_nonneg m e l Hm) as H1.
  destruct (shr_fexp prec emax m e l) as [mrs1 e1]. cbn [fst] in H1.
  assert (H2 : 0 <= round_nearest_even (shr_m mrs1) (loc_of_shr_record mrs1))
    by (destruct (round_nearest_even_step (shr_m mrs1) (loc_of_shr_record mrs1)); lia).
  pose proof (shr_fexp_nonneg _ e1 loc_Exact H2) as H3.
  destruct (shr_fexp prec emax _ e1 loc_Exact) as [mrs2 e2]. cbn [fst] in H3.
  destruct (shr_m mrs2) as [|q|q]; [done| |lia].
  by destruct (e2 <=? emax - prec).
Qed.

(** Rounding a mantissa that is not too short for its exponent gives a
    value of the format, whatever was cut off before. *)
Lemma binary_round_aux_valid_loc (s : bool) (m e : Z) (l : location) :
  0 <= m -> e <= fexp' (Zdigits2 m + e) ->
  valid_binary prec emax (binary_round_aux prec emax s m e l) = true.
Proof.
  intros Hm Hle. unfold binary_round_aux.
  destruct (shr_fexp_shifts_loc m e l Hm Hle) as (mrs & -> & Hm1).
  set (F := fexp' (Zdigits2 m + e)) in *.
  set (D := Zdigits2 m) in *.
  assert (HD : 0 <= D /\ m < 2 ^ D /\ (0 < m -> 2 ^ (D - 1) <= m)).
  { unfold D. destruct m as [|p|p]; [cbn; lia| |lia].
    pose proof (digits2_pos_bounds p). cbn [Zdigits2]. lia. }
  destruct HD as (HD0 & HD2 & HD1).
  assert (Hemin : emin' <= F) by (unfold F, SpecFloat.fexp; lia).
  assert (Hn : D - prec <= F - e) by (unfold F, SpecFloat.fexp; lia).
  assert (Hpow : 0 < 2 ^ (F - e)) by (apply Z.pow_pos_nonneg; lia).
  assert (H1lo : 0 <= shr_m mrs) by (rewrite Hm1; apply Z.div_pos; lia).
  assert (H1hi : shr_m mrs < 2 ^ prec).
  { rewrite Hm1. apply Z.div_lt_upper_bound; [done|].
    rewrite <- Z.pow_add_r by lia.
    assert (2 ^ D <= 2 ^ (F - e + prec)) by (apply Z.pow_le_mono_r; lia). lia. }
  assert (H1can : F = emin' \/ 2 ^ (prec - 1) <= shr_m mrs).
  { destruct (Z.eq_dec F emin') as [|Hne]; [by left|right].
    assert (HF : F - e = D - prec) by (unfold F, SpecFloat.fexp in *; lia).
    assert (Hmpos : 0 < m).
    { destruct (Z.eq_dec m 0) as [Hz|]; [|lia].
      unfold F, D, SpecFloat.fexp in *. rewrite Hz in *. cbn [Zdigits2] in *. lia. }
    rewrite Hm1. apply Z.div_le_lower_bound; [done|].
    rewrite <- Z.pow_add_r by lia. replace (F - e + (prec - 1)) with (D - 1) by lia.
    by apply HD1. }
  pose proof (round_nearest_even_step (shr_m mrs) (loc_of_shr_record mrs)) as H2.
  apply round_finish_valid; lia.
Qed.

End RoundingAny.

(** The quotient of two numbers is a number of the format. *)
Lemma div_valid (x y : num) : num_valid x -> num_valid y -> num_valid (x / y)%num.
Proof.
  intros Hx Hy. destruct x as [sx|sx| |sx mx ex], y as [sy|sy| |sy my ey];
    try reflexivity.
  unfold num_valid, Num.div, SFdiv, SFdiv_core_binary. cbn [Zdigits2].
  set (d1 := Zpos (digits2_pos mx)). set (d2 := Zpos (digits2_pos my)).
  set (K := d1 + ex - (d2 + ey)).
  set (e' := Z.min (SpecFloat.fexp Num.prec Num.emax K) (ex - ey)).
  pose proof (digits2_pos_bounds mx) as [Hx1 Hx2]. fold d1 in Hx1, Hx2.
  pose proof (digits2_pos_bounds my) as [Hy1 Hy2]. fold d2 in Hy1, Hy2.
  assert (Hd1 : 1 <= d1 <= 53).
  { destruct (num_valid_canonical _ _ _ Hx) as [Hc _]. fold d1 in Hc. unfold d1 in *. lia. }
  assert (Hd2 : 1 <= d2) by (unfold d2; lia).
  assert (Hs : 0 <= ex - ey - e') by (unfold e'; lia).
  assert (Hm' : match ex - ey - e' with
                | Z0 => Zpos mx
                | Zpos _ => Z.shiftl (Zpos mx) (ex - ey - e')
                | Zneg _ => 0
                end = Zpos mx * 2 ^ (ex - ey - e')).
  { destruct (ex - ey - e') as [|p|p] eqn:Hse; [cbn; lia| |lia].
    by rewrite Z.shiftl_mul_pow2. }
  rewrite Hm'. set (s := ex - ey - e') in *.
  assert (Hps : 0 < 2 ^ s) by (apply Z.pow_pos_nonneg; lia).
  pose proof (Z.div_eucl_eq (Zpos mx * 2 ^ s) (Zpos my) ltac:(lia)) as Heq.
  pose proof (Z.mod_pos_bound (Zpos mx * 2 ^ s) (Zpos my) ltac:(lia)) as Hr.
  unfold Z.modulo in Hr.
  destruct (Z.div_eucl (Zpos mx * 2 ^ s) (Zpos my)) as [q r].
  assert (Hq : 0 <= q) by nia.
  apply binary_round_aux_valid_loc; [reflexivity | exact Hq |].
  unfold SpecFloat.fexp, SpecFloat.emin, Num.prec, Num.emax in *.
  destruct (Z.le_gt_cases e' (3 - 1024 - 53)) as [|Hgt]; [lia|].
  assert (He' : e' <= K - 53) by lia.
  assert (Hs53 : 53 - d1 + d2 <= s) by (unfold s, K in *; lia).
  (* the quotient has all the digits of the format *)
  assert (Hbig : 2 ^ 52 * Zpos my < Zpos mx * 2 ^ s).
  { assert (H1 : 2 ^ (53 - d1 + d2) <= 2 ^ s) by (apply Z.pow_le_mono_r; lia).
    assert (H2 : 2 ^ (d1 - 1) * 2 ^ (53 - d1 + d2) <= Zpos mx * 2 ^ s).
    { apply Z.mul_le_mono_nonneg; try lia; apply Z.pow_nonneg; lia. }
    rewrite <- Z.pow_add_r in H2 by lia.
    replace (d1 - 1 + (53 - d1 + d2)) with (52 + d2) in H2 by lia.
    rewrite Z.pow_add_r in H2 by lia.
    assert (2 ^ 52 * Zpos my < 2 ^ 52 * 2 ^ d2) by (apply Z.mul_lt_mono_pos_l; lia).
    lia. }
  assert (Hq52 : 2 ^ 52 <= q) by nia.
  destruct q as [|q|q]; [lia| |lia]. cbn [Zdigits2].
  pose proof (digits2_pos_bounds q) as [Hq1 Hq2].
  assert (53 <= Zpos (digits2_pos q)).
  { destruct (Z.le_gt_cases 53 (Zpos (digits2_pos q))) as [|Hlt]; [done|].
    assert (2 ^ Zpos (digits2_pos q) <= 2 ^ 52) by (apply Z.pow_le_mono_r; lia). lia. }
  lia.
Qed.

(** An integer below 2^53 is a number, exactly. *)
Lemma binary_round_integer (s : bool) (p : positive) :
  Zpos p < 2 ^ 53 ->
  exists m e, binary_round Num.prec Num.emax s p 0 = S754_finite s m e /\
              Zpos m * 2 ^ (e + 1074) = Zpos p * 2 ^ 1074.
Proof.
  intros Hp. pose proof (digits2_pos_bounds p) as [Hlo Hhi].
  assert (Hd : Zpos (digits2_pos p) <= 53).
  { destruct (Z.le_gt_cases (Zpos (digits2_pos p)) 53) as [|Hgt]; [done|].
    assert (2 ^ 53 <= 2 ^ (Zpos (digits2_pos p) - 1)) by (apply Z.pow_le_mono_r; lia). lia. }
  unfold binary_round, shl_align.
  rewrite Z.add_0_r, Z.sub_0_r.
  assert (Hfexp : SpecFloat.fexp Num.prec Num.emax (Zpos (digits2_pos p))
                  = Zpos (digits2_pos p) - 53)
    by (unfold SpecFloat.fexp, SpecFloat.emin, Num.prec, Num.emax; lia).
  rewrite Hfexp.
  destruct (Zpos (digits2_pos p) - 53) as [|k|k] eqn:Hk; [|lia|].
  - exists p, 0. split; [|done].
    pose proof (binary_round_aux_exact Num.prec Num.emax s p 0 0) as Hex.
    cbn [Nat.iter nat_rect Z.of_nat] in Hex. rewrite Z.sub_0_r in Hex. apply Hex.
    unfold bounded, canonical_mantissa. rewrite Z.add_0_r, Hfexp.
    replace (Zpos (digits2_pos p)) with 53 by lia. reflexivity.
  - rewrite Pos2Nat.inj_iter.
    change (nat_rect (fun _ => positive) p (fun _ => xO) (Pos.to_nat k))
      with (Nat.iter (Pos.to_nat k) xO p).
    set (m := Nat.iter (Pos.to_nat k) xO p).
    assert (Hdm : Zpos (digits2_pos m) = 53).
    { unfold m. rewrite digits2_pos_iter_xO, positive_nat_Z. lia. }
    exists m, (Zneg k). split.
    + pose proof (binary_round_aux_exact Num.prec Num.emax s m (Zneg k) 0) as Hex.
      cbn [Nat.iter nat_rect Z.of_nat] in Hex. rewrite Z.sub_0_r in Hex. apply Hex.
      unfold bounded, canonical_mantissa. rewrite Hdm.
      unfold SpecFloat.fexp, SpecFloat.emin, Num.prec, Num.emax.
      apply andb_true_intro. split; [apply Z.eqb_eq | apply Z.leb_le]; lia.
    + unfold m. rewrite Zpos_iter_xO, positive_nat_Z, <- Z.mul_assoc, <- Z.pow_add_r by lia.
      f_equal. f_equal. lia.
Qed.

Lemma scaled_of_Z (z : Z) :
  Z.abs z < 2 ^ 53 -> isNaN (of_Z z) = false /\ scaled (of_Z z) = z * 2 ^ 1074.
Proof.
  intros Hz. unfold of_Z, binary_normalize. destruct z as [|p|p].
  - done.
  - destruct (binary_round_integer false p ltac:(lia)) as (m & e & -> & Hv).
    split; [done|]. exact Hv.
  - destruct (binary_round_integer true p ltac:(lia)) as (m & e & -> & Hv).
    split; [done|]. cbn [scaled cond_Zopp]. rewrite Hv. lia.
Qed.

Lemma of_Z_pos_finite (z : Z) :
  0 < z < 2 ^ 53 -> exists m e, of_Z z = S754_finite false m e.
Proof.
  intros Hz. unfold of_Z, binary_normalize. destruct z as [|p|p]; [lia| |lia].
  destruct (binary_round_integer false p ltac:(lia)) as (m & e & -> & _). by eexists _, _.
Qed.

(** What [Math.floor] returns for a number: an infinity, or a number at
    least 2^52 away from 0, or an integer below 2^53. *)
Lemma Math_floor_cases (x : num) :
  num_valid x -> isNaN x = false ->
  num_valid (Math_floor x) /\ isNaN (Math_floor x) = false /\
  (2 ^ 52 * 2 ^ 1074 <= Z.abs (scaled (Math_floor x)) \/
   (exists z, Z.abs z < 2 ^ 53 /\ Math_floor x = of_Z z) \/
   Math_floor x = S754_zero true).
Proof.
  intros Hv Hn. destruct x as [s|s| |s m e]; [| | done |].
  - split; [done|]. split; [done|]. right. destruct s; [by right | left; by exists 0].
  - split; [done|]. split; [done|]. left. cbn [Math_floor scaled].
    assert (2 ^ (52 + 1074) <= 2 ^ 2200) by (apply Z.pow_le_mono_r; lia).
    rewrite <- Z.pow_add_r by lia. destruct s; cbn [cond_Zopp]; lia.
  - destruct (scaled_finite_bounds _ _ _ Hv) as (He & Hm & Hnorm & _).
    cbn [Math_floor]. destruct (Z.leb_spec 0 e) as [Hpos|Hneg].
    + split; [done|]. split; [done|]. left. cbn [scaled].
      assert (2 ^ 1074 <= 2 ^ (e + 1074)) by (apply Z.pow_le_mono_r; lia).
      assert (0 < 2 ^ 1074) by (apply Z.pow_pos_nonneg; lia).
      specialize (Hnorm ltac:(lia)).
      assert (2 ^ 52 * 2 ^ 1074 <= Zpos m * 2 ^ (e + 1074))
        by (apply Z.mul_le_mono_nonneg; lia).
      destruct s; cbn [cond_Zopp]; lia.
    + assert (Hp : 0 < 2 ^ (- e)) by (apply Z.pow_pos_nonneg; lia).
      assert (Hz : Z.abs (cond_Zopp s (Zpos m) / 2 ^ (- e)) < 2 ^ 53).
      { assert (1 <= 2 ^ (- e)) by lia.
        destruct s; cbn [cond_Zopp].
        - assert (- Zpos m <= Zneg m / 2 ^ (- e)).
          { apply Z.div_le_lower_bound; [done|]. nia. }
          assert (Zneg m / 2 ^ (- e) < 0) by (apply Z.div_lt_upper_bound; lia).
          lia.
        - assert (0 <= Zpos m / 2 ^ (- e)) by (apply Z.div_pos; lia).
          assert (Zpos m / 2 ^ (- e) <= Zpos m).
          { apply Z.div_le_upper_bound; [done|]. nia. }
          lia. }
      split; [apply of_Z_valid|]. split; [by apply scaled_of_Z|].
      right. left. eexists. split; [exact Hz | done].
Qed.

Lemma Math_min_cases (x y : num) :
  num_valid x -> num_valid y -> isNaN x = false -> isNaN y = false ->
  Math_min x y = x \/ (Math_min x y = y /\ scaled y <= scaled x).
Proof.
  intros Hx Hy Hnx Hny. unfold Math_min. rewrite Hnx, Hny. cbn [orb].
  rewrite !ltb_scaled by done.
  destruct (Z.ltb_spec (scaled x) (scaled y)); [left; reflexivity|].
  destruct (Z.ltb_spec (scaled y) (scaled x)); [right; split; [reflexivity | lia]|].
  destruct x as [[|]| | |]; try (left; reflexivity). right. split; [reflexivity | lia].
Qed.

Lemma Math_max_zero (y : num) :
  num_valid y -> isNaN y = false ->
  Math_max zero y = zero \/ (Math_max zero y = y /\ 0 < scaled y).
Proof.
  intros Hy Hny. unfold Math_max. rewrite Hny. cbn [isNaN zero orb].
  rewrite !ltb_scaled by done. change (scaled zero) with 0.
  destruct (Z.ltb_spec 0 (scaled y)); [right; split; [reflexivity | lia]|].
  destruct (Z.ltb_spec (scaled y) 0); left; reflexivity.
Qed.

(** The clamped index of a number that is not NaN is an index of the
    table. *)
Lemma clampedIndex_in_table (x : num) (n : Z) :
  num_valid x -> isNaN x = false -> 1 <= n < 2 ^ 32 ->
  exists k, 0 <= k < n /\ Math_max zero (Math_min (of_Z (n - 1)) (Math_floor x)) = of_Z k.
Proof.
  intros Hv Hn Hrange.
  destruct (Math_floor_cases x Hv Hn) as (Hfv & Hfn & Hf).
  destruct (scaled_of_Z (n - 1) ltac:(lia)) as [Hbn Hbs].
  assert (HU : 0 < 2 ^ 1074) by (apply Z.pow_pos_nonneg; lia).
  pose proof (Math_min_cases _ _ (of_Z_valid (n - 1)) Hfv Hbn Hfn) as Hmin.
  assert (Hgv : num_valid (Math_min (of_Z (n - 1)) (Math_floor x)))
    by (destruct Hmin as [->|[-> _]]; [apply of_Z_valid | done]).
  assert (Hgn : isNaN (Math_min (of_Z (n - 1)) (Math_floor x)) = false)
    by (destruct Hmin as [->|[-> _]]; done).
  destruct (Math_max_zero _ Hgv Hgn) as [->|[-> Hpos]].
  { exists 0. split; [lia | reflexivity]. }
  destruct Hmin as [->|[Hmin Hle]].
  { exists (n - 1). split; [lia | reflexivity]. }
  rewrite Hmin in Hpos |- *. rewrite Hbs in Hle.
  destruct Hf as [Hbig|[(z & Hz & Hf)|Hf]].
  - assert (n - 1 < 2 ^ 52) by lia.
    assert ((n - 1) * 2 ^ 1074 < 2 ^ 52 * 2 ^ 1074) by (apply Z.mul_lt_mono_pos_r; lia).
    lia.
  - rewrite Hf in Hpos, Hle |- *.
    destruct (scaled_of_Z z Hz) as [_ Hzs]. rewrite Hzs in Hpos, Hle.
    exists z. split; [|reflexivity].
    assert (z <= n - 1) by (apply (Z.mul_le_mono_pos_r _ _ (2 ^ 1074)); lia).
    assert (0 < z) by (apply (Z.mul_lt_mono_pos_r (2 ^ 1074)); lia).
    lia.
  - rewrite Hf in Hpos. cbn in Hpos. lia.
Qed.

Lemma mul_of_Z_number (x : num) (n : Z) :
  0 < n < 2 ^ 53 -> isNaN (x * of_Z n)%num = isNaN x.
Proof.
  intros Hn. destruct (of_Z_pos_finite n Hn) as (m & e & ->).
  destruct x as [s|s| |s mx ex]; try reflexivity.
  unfold Num.mul, SFmul. by apply binary_round_aux_number.
Qed.

Lemma handleClick_nan (offset span clientY top height : num) (n : Z) :
  isNaN (click_percent offset span clientY top height) = true ->
  handleClick offset span clientY top height n = NaN.
Proof.
  intros Hnan. unfold handleClick.
  destruct (click_percent offset span clientY top height); try discriminate.
  unfold Math_max, Math_min. cbn [Num.mul SFmul Math_floor isNaN].
  by rewrite orb_true_r.
Qed.

(** On a canvas of height 0 clicked at its top edge, the position of the
    click is [0 / 0]. *)
Lemma click_percent_zero_height (offset span top : num) :
  isFinite offset = true -> isFinite span = true -> isFinite top = true ->
  click_percent offset span top top zero = NaN.
Proof.
  intros Ho Hs Ht. unfold click_percent.
  assert (Hy : is_zero (top - top)%num = true).
  { destruct top as [[|]| | |s m e]; try done.
    unfold Num.sub, SFsub. by rewrite Z.sub_diag. }
  assert (Ho' : is_zero (zero * offset)%num = true) by (by destruct offset).
  assert (Hs' : is_zero (zero * span)%num = true) by (by destruct span).
  destruct (top - top)%num as [sy| | |]; try done.
  destruct (zero * offset)%num as [so| | |]; try done.
  destruct (zero * span)%num as [ss| | |]; try done.
  by destruct sy, so.
Qed.

(** A click on the 3D view selects a frame of the table: whatever the
    ordinate of the click and the place and the height of the canvas, the
    index passed to [onSelectFrame] is a whole number from 0 to
    [frames.length - 1] (the length of an array is below 2^32), unless the position computed for the click is NaN;
    then the index is NaN. It is NaN on a canvas of height 0 that is clicked
    at its top edge. *)
Theorem handleClick_selects_frame (offset span clientY top height : num) (frames_length : Z) :
  num_valid offset -> num_valid span ->
  num_valid clientY -> num_valid top -> num_valid height ->
  1 <= frames_length < 2 ^ 32 ->
  let percent := click_percent offset span clientY top height in
  (isNaN percent = false ->
   exists k, 0 <= k < frames_length /\
             handleClick offset span clientY top height frames_length = of_Z k) /\
  (isNaN percent = true ->
   handleClick offset span clientY top height frames_length = NaN) /\
  (isFinite offset = true -> isFinite span = true -> isFinite top = true ->
   handleClick offset span top top zero frames_length = NaN).
Proof.
  intros Ho Hs Hc Ht Hh Hn percent.
  assert (Hpv : num_valid percent).
  { apply div_valid; [apply sub_valid; [by apply sub_valid | by apply mul_valid]
                     | by apply mul_valid]. }
  split; [|split].
  - intros Hnan. unfold handleClick. fold percent.
    apply clampedIndex_in_table; [apply mul_valid; [done | apply of_Z_valid] | | done].
    rewrite mul_of_Z_number; [done | lia].
  - apply handleClick_nan.
  - intros Hfo Hfs Hft. apply handleClick_nan.
    by rewrite click_percent_zero_height.
Qed.

Lemma handleClick_selects_frame_witness :
  isNaN (click_percent lit_0_15 lit_0_7 (of_Z 100) zero (of_Z 256)) = false /\
  (exists k, 0 <= k < 5 /\
             handleClick lit_0_15 lit_0_7 (of_Z 100) zero (of_Z 256) 5 = of_Z k) /\
  handleClick lit_0_15 lit_0_7 (of_Z 100) zero (of_Z 256) 5 = of_Z 1 /\
  handleClick lit_0_1 lit_0_8 (of_Z 100) zero (of_Z 256) 5 = of_Z 1 /\
  handleClick lit_0_15 lit_0_7 (of_Z 1000) zero (of_Z 256) 5 = of_Z 4 /\
  handleClick lit_0_15 lit_0_7 zero (of_Z 1000) (of_Z 256) 5 = of_Z 0.
Proof.
  assert (Hnan : isNaN (click_percent lit_0_15 lit_0_7 (of_Z 100) zero (of_Z 256)) = false)
    by (vm_compute; reflexivity).
  split; [exact Hnan|].
  assert (Hrange : 1 <= 5 < 2 ^ 32) by lia.
  destruct (handleClick_selects_frame lit_0_15 lit_0_7 (of_Z 100) zero (of_Z 256) 5
              eq_refl eq_refl eq_refl eq_refl eq_refl Hrange) as (Hselects & _ & _).
  split; [exact (Hselects Hnan)|]. repeat split; vm_compute; reflexivity.
Defined.
